(** * UMI error-correction clustering engine (lib/sequence_error.py)

    A shallow embedding of the class [ClusterAndReducer] and the properties
    of its adjacency builders, connected-component finder, post-processors,
    representative selector, cluster reducer and [__call__].

    Modelling conventions.
    - The source is Python 2.  A barcode (UMI) is a byte string: [string].
      On such a string [.encode('utf-8')] is the identity, so it does not
      appear below.  Counts are lengths, in [nat]; the count comparison of
      the directional policy and the threshold are in [Z].
    - A Python [dict] is an association list with distinct keys, listed in
      the dict's iteration order.  [d[k]] is [getitem], which raises
      [KeyError] on a missing key.
    - A Python [set] of barcodes is a duplicate-free list, listed in the
      set's iteration order.  The iteration order of a hashed container is
      not specified by the language: it is the parameter [hash_order], which
      is applied wherever the source builds or grows a [set] or a [dict],
      and of which only [Permutation (hash_order l) l] is assumed.
      Removing elements leaves the order of the others alone.
    - The sets of the component list are mutable objects that the
      directional post-processor reaches through two lists at once; an
      object is its position in the component list, and [list.index] finds
      the first position whose set is equal, as Python's [==] on sets.
    - Exceptions are values of [exn]; a computation that may raise returns a
      [result].  [assert] statements are executed.  The [while] loop of the
      search is run with a bound, shown to be never reached.
    - The module [lib/kmeans] is imported by the source but is not part of
      it: [kmeans.hamming] is modelled from the specification and
      [kmeans.find_clusters] is a parameter. *)

From Stdlib Require Import String Ascii ZArith Arith Bool Lia.
From Stdlib Require Import Relations List Permutation Sorted.
Import ListNotations.
Local Open Scope string_scope.
Local Open Scope list_scope.
Local Open Scope nat_scope.

(** ** Exceptions and the error monad *)

Inductive exn : Type :=
| ValueError (msg : string)
| AssertionError (lo hi : nat)   (* "not all umis are the same length(!):  %d - %d" % (lo, hi) *)
| AttributeError (attr : string)
| KeyError (key : string)
| IndexError
| LoopBound.                     (* the bound of a [while] loop of the model was reached *)

Inductive result (A : Type) : Type :=
| Ok (a : A)
| Raise (e : exn).
Arguments Ok {A} a.
Arguments Raise {A} e.

Definition bind {A B} (m : result A) (k : A -> result B) : result B :=
  match m with
  | Ok a => k a
  | Raise e => Raise e
  end.

Notation "x <- m ;; k" := (bind m (fun x => k))
  (at level 61, m at next level, right associativity).

Fixpoint mapM {A B} (f : A -> result B) (l : list A) : result (list B) :=
  match l with
  | [] => Ok []
  | x :: xs => y <- f x ;; ys <- mapM f xs ;; Ok (y :: ys)
  end.

Fixpoint filterM {A} (f : A -> result bool) (l : list A) : result (list A) :=
  match l with
  | [] => Ok []
  | x :: xs => b <- f x ;; ys <- filterM f xs ;; Ok (if b then x :: ys else ys)
  end.

Fixpoint foldM {A S} (f : S -> A -> result S) (l : list A) (s : S) : result S :=
  match l with
  | [] => Ok s
  | x :: xs => s' <- f s x ;; foldM f xs s'
  end.

(** ** Python containers *)

Abbreviation umi := string.
Abbreviation pyset := (list umi).

Definition mem (x : umi) (s : list umi) : bool := existsb (String.eqb x) s.

(** Python's [==] on sets: same elements, whatever the iteration order. *)
Definition subset (s t : list umi) : bool := forallb (fun x => mem x t) s.
Definition set_eq (s t : list umi) : bool := subset s t && subset t s.

(** [s.remove(x)]: raises [KeyError] when [x] is absent. *)
Definition set_remove (s : pyset) (x : umi) : result pyset :=
  if mem x s then Ok (filter (fun y => negb (String.eqb y x)) s)
  else Raise (KeyError x).

(** [s.difference_update(t)] *)
Definition set_difference_update (s t : pyset) : pyset :=
  filter (fun y => negb (mem y t)) s.

(** The elements of [xs] that [s] lacks, each once, in order of appearance. *)
Fixpoint fresh_of (s : list umi) (xs : list umi) : list umi :=
  match xs with
  | [] => []
  | x :: xs' => if mem x s then fresh_of s xs' else x :: fresh_of (x :: s) xs'
  end.

Section Dict.
Context {V : Type}.

Definition dict := list (umi * V).

Definition keys (d : dict) : list umi := map fst d.

Fixpoint lookup (d : dict) (k : umi) : option V :=
  match d with
  | [] => None
  | (k', v) :: d' => if String.eqb k' k then Some v else lookup d' k
  end.

Definition getitem (d : dict) (k : umi) : result V :=
  match lookup d k with
  | Some v => Ok v
  | None => Raise (KeyError k)
  end.

(** The items of [items], read in the key order [ks]. *)
Fixpoint pick_items (items : dict) (ks : list umi) : dict :=
  match ks with
  | [] => []
  | k :: ks' =>
      match lookup items k with
      | Some v => (k, v) :: pick_items items ks'
      | None => pick_items items ks'
      end
  end.
End Dict.
Arguments dict V : clear implicits.

(** ** Builtins: [max], [min], [list.index], [sorted(..., reverse=True)] *)

Definition py_max_nat (l : list nat) : result nat :=
  match l with
  | [] => Raise (ValueError "max() arg is an empty sequence")
  | x :: xs => Ok (fold_left (fun m y => if Nat.ltb m y then y else m) xs x)
  end.

Definition py_min_nat (l : list nat) : result nat :=
  match l with
  | [] => Raise (ValueError "min() arg is an empty sequence")
  | x :: xs => Ok (fold_left (fun m y => if Nat.ltb y m then y else m) xs x)
  end.

(** [max] on a list of [str]: byte-wise lexicographic order, the first of
    the greatest elements. *)
Definition py_max_str (l : list string) : result string :=
  match l with
  | [] => Raise (ValueError "max() arg is an empty sequence")
  | x :: xs => Ok (fold_left (fun m y => if String.ltb m y then y else m) xs x)
  end.

(** [l.index(x)] for a list of [str]. *)
Fixpoint index_str (l : list string) (x : string) : result nat :=
  match l with
  | [] => Raise (ValueError "x is not in list")
  | y :: ys => if String.eqb y x then Ok 0 else i <- index_str ys x ;; Ok (S i)
  end.

(** [l.index(s)] for a list of sets. *)
Fixpoint index_set (l : list pyset) (s : pyset) : result nat :=
  match l with
  | [] => Raise (ValueError "x is not in list")
  | y :: ys => if set_eq y s then Ok 0 else i <- index_set ys s ;; Ok (S i)
  end.

(** [sorted(l, key=..., reverse=True)] on the decorated list: a stable sort
    by descending key, so elements of equal key keep their original order. *)
Fixpoint insert_desc {A} (x : A * nat) (l : list (A * nat)) : list (A * nat) :=
  match l with
  | [] => [x]
  | y :: l' => if Nat.ltb (snd x) (snd y) then y :: insert_desc x l' else x :: y :: l'
  end.

Fixpoint sort_desc {A} (l : list (A * nat)) : list (A * nat) :=
  match l with
  | [] => []
  | x :: l' => insert_desc x (sort_desc l')
  end.

(** [sorted(l, key=lambda x: counts[x], reverse=True)] *)
Definition sorted_by_count (counts : dict nat) (l : list umi) : result (list umi) :=
  decorated <- mapM (fun x => c <- getitem counts x ;; Ok (x, c)) l ;;
  Ok (map fst (sort_desc decorated)).

(** Modelled from the spec: [kmeans.hamming], of the module [lib/kmeans]
    that [sequence_error.py] imports.  Section 4.1: the count of differing
    positions between two equal-length sequences.  The spec leaves unequal
    lengths undefined; here the positions of the shorter sequence are
    compared. *)
Fixpoint hamming (a b : string) : nat :=
  match a, b with
  | String x a', String y b' => (if Ascii.eqb x y then 0 else 1) + hamming a' b'
  | _, _ => 0
  end.

(** ** The class [ClusterAndReducer] *)

Section Engine.
(** Reads are opaque handles, only counted and passed through. *)
Context {R : Type}.

(** The iteration order of a hashed container holding the elements [l]. *)
Variable hash_order : list umi -> list umi.

(** Modelled from the spec: [kmeans.find_clusters], of the module
    [lib/kmeans] that [sequence_error.py] imports.  Section 4.4: given the
    adjacency and the counts restricted to one component and the bound
    [k], it returns the sub-groups of a secondary pass over the component:
    several when a split is warranted, otherwise one.  Only the number of
    sub-groups it returns is used by the caller. *)
Variable find_clusters : dict (list umi) -> dict nat -> nat -> list pyset.

(** [s.update(xs)] *)
Definition set_update (s : pyset) (xs : list umi) : pyset :=
  match fresh_of s xs with
  | [] => s
  | new => hash_order (s ++ new)
  end.

(** The dict built by a comprehension that produced [items] in turn. *)
Definition dict_of_items {V} (items : list (umi * V)) : dict V :=
  pick_items items (hash_order (keys items)).

(** *** Utility functions *)

Fixpoint bfs_loop (fuel : nat) (adj_list : dict (list umi))
         (searched found queue : pyset) : result pyset :=
  match queue with
  | [] => Ok found                                  (* while len(queue) > 0 *)
  | node :: _ =>                                    (* node = (list(queue))[0] *)
      match fuel with
      | 0 => Raise LoopBound
      | S fuel' =>
          row <- getitem adj_list node ;;
          let found' := set_update found row in
          let queue' := set_update queue row in
          let searched' := set_update searched [node] in
          bfs_loop fuel' adj_list searched' found'
                   (set_difference_update queue' searched')
      end
  end.

Definition breadth_first_search (node : umi) (adj_list : dict (list umi))
  : result pyset :=
  let searched := [] in
  let found := [] in
  let queue := [] in
  let queue := set_update queue [node] in
  let found := set_update found [node] in
  bfs_loop (S (length adj_list)) adj_list searched found queue.

(** *** Compute graph methods *)

Definition _get_adj_list_directional_ (umis : list umi) (counts : dict nat)
           (threshold : Z) : result (dict (list umi)) :=
  items <- mapM (fun umi =>
             row <- filterM (fun umi2 =>
                      if (Z.of_nat (hamming umi umi2) =? threshold)%Z then
                        c <- getitem counts umi ;;
                        c2 <- getitem counts umi2 ;;
                        Ok (Z.of_nat c >=? Z.of_nat c2 * 2 - 1)%Z
                      else Ok false) umis ;;
             Ok (umi, row)) umis ;;
  Ok (dict_of_items items).

Definition _get_adj_list_kmeans_ (umis : list umi) (counts : dict nat)
           (threshold : Z) : result (dict (list umi)) :=
  Ok (dict_of_items
        (map (fun umi =>
                (umi, filter (fun umi2 =>
                                (Z.of_nat (hamming umi umi2) =? threshold)%Z) umis))
             umis)).

(** *** Methods common to both approaches *)

Definition get_best (cluster : pyset) (counts : dict nat) : result umi :=
  if length cluster =? 1 then
    match cluster with
    | x :: _ => Ok x
    | [] => Raise IndexError
    end
  else
    sorted_nodes <- sorted_by_count counts cluster ;;
    match sorted_nodes with
    | x :: _ => Ok x
    | [] => Raise IndexError
    end.

Definition get_connected_components (umis : list umi)
           (graph : dict (list umi)) (counts : dict nat)
  : result (list pyset) :=
  nodes <- sorted_by_count counts (keys graph) ;;
  st <- foldM (fun (st : pyset * list pyset) node =>
                 let (found, components) := st in
                 if mem node found then Ok st
                 else
                   component <- breadth_first_search node graph ;;
                   Ok (set_update found component, components ++ [component]))
              nodes ([], []) ;;
  Ok (snd st).

Definition reduce_clusters (bundle : dict (list R)) (clusters : list pyset)
           (counts : dict nat) : result (list (R * umi)) :=
  foldM (fun reads cluster =>
           if 1 <? length cluster then
             parent_umi <- get_best cluster counts ;;
             rows <- mapM (fun umi =>
                             rs <- getitem bundle umi ;;
                             Ok (map (fun read => (read, parent_umi)) rs))
                          (filter (fun umi => negb (String.eqb umi parent_umi))
                                  cluster) ;;
             Ok (reads ++ concat rows)
           else Ok reads)
        clusters [].

(** *** Post-process components methods *)

(** The list [components] is the store of the mutable sets: a set object
    is its position in that list.  [parent_clusters] holds references to
    those objects, hence positions. *)
Fixpoint positions_from (i : nat) (umi : umi) (components : list pyset) : list nat :=
  match components with
  | [] => []
  | c :: cs => if mem umi c then i :: positions_from (S i) umi cs
               else positions_from (S i) umi cs
  end.

Definition deref (components : list pyset) (p : nat) : result pyset :=
  match nth_error components p with
  | Some c => Ok c
  | None => Raise IndexError
  end.

Fixpoint assign (components : list pyset) (p : nat) (c : pyset) : list pyset :=
  match components, p with
  | [], _ => []
  | _ :: cs, 0 => c :: cs
  | c0 :: cs, S p' => c0 :: assign cs p' c
  end.

(** [components[components.index(parent_clusters[i])].remove(umi)] *)
Definition remove_from_parent (umi : umi) (components : list pyset) (p : nat)
  : result (list pyset) :=
  parent <- deref components p ;;
  j <- index_set components parent ;;
  target <- deref components j ;;
  target' <- set_remove target umi ;;
  Ok (assign components j target').

Definition _post_process_components_directional_ (umis : list umi)
           (components : list pyset) (adj_list : dict (list umi))
           (counts : dict nat) : result (list pyset) :=
  foldM (fun components umi =>
           let parent_clusters := positions_from 0 umi components in
           if 1 <? length parent_clusters then
             cluster_reps <- mapM (fun p => cluster <- deref components p ;;
                                            get_best cluster counts)
                                  parent_clusters ;;
             best <- py_max_str cluster_reps ;;
             index_rep <- index_str cluster_reps best ;;
             foldM (fun components (ip : nat * nat) =>
                      let (i, p) := ip in
                      if i =? index_rep then Ok components
                      else remove_from_parent umi components p)
                   (combine (seq 0 (length cluster_reps)) parent_clusters)
                   components
           else Ok components)
        umis components.

Definition _post_process_components_kmeans_ (umis : list umi)
           (components : list pyset) (adj_list : dict (list umi))
           (counts : dict nat) : result (list pyset) :=
  foldM (fun new_components cluster =>
           if length cluster =? 1 then Ok (new_components ++ [cluster])
           else
             counts_items <- mapM (fun umi => c <- getitem counts umi ;;
                                              Ok (umi, c)) cluster ;;
             let counts_restricted := dict_of_items counts_items in
             adj_items <- mapM (fun umi => row <- getitem adj_list umi ;;
                                           Ok (umi, row)) cluster ;;
             let adj_list_restricted := dict_of_items adj_items in
             let new_clusters :=
               find_clusters adj_list_restricted counts_restricted 1 in
             Ok (fold_left (fun acc new_cluster => acc ++ [cluster])
                           new_clusters new_components))
        components [].

(** *** Initialization step and call method *)

Record ClusterAndReducer : Type := {
  get_adj_list :
    option (list umi -> dict nat -> Z -> result (dict (list umi)));
  post_process_components :
    option (list umi -> list pyset -> dict (list umi) -> dict nat
            -> result (list pyset))
}.

Definition __init__ (cluster_method : string) : ClusterAndReducer :=
  if String.eqb cluster_method "directional" then
    {| get_adj_list := Some _get_adj_list_directional_;
       post_process_components := Some _post_process_components_directional_ |}
  else if String.eqb cluster_method "kmeans" then
    {| get_adj_list := Some _get_adj_list_kmeans_;
       post_process_components := Some _post_process_components_kmeans_ |}
  else
    {| get_adj_list := None; post_process_components := None |}.

Definition getattr {A} (field : option A) (name : string) : result A :=
  match field with
  | Some f => Ok f
  | None => Raise (AttributeError name)
  end.

Definition __call__ (self : ClusterAndReducer) (bundle : dict (list R))
           (threshold : Z) : result (list (R * umi)) :=
  let umis := keys bundle in
  let len_umis := map String.length umis in
  hi <- py_max_nat len_umis ;;
  lo <- py_min_nat len_umis ;;
  if negb (hi =? lo) then Raise (AssertionError lo hi)
  else
    counts_items <- mapM (fun umi => rs <- getitem bundle umi ;;
                                     Ok (umi, length rs)) umis ;;
    let counts := dict_of_items counts_items in
    f <- getattr (get_adj_list self) "get_adj_list" ;;
    adj_list <- f umis counts threshold ;;
    clusters <- get_connected_components umis adj_list counts ;;
    g <- getattr (post_process_components self) "post_process_components" ;;
    clusters <- g umis clusters adj_list counts ;;
    reads_to_modify <- reduce_clusters bundle clusters counts ;;
    Ok reads_to_modify.

End Engine.

Definition default_cluster_method : string := "kmeans".
Definition default_threshold : Z := 1%Z.

(** * Vocabulary of the statements *)

(** The count a [counts] dict gives a barcode (0 when it has none). *)
Definition count_of (counts : dict nat) (x : umi) : nat :=
  match lookup counts x with
  | Some c => c
  | None => 0
  end.

(** ** Inputs of the runs

    The runs on given inputs iterate every hashed container in insertion
    order. *)
Definition insertion_order (l : list umi) : list umi := l.

(** A [find_clusters] that never splits: the component comes back whole. *)
Definition one_cluster (adj_list : dict (list umi)) (counts : dict nat) (k : nat)
  : list pyset :=
  [keys adj_list].

(** A [find_clusters] that splits the first barcode off the others. *)
Definition split_first (adj_list : dict (list umi)) (counts : dict nat) (k : nat)
  : list pyset :=
  match keys adj_list with
  | [] => [[]; []]
  | x :: rest => [[x]; rest]
  end.

(** [ClusterAndReducer("directional")] *)
Definition directional_engine : ClusterAndReducer :=
  __init__ insertion_order one_cluster "directional".

(** The bundle of the directional example of the spec; reads are numbered. *)
Definition example_bundle : dict (list nat) :=
  [("AAAA", seq 0 10); ("AAAT", [10]); ("TTTT", seq 11 8)].

(** Two barcodes, AT with 5 reads and TA with 3, both one edit from AA,
    which has a single read. *)
Definition two_parents_bundle : dict (list nat) :=
  [("AT", seq 0 5); ("TA", seq 5 3); ("AA", [8])].


(** ** Vocabulary that depends on the iteration order *)

Section Properties.
Context {R : Type}.
Variable hash_order : list umi -> list umi.
Hypothesis hash_order_perm : forall l, Permutation (hash_order l) l.

(** The number of reads a bundle files under a barcode. *)
Definition reads_count (bundle : dict (list R)) (x : umi) : nat :=
  match lookup bundle x with
  | Some rs => length rs
  | None => 0
  end.

(** The [counts] dict that [__call__] derives from a bundle. *)
Definition counts_of (bundle : dict (list R)) : dict nat :=
  dict_of_items hash_order
    (map (fun x => (x, reads_count bundle x)) (keys bundle)).

(** The test of the directional comprehension. *)
Definition directional_edge (counts : dict nat) (threshold : Z) (b b2 : umi) : bool :=
  ((Z.of_nat (hamming b b2) =? threshold)
   && (Z.of_nat (count_of counts b) >=? Z.of_nat (count_of counts b2) * 2 - 1))%Z.

(** The test of the kmeans comprehension. *)
Definition kmeans_edge (threshold : Z) (b b2 : umi) : bool :=
  (Z.of_nat (hamming b b2) =? threshold)%Z.

(** The adjacency dict of a comprehension whose test is [test]. *)
Definition adj_graph (test : umi -> umi -> bool) (umis : list umi)
  : dict (list umi) :=
  dict_of_items hash_order (map (fun u => (u, filter (test u) umis)) umis).

(** [m] is the least element of [l]. *)
Definition is_min (m : nat) (l : list nat) : Prop :=
  In m l /\ forall x, In x l -> m <= x.

(** [m] is the greatest element of [l]. *)
Definition is_max (m : nat) (l : list nat) : Prop :=
  In m l /\ forall x, In x l -> x <= m.

(** The precondition of [__call__]: all barcodes have one length. *)
Definition uniform_length (bundle : dict (list R)) : Prop :=
  forall u1 u2, In u1 (keys bundle) -> In u2 (keys bundle) ->
                String.length u1 = String.length u2.

(** The computation does not end in an [AssertionError]. *)
Definition no_assert {A} (r : result A) : Prop :=
  match r with
  | Raise (AssertionError _ _) => False
  | _ => True
  end.

(** [b] is in the adjacency list of [a]. *)
Definition edge (graph : dict (list umi)) (a b : umi) : Prop :=
  exists row, lookup graph a = Some row /\ In b row.

(** [b] is reachable from [a] along the directed edges of [graph]. *)
Definition reach (graph : dict (list umi)) : umi -> umi -> Prop :=
  clos_refl_trans umi (edge graph).

(** Adjacency lists hold keys of the graph only. *)
Definition closed_graph (graph : dict (list umi)) : Prop :=
  forall a row b, lookup graph a = Some row -> In b row -> In b (keys graph).

(** Every edge has its reverse. *)
Definition symmetric_graph (graph : dict (list umi)) : Prop :=
  forall a b, edge graph a b -> edge graph b a.

(** The number of components that hold the barcode [x]. *)
Definition claims (x : umi) (components : list pyset) : nat :=
  length (filter (mem x) components).

(** A component: duplicate-free, and as a set the barcodes reachable from
    one key of the graph. *)
Definition component_of (graph : dict (list umi)) (c : pyset) : Prop :=
  exists seed, In seed (keys graph) /\ NoDup c /\
               forall x, In x c <-> reach graph seed x.

(** What the post-processor hands to [find_clusters] for one component. *)
Definition kmeans_subclusters
           (find_clusters : dict (list umi) -> dict nat -> nat -> list pyset)
           (adj_list : dict (list umi)) (counts : dict nat) (cluster : pyset)
  : list pyset :=
  find_clusters (dict_of_items hash_order (pick_items adj_list cluster))
                (dict_of_items hash_order (pick_items counts cluster)) 1.

(** [s.remove(x)] leaves this behind. *)
Definition drop (x : umi) (s : pyset) : pyset :=
  filter (fun y => negb (String.eqb y x)) s.

(** Every component holds barcodes of [K] only. *)
Definition all_in (K : list umi) (cs : list pyset) : Prop :=
  forall c, In c cs -> incl c K.

(** [l] is strictly increasing and starts at [lo] or above. *)
Fixpoint increasing (lo : nat) (l : list nat) : Prop :=
  match l with
  | [] => True
  | p :: l' => lo <= p /\ increasing (S p) l'
  end.

(** The body of the loop over [umis]. *)
Definition directional_body (counts : dict nat) (components : list pyset) (umi : umi)
  : result (list pyset) :=
  let parent_clusters := positions_from 0 umi components in
  if 1 <? length parent_clusters then
    cluster_reps <- mapM (fun p => cluster <- deref components p ;;
                                   get_best cluster counts)
                         parent_clusters ;;
    best <- py_max_str cluster_reps ;;
    index_rep <- index_str cluster_reps best ;;
    foldM (fun components (ip : nat * nat) =>
             let (i, p) := ip in
             if i =? index_rep then Ok components
             else remove_from_parent umi components p)
          (combine (seq 0 (length cluster_reps)) parent_clusters)
          components
  else Ok components.

(** [picks graph nodes chosen seeds]: going through [nodes] in order, with
    the seeds [chosen] so far, a node becomes a seed exactly when no earlier
    seed reaches it; [seeds] are the new seeds, in order. *)
Inductive picks (graph : dict (list umi)) : list umi -> list umi -> list umi -> Prop :=
| picks_nil chosen : picks graph [] chosen []
| picks_skip n nodes chosen seeds :
    (exists s, In s chosen /\ reach graph s n) ->
    picks graph nodes chosen seeds ->
    picks graph (n :: nodes) chosen seeds
| picks_take n nodes chosen seeds :
    (forall s, In s chosen -> ~ reach graph s n) ->
    picks graph nodes (chosen ++ [n]) seeds ->
    picks graph (n :: nodes) chosen (n :: seeds).

(** [c] is, as a set, what [seed] reaches. *)
Definition component_from (graph : dict (list umi)) (seed : umi) (c : pyset) : Prop :=
  NoDup c /\ forall x, In x c <-> reach graph seed x.

(** The reads a bundle files under a barcode (none when it has no entry). *)
Definition reads_of (bundle : dict (list R)) (x : umi) : list R :=
  match lookup bundle x with
  | Some rs => rs
  | None => []
  end.

(** A move [(u, p)] hands the barcode [u] to the parent [p]: the
    reassignments of a list of moves pair every read of [u] with [p]. *)
Definition reassign (bundle : dict (list R)) (moves : list (umi * umi))
  : list (R * umi) :=
  flat_map (fun m => map (fun read => (read, snd m)) (reads_of bundle (fst m))) moves.

(** The representative of a cluster, where [get_best] returns one. *)
Definition best_of (counts : dict nat) (c : pyset) : umi :=
  match get_best c counts with
  | Ok b => b
  | Raise _ => EmptyString
  end.

(** The moves of [reduce_clusters]: in every cluster of several barcodes,
    each barcode but the representative, to the representative. *)
Definition moves_of (counts : dict nat) (clusters : list pyset) : list (umi * umi) :=
  flat_map (fun c => if 1 <? length c
                     then map (fun u => (u, best_of counts c)) (drop (best_of counts c) c)
                     else [])
           clusters.

(** One turn of the directional post-processor for the barcode [u] leaves
    a component alone or removes [u] from it. *)
Definition trim1 (u : umi) (c' c : pyset) : Prop := c' = c \/ c' = drop u c.

(** [cluster] is [component] without some barcodes, all of them barcodes
    of [umis] that more than one of [components] held. *)
Definition trimmed (umis : list umi) (components : list pyset)
           (cluster component : pyset) : Prop :=
  exists removed,
    cluster = set_difference_update component removed /\
    forall x, In x removed -> In x umis /\ 1 < claims x components.

(** The adjacency dict of the directional policy on a bundle. *)
Definition directional_graph (bundle : dict (list R)) (threshold : Z)
  : dict (list umi) :=
  adj_graph (directional_edge (counts_of bundle) threshold) (keys bundle).

(** The adjacency dict of the kmeans policy on a bundle. *)
Definition kmeans_graph (bundle : dict (list R)) (threshold : Z)
  : dict (list umi) :=
  adj_graph (kmeans_edge threshold) (keys bundle).

(** * Properties *)

(** ** Containers and builtins *)

Lemma mem_In (x : umi) (s : list umi) : mem x s = true <-> In x s.
Proof.
  unfold mem. rewrite existsb_exists. split.
  - intros [y [Hy He]]. apply String.eqb_eq in He. now subst.
  - intros H. exists x. split; [assumption | apply String.eqb_refl].
Qed.

Lemma mem_false (x : umi) (s : list umi) : mem x s = false <-> ~ In x s.
Proof.
  rewrite <- mem_In. destruct (mem x s); split; congruence.
Qed.

Lemma subset_incl (s t : list umi) : subset s t = true <-> incl s t.
Proof.
  unfold subset. rewrite forallb_forall. unfold incl.
  split; intros H x Hx; apply mem_In; auto.
Qed.

Lemma set_eq_iff (s t : list umi) :
  set_eq s t = true <-> (forall x, In x s <-> In x t).
Proof.
  unfold set_eq. rewrite andb_true_iff, !subset_incl. unfold incl.
  split.
  - intros [H1 H2] x. split; auto.
  - intros H. split; intros x Hx; apply H; assumption.
Qed.

Lemma set_eq_refl (s : list umi) : set_eq s s = true.
Proof. apply set_eq_iff. tauto. Qed.

Lemma fresh_of_In (s xs : list umi) (x : umi) :
  In x (fresh_of s xs) <-> In x xs /\ ~ In x s.
Proof.
  revert s. induction xs as [|y ys IH]; intros s; simpl.
  - tauto.
  - destruct (mem y s) eqn:E.
    + apply mem_In in E. rewrite IH. split.
      * intros [H1 H2]. auto.
      * intros [[->|H1] H2]; [contradiction | auto].
    + apply mem_false in E. simpl. rewrite IH. simpl. split.
      * intros [<-|[H1 H2]]; [auto | ]. split; auto.
      * intros [[->|H1] H2]; [auto | ].
        destruct (string_dec y x) as [->|Hn]; [auto | right].
        split; [assumption | intros [?|?]; auto].
Qed.

Lemma fresh_of_NoDup (s xs : list umi) : NoDup (fresh_of s xs).
Proof.
  revert s. induction xs as [|y ys IH]; intros s; simpl.
  - constructor.
  - destruct (mem y s); [apply IH | ].
    constructor; [ | apply IH].
    rewrite fresh_of_In. intros [_ H]. apply H. now left.
Qed.

Section DictFacts.
Context {V : Type}.
Implicit Types (d : dict V) (k : umi).

Lemma lookup_In_keys d k : lookup d k <> None <-> In k (keys d).
Proof.
  induction d as [|[k' v] d IH]; simpl.
  - split; [congruence | tauto].
  - destruct (String.eqb_spec k' k) as [->|Hn].
    + split; [auto | congruence].
    + rewrite IH. split; [auto | intros [?|?]; [contradiction | assumption]].
Qed.

Lemma lookup_Some_In d k v : lookup d k = Some v -> In (k, v) d.
Proof.
  induction d as [|[k' v'] d IH]; simpl; [congruence | ].
  destruct (String.eqb_spec k' k) as [->|Hn].
  - intros [= ->]. now left.
  - intros H. right. auto.
Qed.

Lemma In_lookup_NoDup d k v :
  NoDup (keys d) -> In (k, v) d -> lookup d k = Some v.
Proof.
  induction d as [|[k' v'] d IH]; simpl; [tauto | ].
  intros Hnd [H|H]; inversion Hnd as [|? ? Hk Hd]; subst.
  - injection H as -> ->. now rewrite String.eqb_refl.
  - destruct (String.eqb_spec k' k) as [->|Hn].
    + exfalso. apply Hk. change (In (fst (k, v)) (map fst d)).
      now apply in_map.
    + auto.
Qed.

Lemma keys_pick_items d ks :
  incl ks (keys d) -> keys (pick_items d ks) = ks.
Proof.
  induction ks as [|k ks IH]; simpl; intros Hi; [reflexivity | ].
  destruct (lookup d k) eqn:E.
  - simpl. f_equal. apply IH. intros x Hx. apply Hi. now right.
  - exfalso. apply (proj2 (lookup_In_keys d k)); [ | assumption].
    apply Hi. now left.
Qed.

Lemma lookup_pick_items d ks k :
  In k ks -> lookup (pick_items d ks) k = lookup d k.
Proof.
  induction ks as [|k' ks IH]; simpl; [tauto | ].
  intros Hin. destruct (String.eqb_spec k' k) as [->|Hn].
  - destruct (lookup d k) eqn:E; simpl.
    + now rewrite String.eqb_refl.
    + destruct (in_dec string_dec k ks) as [Hi|Hi]; [rewrite IH; auto | ].
      clear IH Hin. induction ks as [|k2 ks IH2]; simpl; [reflexivity | ].
      destruct (lookup d k2); simpl.
      * destruct (String.eqb_spec k2 k) as [->|_]; [exfalso; apply Hi; now left | ].
        apply IH2. intros ?. apply Hi. now right.
      * apply IH2. intros ?. apply Hi. now right.
  - destruct Hin as [?|Hin]; [contradiction | ].
    destruct (lookup d k'); simpl.
    + destruct (String.eqb_spec k' k); [contradiction | auto].
    + auto.
Qed.

Lemma getitem_Ok d k v : getitem d k = Ok v <-> lookup d k = Some v.
Proof.
  unfold getitem. destruct (lookup d k); split; congruence.
Qed.
End DictFacts.

Lemma getitem_count_of (counts : dict nat) (x : umi) :
  In x (keys counts) -> getitem counts x = Ok (count_of counts x).
Proof.
  intros H. apply lookup_In_keys in H. unfold getitem, count_of.
  destruct (lookup counts x); congruence.
Qed.

Lemma mapM_decorate (counts : dict nat) (l : list umi) :
  incl l (keys counts) ->
  mapM (fun x => c <- getitem counts x ;; Ok (x, c)) l
  = Ok (map (fun x => (x, count_of counts x)) l).
Proof.
  induction l as [|x l IH]; simpl; intros Hi; [reflexivity | ].
  rewrite getitem_count_of by (apply Hi; now left). simpl.
  rewrite IH by (intros y Hy; apply Hi; now right). reflexivity.
Qed.

(** ** The stable descending sort *)

Lemma insert_desc_perm {A} (x : A * nat) (l : list (A * nat)) :
  Permutation (insert_desc x l) (x :: l).
Proof.
  induction l as [|y l IH]; simpl; [reflexivity | ].
  destruct (snd x <? snd y); [ | reflexivity].
  rewrite IH. apply perm_swap.
Qed.

Lemma sort_desc_perm {A} (l : list (A * nat)) : Permutation (sort_desc l) l.
Proof.
  induction l as [|x l IH]; simpl; [reflexivity | ].
  rewrite insert_desc_perm. now constructor.
Qed.

(** The sort is what [sorted(..., reverse=True)] is: descending, and stable
    (the elements of one key keep their order). *)
Lemma insert_desc_sorted {A} (x : A * nat) (l : list (A * nat)) :
  StronglySorted (fun a b => snd b <= snd a) l ->
  StronglySorted (fun a b => snd b <= snd a) (insert_desc x l).
Proof.
  induction 1 as [|y l Hs IH Hall]; simpl.
  - constructor; constructor.
  - destruct (Nat.ltb_spec (snd x) (snd y)) as [Hlt|Hge].
    + constructor; [assumption | ].
      rewrite insert_desc_perm. constructor; [lia | assumption].
    + constructor; [now constructor | ].
      constructor; [assumption | ].
      eapply Forall_impl; [ | exact Hall]. simpl. intros z Hz. lia.
Qed.

Lemma sort_desc_sorted {A} (l : list (A * nat)) :
  StronglySorted (fun a b => snd b <= snd a) (sort_desc l).
Proof.
  induction l as [|x l IH]; simpl; [constructor | now apply insert_desc_sorted].
Qed.

Lemma insert_desc_stable {A} (k : nat) (x : A * nat) (l : list (A * nat)) :
  filter (fun y => snd y =? k) (insert_desc x l)
  = filter (fun y => snd y =? k) (x :: l).
Proof.
  induction l as [|y l IH]; simpl; [reflexivity | ].
  destruct (Nat.ltb_spec (snd x) (snd y)) as [Hlt|Hge]; [ | reflexivity].
  simpl. rewrite IH. simpl.
  destruct (Nat.eqb_spec (snd x) k) as [Hx|Hx];
    destruct (Nat.eqb_spec (snd y) k) as [Hy|Hy]; try reflexivity.
  lia.
Qed.

Lemma sort_desc_stable {A} (k : nat) (l : list (A * nat)) :
  filter (fun y => snd y =? k) (sort_desc l) = filter (fun y => snd y =? k) l.
Proof.
  induction l as [|x l IH]; simpl; [reflexivity | ].
  rewrite insert_desc_stable. simpl. now rewrite IH.
Qed.

(** The head of the sorted list is the first element of greatest key. *)
Lemma sort_desc_head {A} (l : list (A * nat)) :
  l <> [] ->
  exists pre b post rest,
    l = pre ++ b :: post /\ sort_desc l = b :: rest /\
    (forall m, In m pre -> snd m < snd b) /\
    (forall m, In m post -> snd m <= snd b).
Proof.
  induction l as [|x l IH]; [congruence | intros _].
  destruct l as [|y l'].
  - exists [], x, [], []. simpl. repeat split; intros m [].
  - destruct IH as (pre & b & post & rest & Hl & Hs & Hpre & Hpost); [congruence | ].
    change (sort_desc (x :: y :: l')) with (insert_desc x (sort_desc (y :: l'))).
    rewrite Hs. simpl. destruct (Nat.ltb_spec (snd x) (snd b)) as [Hlt|Hge].
    + exists (x :: pre), b, post, (insert_desc x rest).
      rewrite Hl. repeat split; auto.
      intros m [<-|Hm]; auto.
    + exists [], x, (y :: l'), (b :: rest).
      repeat split; [intros m [] | ].
      intros m Hm. rewrite Hl in Hm. apply in_app_or in Hm.
      destruct Hm as [Hm|[<-|Hm]]; [ | assumption | ].
      * apply Hpre in Hm. lia.
      * apply Hpost in Hm. lia.
Qed.

(** ** Representative selection *)

(** C3, as the code has it: for a non-empty cluster whose members all have a
    count, [get_best] returns a member whose count is greater than or equal
    to that of every member, and among the members of greatest count it
    returns the first one in the iteration order of the cluster: every
    member iterated before it has a strictly smaller count. *)
Theorem get_best_dominant_first_iterated (cluster : pyset) (counts : dict nat) :
  cluster <> [] ->
  incl cluster (keys counts) ->
  exists b pre post,
    cluster = pre ++ b :: post /\
    get_best cluster counts = Ok b /\
    (forall m, In m pre -> count_of counts m < count_of counts b) /\
    (forall m, In m post -> count_of counts m <= count_of counts b).
Proof.
  intros Hne Hcov. unfold get_best.
  destruct (Nat.eqb_spec (length cluster) 1) as [H1|H1].
  - destruct cluster as [|x [|y l]]; try discriminate.
    exists x, [], []. repeat split; intros m [].
  - unfold sorted_by_count. rewrite mapM_decorate by assumption. simpl.
    set (f := fun x => (x, count_of counts x)).
    destruct (sort_desc_head (map f cluster))
      as (pre & b & post & rest & Hl & Hs & Hpre & Hpost).
    { destruct cluster; [congruence | discriminate]. }
    rewrite Hs. simpl.
    apply map_eq_app in Hl. destruct Hl as (pre0 & tl0 & -> & <- & Htl).
    apply map_eq_cons in Htl. destruct Htl as (b0 & post0 & -> & <- & <-).
    exists b0, pre0, post0. simpl. repeat split.
    + intros m Hm. apply (Hpre (f m)). now apply in_map.
    + intros m Hm. apply (Hpost (f m)). now apply in_map.
Qed.

Lemma get_best_dominant_first_iterated_witness :
  exists b pre post,
    ["AAAT"; "AAAA"; "AATA"] = pre ++ b :: post /\
    get_best ["AAAT"; "AAAA"; "AATA"] [("AAAA", 4); ("AAAT", 1); ("AATA", 4)] = Ok b /\
    (forall m, In m pre -> count_of [("AAAA", 4); ("AAAT", 1); ("AATA", 4)] m
                           < count_of [("AAAA", 4); ("AAAT", 1); ("AATA", 4)] b) /\
    (forall m, In m post -> count_of [("AAAA", 4); ("AAAT", 1); ("AATA", 4)] m
                            <= count_of [("AAAA", 4); ("AAAT", 1); ("AATA", 4)] b).
Proof.
  apply (get_best_dominant_first_iterated
           ["AAAT"; "AAAA"; "AATA"] [("AAAA", 4); ("AAAT", 1); ("AATA", 4)]).
  - discriminate.
  - intros x Hx. simpl in *. intuition.
Defined.

(** C3, the part that fails: two barcodes of equal count, the same set and
    the same counts, iterated in the two possible orders.  [get_best]
    returns the barcode that is iterated first, so the result is not fixed
    by the lexicographic order of the barcodes. *)
Lemma get_best_tie_follows_iteration_order :
  set_eq ["TTTT"; "AAAA"] ["AAAA"; "TTTT"] = true /\
  String.ltb "AAAA" "TTTT" = true /\
  get_best ["TTTT"; "AAAA"] [("AAAA", 3); ("TTTT", 3)] = Ok "TTTT" /\
  get_best ["AAAA"; "TTTT"] [("AAAA", 3); ("TTTT", 3)] = Ok "AAAA".
Proof. repeat split. Qed.

(** ** Facts that hold for every iteration order *)

Lemma mapM_total {A B} (f : A -> result B) (g : A -> B) (l : list A) :
  (forall x, In x l -> f x = Ok (g x)) -> mapM f l = Ok (map g l).
Proof.
  induction l as [|x l IH]; simpl; intros H; [reflexivity | ].
  rewrite H by now left. simpl. rewrite IH by (intros; apply H; now right).
  reflexivity.
Qed.

Lemma filterM_total {A} (f : A -> result bool) (g : A -> bool) (l : list A) :
  (forall x, In x l -> f x = Ok (g x)) -> filterM f l = Ok (filter g l).
Proof.
  induction l as [|x l IH]; simpl; intros H; [reflexivity | ].
  rewrite H by now left. simpl. rewrite IH by (intros; apply H; now right).
  reflexivity.
Qed.

Lemma lookup_map_key {V} (f : umi -> V) (l : list umi) (k : umi) :
  In k l -> lookup (map (fun u => (u, f u)) l) k = Some (f k).
Proof.
  induction l as [|x l IH]; simpl; [tauto | ].
  intros H. destruct (String.eqb_spec x k) as [->|Hn]; [reflexivity | ].
  destruct H; [contradiction | auto].
Qed.

Lemma keys_map_key {V} (f : umi -> V) (l : list umi) :
  keys (map (fun u => (u, f u)) l) = l.
Proof.
  unfold keys. rewrite map_map. simpl. apply map_id.
Qed.

Lemma hamming_refl (a : string) : hamming a a = 0.
Proof.
  induction a as [|c a IH]; simpl; [reflexivity | ].
  now rewrite Ascii.eqb_refl, IH.
Qed.

Lemma hamming_sym (a b : string) : hamming a b = hamming b a.
Proof.
  revert b. induction a as [|c a IH]; intros [|d b]; simpl; try reflexivity.
  rewrite (IH b), (Ascii.eqb_sym c d). reflexivity.
Qed.

Lemma hamming_zero_eq (a b : string) :
  String.length a = String.length b -> hamming a b = 0 -> a = b.
Proof.
  revert b. induction a as [|c a IH]; intros [|d b]; simpl; try discriminate.
  - reflexivity.
  - intros [= Hl] H. destruct (Ascii.eqb_spec c d) as [->|Hn]; [ | discriminate].
    f_equal. apply IH; assumption.
Qed.

Lemma hash_order_In l x : In x (hash_order l) <-> In x l.
Proof.
  split; apply Permutation_in; [ | symmetry]; apply hash_order_perm.
Qed.

Lemma hash_order_NoDup l : NoDup l -> NoDup (hash_order l).
Proof.
  apply Permutation_NoDup. symmetry. apply hash_order_perm.
Qed.

Lemma keys_dict_of_items {V} (items : list (umi * V)) :
  keys (dict_of_items hash_order items) = hash_order (keys items).
Proof.
  unfold dict_of_items. apply keys_pick_items.
  intros x. apply hash_order_In.
Qed.

Lemma lookup_dict_of_items {V} (items : list (umi * V)) k :
  lookup (dict_of_items hash_order items) k = lookup items k.
Proof.
  unfold dict_of_items.
  destruct (in_dec string_dec k (keys items)) as [Hi|Hi].
  - apply lookup_pick_items. now apply hash_order_In.
  - assert (H1 : lookup items k = None).
    { destruct (lookup items k) eqn:E; [ | reflexivity].
      exfalso. apply Hi. apply lookup_In_keys. congruence. }
    rewrite H1.
    destruct (lookup (pick_items items (hash_order (keys items))) k) eqn:E;
      [ | reflexivity].
    exfalso. apply Hi. apply hash_order_In.
    rewrite <- (keys_pick_items items (hash_order (keys items))).
    + apply lookup_In_keys. congruence.
    + intros x. apply hash_order_In.
Qed.

Lemma In_keys_dict_of_items {V} (items : list (umi * V)) k :
  In k (keys (dict_of_items hash_order items)) <-> In k (keys items).
Proof.
  rewrite keys_dict_of_items. apply hash_order_In.
Qed.

Lemma set_update_In s xs x :
  In x (set_update hash_order s xs) <-> In x s \/ In x xs.
Proof.
  unfold set_update. destruct (fresh_of s xs) as [|y ys] eqn:E.
  - split; [auto | ]. intros [H|H]; [assumption | ].
    destruct (in_dec string_dec x s) as [Hi|Hi]; [assumption | ].
    assert (Hf : In x (fresh_of s xs)) by (apply fresh_of_In; auto).
    rewrite E in Hf. destruct Hf.
  - rewrite hash_order_In, in_app_iff, <- E, fresh_of_In. split.
    + intros [H|[H _]]; auto.
    + intros [H|H]; [auto | ].
      destruct (in_dec string_dec x s); auto.
Qed.

Lemma set_update_NoDup s xs : NoDup s -> NoDup (set_update hash_order s xs).
Proof.
  intros Hs. unfold set_update. destruct (fresh_of s xs) as [|y ys] eqn:E.
  - assumption.
  - apply hash_order_NoDup. rewrite <- E.
    apply NoDup_app; [assumption | apply fresh_of_NoDup | ].
    intros x Hx Hf. apply fresh_of_In in Hf. tauto.
Qed.

(** *** The adjacency builders *)

Lemma counts_items_of_bundle (bundle : dict (list R)) :
  mapM (fun umi => rs <- getitem bundle umi ;; Ok (umi, length rs)) (keys bundle)
  = Ok (map (fun x => (x, reads_count bundle x)) (keys bundle)).
Proof.
  apply mapM_total. intros x Hx. apply lookup_In_keys in Hx.
  unfold getitem, reads_count. destruct (lookup bundle x); [reflexivity | congruence].
Qed.

Lemma keys_counts_of (bundle : dict (list R)) x :
  In x (keys (counts_of bundle)) <-> In x (keys bundle).
Proof.
  unfold counts_of. now rewrite In_keys_dict_of_items, keys_map_key.
Qed.

Lemma count_of_counts_of (bundle : dict (list R)) x :
  count_of (counts_of bundle) x = reads_count bundle x.
Proof.
  unfold count_of, counts_of. rewrite lookup_dict_of_items.
  destruct (in_dec string_dec x (keys bundle)) as [Hi|Hi].
  - now rewrite lookup_map_key.
  - destruct (lookup (map _ (keys bundle)) x) eqn:E.
    + exfalso. apply Hi.
      rewrite <- (keys_map_key (reads_count bundle) (keys bundle)).
      apply lookup_In_keys. congruence.
    + unfold reads_count. destruct (lookup bundle x) eqn:E2; [ | reflexivity].
      exfalso. apply Hi. apply lookup_In_keys. congruence.
Qed.

Lemma get_adj_list_directional_eq umis counts threshold :
  incl umis (keys counts) ->
  _get_adj_list_directional_ hash_order umis counts threshold
  = Ok (adj_graph (directional_edge counts threshold) umis).
Proof.
  intros Hcov. unfold _get_adj_list_directional_, adj_graph.
  rewrite (mapM_total _ (fun u => (u, filter (directional_edge counts threshold u) umis)));
    [reflexivity | ].
  intros u Hu.
  rewrite (filterM_total _ (directional_edge counts threshold u)); [reflexivity | ].
  intros u2 Hu2. unfold directional_edge.
  destruct (Z.of_nat (hamming u u2) =? threshold)%Z; [ | reflexivity].
  rewrite !getitem_count_of by auto. reflexivity.
Qed.

Lemma get_adj_list_kmeans_eq umis counts threshold :
  _get_adj_list_kmeans_ hash_order umis counts threshold
  = Ok (adj_graph (kmeans_edge threshold) umis).
Proof. reflexivity. Qed.

Lemma lookup_adj (test : umi -> umi -> bool) umis b :
  In b umis ->
  lookup (adj_graph test umis) b = Some (filter (test b) umis).
Proof.
  intros Hb. unfold adj_graph. rewrite lookup_dict_of_items.
  apply (lookup_map_key (fun u => filter (test u) umis)). assumption.
Qed.

(** C5, as the code has it: under the directional policy, for every
    barcode B of the bundle and every threshold, B2 is in B's adjacency
    list if and only if B2 is a barcode of the bundle,
    hamming(B,B2) = threshold and count(B) >= 2*count(B2) - 1, B2 = B
    included.  So no barcode is adjacent to itself when the threshold is
    not 0, and at threshold 0 a barcode is adjacent to itself exactly when
    its count is at most 1. *)
Theorem directional_adjacency (bundle : dict (list R)) (threshold : Z) :
  exists adj_list,
    _get_adj_list_directional_ hash_order (keys bundle) (counts_of bundle) threshold
    = Ok adj_list /\
    forall b, In b (keys bundle) ->
      exists row,
        getitem adj_list b = Ok row /\
        (forall b2, In b2 row <->
                    In b2 (keys bundle) /\
                    Z.of_nat (hamming b b2) = threshold /\
                    (Z.of_nat (reads_count bundle b)
                     >= 2 * Z.of_nat (reads_count bundle b2) - 1)%Z) /\
        (threshold <> 0%Z -> ~ In b row) /\
        (threshold = 0%Z -> (In b row <-> reads_count bundle b <= 1)).
Proof.
  rewrite get_adj_list_directional_eq
    by (intros x Hx; now apply keys_counts_of).
  eexists. split; [reflexivity | ]. intros b Hb.
  exists (filter (directional_edge (counts_of bundle) threshold b) (keys bundle)).
  assert (Hrow : forall b2,
             In b2 (filter (directional_edge (counts_of bundle) threshold b) (keys bundle))
             <-> In b2 (keys bundle) /\
                 Z.of_nat (hamming b b2) = threshold /\
                 (Z.of_nat (reads_count bundle b)
                  >= 2 * Z.of_nat (reads_count bundle b2) - 1)%Z).
  { intros b2. rewrite filter_In. unfold directional_edge.
    rewrite andb_true_iff, Z.eqb_eq, Z.geb_le, !count_of_counts_of.
    split; intros (H1 & H2 & H3); repeat split; try assumption; lia. }
  split; [ | split; [exact Hrow | split]].
  - unfold getitem. now rewrite lookup_adj.
  - intros Ht Hin. apply Hrow in Hin. destruct Hin as (_ & Hh & _).
    rewrite hamming_refl in Hh. simpl in Hh. congruence.
  - intros ->. rewrite Hrow, hamming_refl. split.
    + intros (_ & _ & H). lia.
    + intros H. repeat split; [assumption | lia].
Qed.

(** *** The precondition check of [__call__] *)

Lemma fold_max_spec xs x :
  is_max (fold_left (fun m y => if m <? y then y else m) xs x) (x :: xs).
Proof.
  revert x. induction xs as [|y ys IH]; intros x; simpl.
  - split; [now left | intros z [<-|[]]; lia].
  - destruct (Nat.ltb_spec x y) as [Hlt|Hge].
    + destruct (IH y) as [Hin Hle]. split.
      * simpl in Hin. simpl. tauto.
      * intros z [<-|Hz]; [ | now apply Hle].
        specialize (Hle y (or_introl eq_refl)). lia.
    + destruct (IH x) as [Hin Hle]. split.
      * simpl in Hin. simpl. tauto.
      * intros z [<-|[<-|Hz]]; [apply Hle; now left | | apply Hle; now right].
        specialize (Hle x (or_introl eq_refl)). lia.
Qed.

Lemma fold_min_spec xs x :
  is_min (fold_left (fun m y => if y <? m then y else m) xs x) (x :: xs).
Proof.
  revert x. induction xs as [|y ys IH]; intros x; simpl.
  - split; [now left | intros z [<-|[]]; lia].
  - destruct (Nat.ltb_spec y x) as [Hlt|Hge].
    + destruct (IH y) as [Hin Hle]. split.
      * simpl in Hin. simpl. tauto.
      * intros z [<-|Hz]; [ | now apply Hle].
        specialize (Hle y (or_introl eq_refl)). lia.
    + destruct (IH x) as [Hin Hle]. split.
      * simpl in Hin. simpl. tauto.
      * intros z [<-|[<-|Hz]]; [apply Hle; now left | | apply Hle; now right].
        specialize (Hle x (or_introl eq_refl)). lia.
Qed.

Lemma py_max_nat_spec l :
  l <> [] -> exists m, py_max_nat l = Ok m /\ is_max m l.
Proof.
  destruct l as [|x xs]; [congruence | intros _].
  eexists. split; [reflexivity | apply fold_max_spec].
Qed.

Lemma py_min_nat_spec l :
  l <> [] -> exists m, py_min_nat l = Ok m /\ is_min m l.
Proof.
  destruct l as [|x xs]; [congruence | intros _].
  eexists. split; [reflexivity | apply fold_min_spec].
Qed.

(** What [__call__] does once the assertion has passed. *)
Lemma call_uniform (self : ClusterAndReducer) (bundle : dict (list R)) threshold :
  bundle <> [] ->
  uniform_length bundle ->
  __call__ hash_order self bundle threshold
  = (f <- getattr (get_adj_list self) "get_adj_list" ;;
     adj_list <- f (keys bundle) (counts_of bundle) threshold ;;
     clusters <- get_connected_components hash_order (keys bundle) adj_list
                                          (counts_of bundle) ;;
     g <- getattr (post_process_components self) "post_process_components" ;;
     clusters <- g (keys bundle) clusters adj_list (counts_of bundle) ;;
     reads_to_modify <- reduce_clusters bundle clusters (counts_of bundle) ;;
     Ok reads_to_modify).
Proof.
  intros Hne Hu. unfold __call__.
  assert (Hl : map String.length (keys bundle) <> []).
  { destruct bundle; [congruence | discriminate]. }
  destruct (py_max_nat_spec _ Hl) as (hi & -> & Hhi & _).
  destruct (py_min_nat_spec _ Hl) as (lo & -> & Hlo & _).
  simpl. apply in_map_iff in Hhi, Hlo.
  destruct Hhi as (u1 & <- & H1). destruct Hlo as (u2 & <- & H2).
  rewrite (Hu u1 u2 H1 H2), Nat.eqb_refl. simpl.
  rewrite counts_items_of_bundle. reflexivity.
Qed.

Lemma call_mixed (self : ClusterAndReducer) (bundle : dict (list R)) threshold u1 u2 :
  In u1 (keys bundle) -> In u2 (keys bundle) ->
  String.length u1 <> String.length u2 ->
  exists lo hi,
    __call__ hash_order self bundle threshold = Raise (AssertionError lo hi) /\
    is_min lo (map String.length (keys bundle)) /\
    is_max hi (map String.length (keys bundle)).
Proof.
  intros H1 H2 Hne. unfold __call__.
  assert (Hl : map String.length (keys bundle) <> []).
  { destruct bundle; [destruct H1 | discriminate]. }
  destruct (py_max_nat_spec _ Hl) as (hi & -> & Hhi).
  destruct (py_min_nat_spec _ Hl) as (lo & -> & Hlo).
  exists lo, hi. simpl.
  destruct (Nat.eqb_spec hi lo) as [->|Hd]; simpl; [ | auto].
  exfalso.
  pose proof (proj2 Hhi _ (in_map String.length _ _ H1)).
  pose proof (proj2 Hhi _ (in_map String.length _ _ H2)).
  pose proof (proj2 Hlo _ (in_map String.length _ _ H1)).
  pose proof (proj2 Hlo _ (in_map String.length _ _ H2)).
  lia.
Qed.

(** C9: on the empty bundle the precondition check itself raises, from
    the maximum of an empty list, whatever the policy (bound or not) and
    the threshold, so no reassignment list is returned. *)
Theorem call_empty_bundle (self : ClusterAndReducer) (threshold : Z) :
  __call__ hash_order self (@nil (umi * list R)) threshold
  = Raise (ValueError "max() arg is an empty sequence").
Proof. reflexivity. Qed.

(** *** Only the precondition check raises [AssertionError] *)

Lemma no_assert_bind {A B} (m : result A) (k : A -> result B) :
  no_assert m -> (forall a, no_assert (k a)) -> no_assert (x <- m ;; k x).
Proof.
  destruct m as [a|e]; simpl; intros Hm Hk; [apply Hk | assumption].
Qed.

Lemma no_assert_mapM {A B} (f : A -> result B) l :
  (forall x, no_assert (f x)) -> no_assert (mapM f l).
Proof.
  intros Hf. induction l as [|x l IH]; simpl; [exact I | ].
  apply no_assert_bind; [apply Hf | intros y].
  apply no_assert_bind; [apply IH | intros ys; exact I].
Qed.

Lemma no_assert_filterM {A} (f : A -> result bool) l :
  (forall x, no_assert (f x)) -> no_assert (filterM f l).
Proof.
  intros Hf. induction l as [|x l IH]; simpl; [exact I | ].
  apply no_assert_bind; [apply Hf | intros y].
  apply no_assert_bind; [apply IH | intros ys; exact I].
Qed.

Lemma no_assert_foldM {A S} (f : S -> A -> result S) l s :
  (forall s x, no_assert (f s x)) -> no_assert (foldM f l s).
Proof.
  intros Hf. revert s. induction l as [|x l IH]; intros s; simpl; [exact I | ].
  apply no_assert_bind; [apply Hf | apply IH].
Qed.

Lemma no_assert_getitem {V} (d : dict V) k : no_assert (getitem d k).
Proof. unfold getitem. destruct (lookup d k); exact I. Qed.

Lemma no_assert_getattr {A} (o : option A) name : no_assert (getattr o name).
Proof. destruct o; exact I. Qed.

Lemma no_assert_deref cs p : no_assert (deref cs p).
Proof. unfold deref. destruct (nth_error cs p); exact I. Qed.

Lemma no_assert_set_remove s x : no_assert (set_remove s x).
Proof. unfold set_remove. destruct (mem x s); exact I. Qed.

Lemma no_assert_py_max_str l : no_assert (py_max_str l).
Proof. destruct l; exact I. Qed.

Lemma no_assert_index_str l x : no_assert (index_str l x).
Proof.
  induction l as [|y l IH]; simpl; [exact I | ].
  destruct (String.eqb y x); [exact I | ].
  apply no_assert_bind; [assumption | intros; exact I].
Qed.

Lemma no_assert_index_set l s : no_assert (index_set l s).
Proof.
  induction l as [|y l IH]; simpl; [exact I | ].
  destruct (set_eq y s); [exact I | ].
  apply no_assert_bind; [assumption | intros; exact I].
Qed.

Ltac no_assert_step :=
  match goal with
  | |- no_assert (Ok _) => exact I
  | |- no_assert (Raise _) => exact I
  | |- no_assert (bind _ _) => apply no_assert_bind; [ | intros ? ]
  | |- no_assert (mapM _ _) => apply no_assert_mapM; intros ?
  | |- no_assert (filterM _ _) => apply no_assert_filterM; intros ?
  | |- no_assert (foldM _ _ _) => apply no_assert_foldM; intros ? ?
  | |- no_assert (getitem _ _) => apply no_assert_getitem
  | |- no_assert (getattr _ _) => apply no_assert_getattr
  | |- no_assert (deref _ _) => apply no_assert_deref
  | |- no_assert (set_remove _ _) => apply no_assert_set_remove
  | |- no_assert (py_max_str _) => apply no_assert_py_max_str
  | |- no_assert (index_str _ _) => apply no_assert_index_str
  | |- no_assert (index_set _ _) => apply no_assert_index_set
  | |- no_assert (if ?b then _ else _) => destruct b
  | |- no_assert (match ?x with _ => _ end) => destruct x
  | |- no_assert (let (_, _) := ?x in _) => destruct x
  end.

Lemma no_assert_sorted_by_count counts l : no_assert (sorted_by_count counts l).
Proof. unfold sorted_by_count. repeat no_assert_step. Qed.

Lemma no_assert_get_best cluster counts : no_assert (get_best cluster counts).
Proof.
  unfold get_best. destruct (length cluster =? 1).
  - destruct cluster; exact I.
  - apply no_assert_bind; [apply no_assert_sorted_by_count | intros [|? ?]; exact I].
Qed.

Lemma no_assert_bfs_loop fuel adj_list searched found queue :
  no_assert (bfs_loop hash_order fuel adj_list searched found queue).
Proof.
  revert searched found queue.
  induction fuel as [|fuel IH]; intros searched found [|node queue]; simpl;
    try exact I.
  apply no_assert_bind; [apply no_assert_getitem | intros row; apply IH].
Qed.

Lemma no_assert_get_connected_components umis graph counts :
  no_assert (get_connected_components hash_order umis graph counts).
Proof.
  unfold get_connected_components.
  apply no_assert_bind; [apply no_assert_sorted_by_count | intros nodes].
  apply no_assert_bind; [ | intros; exact I].
  apply no_assert_foldM. intros [found components] node.
  destruct (mem node found); [exact I | ].
  apply no_assert_bind; [apply no_assert_bfs_loop | intros; exact I].
Qed.

Lemma no_assert_reduce_clusters (bundle : dict (list R)) clusters counts :
  no_assert (reduce_clusters bundle clusters counts).
Proof.
  unfold reduce_clusters. apply no_assert_foldM. intros reads cluster.
  destruct (1 <? length cluster); [ | exact I].
  apply no_assert_bind; [apply no_assert_get_best | intros parent_umi].
  repeat no_assert_step.
Qed.

Lemma no_assert_post_process_directional umis components adj_list counts :
  no_assert (_post_process_components_directional_ umis components adj_list counts).
Proof.
  unfold _post_process_components_directional_. apply no_assert_foldM.
  intros cs u. destruct (1 <? length (positions_from 0 u cs)); [ | exact I].
  apply no_assert_bind.
  { apply no_assert_mapM. intros p.
    apply no_assert_bind; [apply no_assert_deref | intros; apply no_assert_get_best]. }
  intros reps. unfold remove_from_parent. repeat no_assert_step.
Qed.

Lemma no_assert_post_process_kmeans find_clusters umis components adj_list counts :
  no_assert (_post_process_components_kmeans_ hash_order find_clusters
               umis components adj_list counts).
Proof.
  unfold _post_process_components_kmeans_. repeat no_assert_step.
Qed.

Lemma no_assert_get_adj_list_directional umis counts threshold :
  no_assert (_get_adj_list_directional_ hash_order umis counts threshold).
Proof.
  unfold _get_adj_list_directional_. repeat no_assert_step.
Qed.

Lemma no_assert_call_init find_clusters method (bundle : dict (list R)) threshold :
  bundle <> [] ->
  uniform_length bundle ->
  no_assert (__call__ hash_order (__init__ hash_order find_clusters method)
                      bundle threshold).
Proof.
  intros Hne Hu. rewrite call_uniform by assumption. unfold __init__.
  destruct (String.eqb method "directional"); [ | destruct (String.eqb method "kmeans")];
    simpl.
  - apply no_assert_bind; [apply no_assert_get_adj_list_directional | intros g].
    apply no_assert_bind; [apply no_assert_get_connected_components | intros cs].
    apply no_assert_bind; [apply no_assert_post_process_directional | intros cs'].
    apply no_assert_bind; [apply no_assert_reduce_clusters | intros; exact I].
  - apply no_assert_bind; [apply no_assert_get_connected_components | intros cs].
    apply no_assert_bind; [apply no_assert_post_process_kmeans | intros cs'].
    apply no_assert_bind; [apply no_assert_reduce_clusters | intros; exact I].
  - exact I.
Qed.

(** C6: a bundle holding barcodes of two different lengths makes
    [__call__] raise the assertion failure, which carries the smallest and
    the greatest observed length; this holds for every engine, bound to a
    policy or not, and every threshold, so nothing after the check is
    involved.  A bundle of uniform barcode length never gets this
    failure from a constructed engine. *)
Theorem call_length_precondition (bundle : dict (list R)) :
  (forall self threshold u1 u2,
      In u1 (keys bundle) -> In u2 (keys bundle) ->
      String.length u1 <> String.length u2 ->
      exists lo hi,
        __call__ hash_order self bundle threshold = Raise (AssertionError lo hi) /\
        is_min lo (map String.length (keys bundle)) /\
        is_max hi (map String.length (keys bundle))) /\
  (uniform_length bundle ->
   forall find_clusters cluster_method threshold lo hi,
     __call__ hash_order (__init__ hash_order find_clusters cluster_method)
              bundle threshold
     <> Raise (AssertionError lo hi)).
Proof.
  split.
  - intros self threshold u1 u2. apply call_mixed.
  - intros Hu find_clusters cluster_method threshold lo hi Heq.
    destruct bundle as [|kv bundle'] eqn:Eb.
    + discriminate Heq.
    + assert (Hna := no_assert_call_init find_clusters cluster_method
                       (kv :: bundle') threshold ltac:(discriminate) Hu).
      rewrite Heq in Hna. exact Hna.
Qed.

(** C10, as the code has it: constructing the engine with a
    [cluster_method] other than "directional" or "kmeans" succeeds and
    binds neither policy method; every later invocation fails before
    producing a reassignment: with the missing-attribute error when the
    bundle passes the length check (non-empty, uniform length), and with
    the failure of that check otherwise. *)
Theorem unbound_policy_call find_clusters cluster_method
        (bundle : dict (list R)) (threshold : Z) :
  cluster_method <> "directional" ->
  cluster_method <> "kmeans" ->
  get_adj_list (__init__ hash_order find_clusters cluster_method) = None /\
  post_process_components (__init__ hash_order find_clusters cluster_method) = None /\
  (exists e,
      __call__ hash_order (__init__ hash_order find_clusters cluster_method)
               bundle threshold = Raise e) /\
  (bundle <> [] -> uniform_length bundle ->
   __call__ hash_order (__init__ hash_order find_clusters cluster_method)
            bundle threshold = Raise (AttributeError "get_adj_list")).
Proof.
  intros Hd Hk.
  assert (Hinit : __init__ hash_order find_clusters cluster_method
                  = {| get_adj_list := None; post_process_components := None |}).
  { unfold __init__.
    destruct (String.eqb_spec cluster_method "directional"); [contradiction | ].
    destruct (String.eqb_spec cluster_method "kmeans"); [contradiction | ].
    reflexivity. }
  rewrite Hinit. simpl. repeat split.
  - unfold __call__.
    destruct (py_max_nat _) as [hi|e]; simpl; [ | eauto].
    destruct (py_min_nat _) as [lo|e]; simpl; [ | eauto].
    destruct (hi =? lo); simpl; [ | eauto].
    rewrite counts_items_of_bundle. simpl. eauto.
  - intros Hne Hu. rewrite call_uniform by assumption. reflexivity.
Qed.

(** *** Breadth-first search *)

Lemma reach_keys graph s x :
  closed_graph graph -> In s (keys graph) -> reach graph s x -> In x (keys graph).
Proof.
  intros Hc Hs Hr. apply clos_rt_rtn1 in Hr.
  induction Hr as [|y z [row [Hl Hin]] _ IH]; [assumption | ].
  eapply Hc; eassumption.
Qed.

Lemma reach_sym graph a b :
  symmetric_graph graph -> reach graph a b -> reach graph b a.
Proof.
  intros Hs Hr. induction Hr as [x y He| |x y z _ IH1 _ IH2].
  - apply rt_step. now apply Hs.
  - apply rt_refl.
  - eapply rt_trans; eassumption.
Qed.

Lemma set_update_single_length s x :
  ~ In x s -> length (set_update hash_order s [x]) = S (length s).
Proof.
  intros Hx. unfold set_update. simpl.
  apply mem_false in Hx. rewrite Hx.
  rewrite (Permutation_length (hash_order_perm _)), length_app. simpl. lia.
Qed.

Lemma set_difference_update_In s t x :
  In x (set_difference_update s t) <-> In x s /\ ~ In x t.
Proof.
  unfold set_difference_update. rewrite filter_In, negb_true_iff, mem_false.
  tauto.
Qed.

Lemma bfs_loop_spec graph s :
  closed_graph graph ->
  In s (keys graph) ->
  forall fuel searched found queue,
    In s found -> NoDup found -> NoDup searched ->
    (forall x, In x found -> reach graph s x) ->
    (forall x, In x found -> In x searched \/ In x queue) ->
    (forall x y, In x searched -> edge graph x y -> In y found) ->
    (forall x, In x queue -> In x found /\ ~ In x searched) ->
    incl searched (keys graph) ->
    length graph < length searched + fuel ->
    exists found',
      bfs_loop hash_order fuel graph searched found queue = Ok found' /\
      NoDup found' /\
      forall x, In x found' <-> reach graph s x.
Proof.
  intros Hclosed Hs.
  induction fuel as [|fuel IH];
    intros searched found queue Hsf Hndf Hnds Hsound Hfront Hdone Hq Hincl Hfuel.
  - assert (Hlen : length searched <= length (keys graph))
      by (apply NoDup_incl_length; assumption).
    unfold keys in Hlen. rewrite length_map in Hlen. lia.
  - destruct queue as [|node queue'].
    + simpl. exists found. repeat split; [assumption | apply Hsound | ].
      intros Hr. apply clos_rt_rtn1 in Hr.
      induction Hr as [|y z He _ IHr]; [assumption | ].
      destruct (Hfront y IHr) as [Hy|[]]. eapply Hdone; eassumption.
    + destruct (Hq node (or_introl eq_refl)) as [Hnf Hns].
      assert (Hnk : In node (keys graph))
        by (eapply reach_keys; [assumption | exact Hs | auto]).
      destruct (lookup graph node) as [row|] eqn:Erow;
        [ | exfalso; now apply (proj2 (lookup_In_keys graph node))].
      simpl. unfold getitem. rewrite Erow. simpl.
      apply IH.
      * apply set_update_In. now left.
      * now apply set_update_NoDup.
      * now apply set_update_NoDup.
      * intros x Hx. apply set_update_In in Hx. destruct Hx as [Hx|Hx]; [auto | ].
        eapply rt_trans; [apply Hsound, Hnf | ].
        apply rt_step. exists row. auto.
      * intros x Hx.
        destruct (in_dec string_dec x (set_update hash_order searched [node]))
          as [Hi|Hi]; [now left | right].
        apply set_difference_update_In. split; [ | assumption].
        apply set_update_In. apply set_update_In in Hx.
        destruct Hx as [Hx|Hx]; [ | now right].
        destruct (Hfront x Hx) as [Hxs|Hxq]; [ | now left].
        exfalso. apply Hi. apply set_update_In. now left.
      * intros x y Hx He. apply set_update_In.
        apply set_update_In in Hx. destruct Hx as [Hx|[<-|[]]].
        -- left. eapply Hdone; eassumption.
        -- right. destruct He as [row' [Hl Hy]]. congruence.
      * intros x Hx. apply set_difference_update_In in Hx.
        destruct Hx as [Hx Hxs]. split; [ | assumption].
        apply set_update_In. apply set_update_In in Hx.
        destruct Hx as [Hx|Hx]; [ | now right].
        left. now apply Hq.
      * intros x Hx. apply set_update_In in Hx.
        destruct Hx as [Hx|[<-|[]]]; [now apply Hincl | assumption].
      * rewrite set_update_single_length by assumption. lia.
Qed.

(** The bound of the loop is never reached, on any graph: the search
    returns the found set or raises [KeyError]. *)
Lemma bfs_loop_bound graph :
  forall fuel searched found queue,
    NoDup searched ->
    incl searched (keys graph) ->
    (forall x, In x queue -> ~ In x searched) ->
    length graph < length searched + fuel ->
    bfs_loop hash_order fuel graph searched found queue <> Raise LoopBound.
Proof.
  induction fuel as [|fuel IH]; intros searched found queue Hnd Hincl Hq Hfuel.
  - assert (Hlen : length searched <= length (keys graph))
      by (apply NoDup_incl_length; assumption).
    unfold keys in Hlen. rewrite length_map in Hlen. lia.
  - destruct queue as [|node queue']; simpl; [discriminate | ].
    unfold getitem. destruct (lookup graph node) as [row|] eqn:Erow; simpl;
      [ | discriminate].
    assert (Hns : ~ In node searched) by (apply Hq; now left).
    apply IH.
    + now apply set_update_NoDup.
    + intros x Hx. apply set_update_In in Hx.
      destruct Hx as [Hx|[<-|[]]]; [now apply Hincl | ].
      apply lookup_In_keys. congruence.
    + intros x Hx. apply set_difference_update_In in Hx. tauto.
    + rewrite set_update_single_length by assumption. lia.
Qed.

Lemma breadth_first_search_bound node graph :
  breadth_first_search hash_order node graph <> Raise LoopBound.
Proof.
  unfold breadth_first_search. apply bfs_loop_bound.
  - constructor.
  - intros x [].
  - intros x _ [].
  - simpl. lia.
Qed.

(** On a graph whose adjacency lists hold only its keys, the search
    returns, as a set, exactly the barcodes reachable from the start node
    along directed edges. *)
Lemma breadth_first_search_spec graph s :
  closed_graph graph ->
  In s (keys graph) ->
  exists found,
    breadth_first_search hash_order s graph = Ok found /\
    NoDup found /\
    forall x, In x found <-> reach graph s x.
Proof.
  intros Hclosed Hs. unfold breadth_first_search.
  assert (Hinit : forall x, In x (set_update hash_order [] [s]) <-> x = s).
  { intros x. rewrite set_update_In. simpl. intuition. }
  apply bfs_loop_spec; try assumption.
  - now apply Hinit.
  - apply set_update_NoDup. constructor.
  - constructor.
  - intros x Hx. apply Hinit in Hx. subst. apply rt_refl.
  - intros x Hx. now right.
  - intros x y [].
  - intros x Hx. split; [assumption | intros []].
  - intros x [].
  - simpl. lia.
Qed.

(** *** Connected components *)

Lemma claims_app x cs cs' : claims x (cs ++ cs') = claims x cs + claims x cs'.
Proof. unfold claims. now rewrite filter_app, length_app. Qed.

Lemma claims_zero x cs : claims x cs = 0 <-> forall c, In c cs -> ~ In x c.
Proof.
  unfold claims. induction cs as [|c cs IH]; simpl.
  - split; [intros _ c [] | reflexivity].
  - destruct (mem x c) eqn:E; simpl.
    + apply mem_In in E. split; [discriminate | ].
      intros H. exfalso. apply (H c); auto.
    + apply mem_false in E. rewrite IH. split.
      * intros H c' [<-|Hc]; auto.
      * intros H c' Hc. apply H. now right.
Qed.

Lemma claims_pos x cs : 1 <= claims x cs <-> exists c, In c cs /\ In x c.
Proof.
  unfold claims. induction cs as [|c cs IH]; simpl.
  - split; [lia | intros [c [[] _]]].
  - destruct (mem x c) eqn:E; simpl.
    + apply mem_In in E. split; [ | lia]. intros _. exists c. auto.
    + apply mem_false in E. rewrite IH. split.
      * intros [c' [Hc Hx]]. exists c'. auto.
      * intros [c' [[<-|Hc] Hx]]; [contradiction | ]. exists c'. auto.
Qed.

Lemma sorted_by_count_perm counts l :
  incl l (keys counts) ->
  exists nodes, sorted_by_count counts l = Ok nodes /\ Permutation nodes l.
Proof.
  intros Hcov. unfold sorted_by_count. rewrite mapM_decorate by assumption.
  simpl. eexists. split; [reflexivity | ].
  rewrite (Permutation_map fst (sort_desc_perm _)), map_map. simpl.
  now rewrite map_id.
Qed.

Lemma foldM_prefix_inv {A S} (f : S -> A -> result S)
      (P : list A -> S -> Prop) (l : list A) (s : S) :
  P [] s ->
  (forall pre x s, P pre s -> In x l -> exists s', f s x = Ok s' /\ P (pre ++ [x]) s') ->
  exists s', foldM f l s = Ok s' /\ P l s'.
Proof.
  intros H0 Hstep.
  assert (G : forall todo pre s, P pre s -> incl todo l ->
              exists s', foldM f todo s = Ok s' /\ P (pre ++ todo) s').
  { induction todo as [|x todo IH]; intros pre s1 HP Hi; simpl.
    - exists s1. now rewrite app_nil_r.
    - destruct (Hstep pre x s1 HP (Hi x (or_introl eq_refl))) as (s2 & -> & HP2).
      simpl. destruct (IH (pre ++ [x]) s2 HP2) as (s3 & Hf & HP3).
      + intros y Hy. apply Hi. now right.
      + exists s3. split; [assumption | ]. now rewrite <- app_assoc in HP3. }
  apply (G l [] s H0). apply incl_refl.
Qed.

Lemma get_connected_components_spec umis graph counts :
  closed_graph graph ->
  incl (keys graph) (keys counts) ->
  exists components,
    get_connected_components hash_order umis graph counts = Ok components /\
    (forall x, In x (keys graph) -> exists c, In c components /\ In x c) /\
    (forall c, In c components -> component_of graph c) /\
    (symmetric_graph graph -> forall x, claims x components <= 1).
Proof.
  intros Hclosed Hcov. unfold get_connected_components.
  destruct (sorted_by_count_perm counts (keys graph) Hcov) as (nodes & -> & Hperm).
  simpl.
  set (step := fun (st : pyset * list pyset) node =>
                 let (found, components) := st in
                 if mem node found then Ok st
                 else component <- breadth_first_search hash_order node graph ;;
                      Ok (set_update hash_order found component,
                          components ++ [component])).
  set (P := fun (pre : list umi) (st : pyset * list pyset) =>
              (forall x, In x (fst st) <-> exists c, In c (snd st) /\ In x c) /\
              (forall c, In c (snd st) -> component_of graph c) /\
              (forall n, In n pre -> In n (fst st)) /\
              (symmetric_graph graph -> forall x, claims x (snd st) <= 1)).
  destruct (foldM_prefix_inv step P nodes ([], [])) as (st & Hfold & HP).
  - unfold P. simpl. repeat split.
    + intros [].
    + intros [c [[] _]].
    + intros c [].
    + intros n [].
    + intros _ x. unfold claims. simpl. lia.
  - intros pre n [found comps] (Ha & Hb & Hc & Hd) Hn. simpl in *.
    destruct (mem n found) eqn:E.
    + exists (found, comps). split; [reflexivity | ]. unfold P. simpl.
      repeat split; try assumption; try apply Ha.
      intros m Hm. apply in_app_or in Hm. destruct Hm as [Hm|[<-|[]]]; [auto | ].
      now apply mem_In.
    + apply mem_false in E.
      assert (Hnk : In n (keys graph)) by (eapply Permutation_in; eassumption).
      destruct (breadth_first_search_spec graph n Hclosed Hnk)
        as (comp & -> & Hnd & Hreach).
      simpl. eexists. split; [reflexivity | ]. unfold P. simpl.
      repeat split.
      * intros Hx. apply set_update_In in Hx. destruct Hx as [Hx|Hx].
        -- apply Ha in Hx. destruct Hx as [c [Hc1 Hc2]].
           exists c. split; [apply in_or_app; now left | assumption].
        -- exists comp. split; [apply in_or_app; right; now left | assumption].
      * intros [c [Hc1 Hc2]]. apply set_update_In.
        apply in_app_or in Hc1. destruct Hc1 as [Hc1|[<-|[]]]; [ | now right].
        left. apply Ha. eauto.
      * intros c Hc1. apply in_app_or in Hc1.
        destruct Hc1 as [Hc1|[<-|[]]]; [now apply Hb | ].
        exists n. auto.
      * intros m Hm. apply set_update_In. apply in_app_or in Hm.
        destruct Hm as [Hm|[<-|[]]]; [left; auto | right].
        apply Hreach. apply rt_refl.
      * intros Hsym x. rewrite claims_app.
        specialize (Hd Hsym x). unfold claims at 2. simpl.
        destruct (mem x comp) eqn:Ex; simpl; [ | lia].
        apply mem_In in Ex.
        assert (Hz : claims x comps = 0); [ | lia].
        apply claims_zero. intros c Hc1 Hc2.
        apply E. apply Ha. exists c. split; [assumption | ].
        destruct (Hb c Hc1) as (seed & _ & _ & Hrc).
        apply Hrc. eapply rt_trans; [apply Hrc, Hc2 | ].
        apply reach_sym; [assumption | ]. now apply Hreach.
  - rewrite Hfold. simpl. exists (snd st).
    destruct HP as (Ha & Hb & Hc & Hd).
    repeat split; try assumption.
    intros x Hx. apply Ha. apply Hc.
    eapply Permutation_in; [symmetry; eassumption | assumption].
Qed.

(** *** The graphs of the two policies *)

Lemma adj_graph_keys test umis x :
  In x (keys (adj_graph test umis)) <-> In x umis.
Proof.
  unfold adj_graph. now rewrite In_keys_dict_of_items, keys_map_key.
Qed.

Lemma adj_graph_lookup test umis a row :
  lookup (adj_graph test umis) a = Some row ->
  In a umis /\ row = filter (test a) umis.
Proof.
  intros H.
  assert (Ha : In a umis).
  { apply (adj_graph_keys test). apply lookup_In_keys. congruence. }
  split; [assumption | ]. rewrite lookup_adj in H by assumption. congruence.
Qed.

Lemma adj_graph_edge test umis a b :
  edge (adj_graph test umis) a b <-> In a umis /\ In b umis /\ test a b = true.
Proof.
  split.
  - intros (row & Hl & Hb). apply adj_graph_lookup in Hl.
    destruct Hl as [Ha ->]. apply filter_In in Hb. tauto.
  - intros (Ha & Hb & Ht). exists (filter (test a) umis).
    split; [now apply lookup_adj | apply filter_In; auto].
Qed.

Lemma adj_graph_closed test umis : closed_graph (adj_graph test umis).
Proof.
  intros a row b Hl Hb. apply adj_graph_keys.
  apply adj_graph_lookup in Hl. destruct Hl as [_ ->].
  apply filter_In in Hb. tauto.
Qed.

Lemma kmeans_graph_symmetric threshold umis :
  symmetric_graph (adj_graph (kmeans_edge threshold) umis).
Proof.
  intros a b. rewrite !adj_graph_edge. unfold kmeans_edge.
  rewrite (hamming_sym b a). tauto.
Qed.

Lemma policy_graph find_clusters cluster_method (bundle : dict (list R)) threshold :
  cluster_method = "directional" \/ cluster_method = "kmeans" ->
  exists f test,
    get_adj_list (__init__ hash_order find_clusters cluster_method) = Some f /\
    f (keys bundle) (counts_of bundle) threshold
    = Ok (adj_graph test (keys bundle)) /\
    (test = directional_edge (counts_of bundle) threshold /\
     cluster_method = "directional"
     \/ test = kmeans_edge threshold /\ cluster_method = "kmeans").
Proof.
  intros [->| ->]; simpl.
  - exists (_get_adj_list_directional_ hash_order),
           (directional_edge (counts_of bundle) threshold).
    split; [reflexivity | split; [ | now left]].
    apply get_adj_list_directional_eq. intros x Hx. now apply keys_counts_of.
  - exists (_get_adj_list_kmeans_ hash_order), (kmeans_edge threshold).
    split; [reflexivity | split; [reflexivity | now right]].
Qed.

Lemma policy_graph_components test (bundle : dict (list R)) :
  exists components,
    get_connected_components hash_order (keys bundle)
      (adj_graph test (keys bundle)) (counts_of bundle) = Ok components /\
    (forall x, In x (keys bundle) -> exists c, In c components /\ In x c) /\
    (forall c, In c components -> component_of (adj_graph test (keys bundle)) c) /\
    (symmetric_graph (adj_graph test (keys bundle)) ->
     forall x, claims x components <= 1).
Proof.
  destruct (get_connected_components_spec (keys bundle)
              (adj_graph test (keys bundle)) (counts_of bundle))
    as (components & Hc & Hcover & Hcomp & Hdisj).
  - apply adj_graph_closed.
  - intros x Hx. apply keys_counts_of. now apply adj_graph_keys in Hx.
  - exists components. repeat split; try assumption.
    intros x Hx. apply Hcover. now apply adj_graph_keys.
Qed.

(** C4, as the code has it: for every bundle and threshold, under either
    policy, the components returned by [get_connected_components] cover
    the barcode key set, and each component is, as a set, the barcodes
    reachable from one barcode of the bundle along the directed edges of
    the adjacency graph (B -> B2 makes B2 reachable from B whether or not
    B2 -> B exists).  Under the kmeans policy, whose adjacency is
    symmetric, no barcode is in two components. *)
Theorem connected_components_cover find_clusters cluster_method
        (bundle : dict (list R)) (threshold : Z) :
  cluster_method = "directional" \/ cluster_method = "kmeans" ->
  exists f adj_list components,
    get_adj_list (__init__ hash_order find_clusters cluster_method) = Some f /\
    f (keys bundle) (counts_of bundle) threshold = Ok adj_list /\
    get_connected_components hash_order (keys bundle) adj_list (counts_of bundle)
    = Ok components /\
    (forall b, In b (keys bundle) -> exists c, In c components /\ In b c) /\
    (forall c, In c components ->
               exists seed, In seed (keys bundle) /\
                            forall x, In x c <-> reach adj_list seed x) /\
    (cluster_method = "kmeans" -> forall x, claims x components <= 1).
Proof.
  intros Hm.
  destruct (policy_graph find_clusters cluster_method bundle threshold Hm)
    as (f & test & Hf & Hadj & Htest).
  destruct (policy_graph_components test bundle)
    as (components & Hc & Hcover & Hcomp & Hdisj).
  exists f, (adj_graph test (keys bundle)), components.
  repeat split; try assumption.
  - intros c Hin. destruct (Hcomp c Hin) as (seed & Hs & _ & Hr).
    exists seed. split; [now apply adj_graph_keys in Hs | assumption].
  - intros Hk. apply Hdisj.
    destruct Htest as [[_ ->]|[-> _]]; [discriminate | ].
    apply kmeans_graph_symmetric.
Qed.

(** *** Post-processing and reduction when nothing is to be done *)

Lemma positions_from_length i x cs :
  length (positions_from i x cs) = claims x cs.
Proof.
  unfold claims. revert i. induction cs as [|c cs IH]; intros i; simpl.
  - reflexivity.
  - destruct (mem x c); simpl; now rewrite IH.
Qed.

Lemma post_process_directional_unclaimed umis components adj_list counts :
  (forall x, In x umis -> claims x components <= 1) ->
  _post_process_components_directional_ umis components adj_list counts
  = Ok components.
Proof.
  unfold _post_process_components_directional_.
  induction umis as [|u umis IH]; intros H; simpl; [reflexivity | ].
  rewrite positions_from_length.
  destruct (Nat.ltb_spec 1 (claims u components)) as [Hlt|_].
  - specialize (H u (or_introl eq_refl)). lia.
  - simpl. apply IH. intros x Hx. apply H. now right.
Qed.

Lemma post_process_kmeans_singletons find_clusters umis components adj_list counts :
  (forall c, In c components -> length c = 1) ->
  _post_process_components_kmeans_ hash_order find_clusters
    umis components adj_list counts = Ok components.
Proof.
  unfold _post_process_components_kmeans_. intros H.
  match goal with |- foldM ?f _ _ = _ => set (step := f) end.
  assert (G : forall acc, foldM step components acc = Ok (acc ++ components)).
  { induction components as [|c cs IH]; intros acc; simpl.
    - now rewrite app_nil_r.
    - unfold step at 1. cbv beta.
      rewrite (H c (or_introl eq_refl)). simpl.
      rewrite IH by (intros; apply H; now right).
      now rewrite <- app_assoc. }
  apply G.
Qed.

Lemma reduce_clusters_singletons (bundle : dict (list R)) clusters counts :
  (forall c, In c clusters -> length c <= 1) ->
  reduce_clusters bundle clusters counts = Ok [].
Proof.
  unfold reduce_clusters. generalize (@nil (R * umi)) as acc.
  induction clusters as [|c cs IH]; intros acc H; simpl; [reflexivity | ].
  destruct (Nat.ltb_spec 1 (length c)) as [Hlt|_].
  - specialize (H c (or_introl eq_refl)). lia.
  - simpl. apply IH. intros; apply H; now right.
Qed.

Lemma singleton_set (c : pyset) (s : umi) :
  NoDup c -> (forall x, In x c <-> x = s) -> c = [s].
Proof.
  intros Hnd H. destruct c as [|a c'].
  - exfalso. apply (proj2 (H s) eq_refl).
  - assert (a = s) by (apply H; now left). subst a.
    destruct c' as [|b c'']; [reflexivity | ].
    assert (b = s) by (apply H; right; now left). subst b.
    inversion Hnd as [|? ? Hn _]. exfalso. apply Hn. now left.
Qed.

(** *** Threshold 0 *)

Lemma threshold_zero_test (bundle : dict (list R)) test a b :
  uniform_length bundle ->
  test = directional_edge (counts_of bundle) 0 \/ test = kmeans_edge 0 ->
  In a (keys bundle) -> In b (keys bundle) ->
  test a b = true -> b = a.
Proof.
  intros Hu Htest Ha Hb Ht.
  assert (Hh : hamming a b = 0).
  { destruct Htest as [->| ->].
    - unfold directional_edge in Ht. apply andb_true_iff in Ht.
      destruct Ht as [Ht _]. apply Z.eqb_eq in Ht. lia.
    - unfold kmeans_edge in Ht. apply Z.eqb_eq in Ht. lia. }
  symmetry. apply hamming_zero_eq; [apply Hu | ]; assumption.
Qed.

Lemma threshold_zero_edge (bundle : dict (list R)) test a b :
  uniform_length bundle ->
  test = directional_edge (counts_of bundle) 0 \/ test = kmeans_edge 0 ->
  edge (adj_graph test (keys bundle)) a b -> b = a.
Proof.
  intros Hu Htest He. apply adj_graph_edge in He.
  destruct He as (Ha & Hb & Ht). eapply threshold_zero_test; eassumption.
Qed.

Lemma threshold_zero_reach (bundle : dict (list R)) test a b :
  uniform_length bundle ->
  test = directional_edge (counts_of bundle) 0 \/ test = kmeans_edge 0 ->
  reach (adj_graph test (keys bundle)) a b -> b = a.
Proof.
  intros Hu Htest Hr. induction Hr as [x y He| |x y z _ IH1 _ IH2].
  - eapply threshold_zero_edge; eassumption.
  - reflexivity.
  - congruence.
Qed.

(** C8, as the code has it: for every non-empty bundle of uniform barcode
    length, under either policy, threshold 0 makes no two distinct
    barcodes adjacent, and the engine returns the empty reassignment
    list. *)
Theorem threshold_zero_no_reassignment find_clusters cluster_method
        (bundle : dict (list R)) :
  cluster_method = "directional" \/ cluster_method = "kmeans" ->
  bundle <> [] ->
  uniform_length bundle ->
  (exists f adj_list,
      get_adj_list (__init__ hash_order find_clusters cluster_method) = Some f /\
      f (keys bundle) (counts_of bundle) 0%Z = Ok adj_list /\
      forall b b2, edge adj_list b b2 -> b2 = b) /\
  __call__ hash_order (__init__ hash_order find_clusters cluster_method) bundle 0%Z
  = Ok [].
Proof.
  intros Hm Hne Hu.
  destruct (policy_graph find_clusters cluster_method bundle 0%Z Hm)
    as (f & test & Hf & Hadj & Htest).
  assert (Htest' : test = directional_edge (counts_of bundle) 0 \/ test = kmeans_edge 0)
    by (destruct Htest as [[-> _]|[-> _]]; auto).
  split.
  - exists f, (adj_graph test (keys bundle)).
    repeat split; try assumption.
    intros b b2. now apply threshold_zero_edge.
  - destruct (policy_graph_components test bundle)
      as (components & Hc & _ & Hcomp & Hdisj).
    assert (Hsingle : forall c, In c components -> length c = 1).
    { intros c Hin. destruct (Hcomp c Hin) as (seed & _ & Hnd & Hr).
      rewrite (singleton_set c seed Hnd); [reflexivity | ].
      intros x. rewrite Hr. split.
      - now apply threshold_zero_reach.
      - intros ->. apply rt_refl. }
    assert (Hsym : symmetric_graph (adj_graph test (keys bundle))).
    { intros a b He.
      pose proof (threshold_zero_edge bundle test a b Hu Htest' He) as E.
      subst b. assumption. }
    rewrite call_uniform by assumption. rewrite Hf. simpl.
    rewrite Hadj. simpl. rewrite Hc. simpl.
    assert (Hred : reduce_clusters bundle components (counts_of bundle) = Ok []).
    { apply reduce_clusters_singletons. intros c Hin.
      rewrite (Hsingle c Hin). lia. }
    destruct Hm as [->| ->]; simpl.
    + rewrite post_process_directional_unclaimed by (intros; now apply Hdisj).
      simpl. now rewrite Hred.
    + rewrite post_process_kmeans_singletons by assumption.
      simpl. now rewrite Hred.
Qed.

(** *** The kmeans post-processor *)

Lemma mapM_getitem_pick {V} (d : dict V) (cluster : list umi) :
  incl cluster (keys d) ->
  mapM (fun umi => v <- getitem d umi ;; Ok (umi, v)) cluster
  = Ok (pick_items d cluster).
Proof.
  induction cluster as [|x l IH]; simpl; intros Hi; [reflexivity | ].
  assert (Hx : lookup d x <> None) by (apply lookup_In_keys, Hi; now left).
  destruct (lookup d x) as [v|] eqn:E; [ | congruence].
  rewrite (proj2 (getitem_Ok d x v) E). simpl.
  rewrite IH by (intros y Hy; apply Hi; now right). reflexivity.
Qed.

Lemma fold_left_append_repeat {A B} (c : A) (l : list B) (acc : list A) :
  fold_left (fun acc _ => acc ++ [c]) l acc = acc ++ repeat c (length l).
Proof.
  revert acc. induction l as [|x l IH]; intros acc; simpl.
  - now rewrite app_nil_r.
  - rewrite IH, <- app_assoc. reflexivity.
Qed.

(** Under the kmeans policy a component of one barcode is passed through,
    and a component of several barcodes is put in the output whole, once
    per sub-cluster that [find_clusters] returns for it. *)
Lemma post_process_kmeans_repeats find_clusters umis components adj_list counts :
  (forall c, In c components -> incl c (keys counts) /\ incl c (keys adj_list)) ->
  _post_process_components_kmeans_ hash_order find_clusters
    umis components adj_list counts
  = Ok (flat_map
          (fun c => if length c =? 1 then [c]
                    else repeat c (length (kmeans_subclusters find_clusters
                                             adj_list counts c)))
          components).
Proof.
  unfold _post_process_components_kmeans_. intros H.
  match goal with |- foldM ?f _ _ = _ => set (step := f) end.
  match goal with |- _ = Ok (flat_map ?g _) => set (out := g) end.
  assert (G : forall acc, foldM step components acc
                          = Ok (acc ++ flat_map out components)).
  { induction components as [|c cs IH]; intros acc; simpl.
    - now rewrite app_nil_r.
    - unfold step at 1, out at 1. cbv beta.
      destruct (H c (or_introl eq_refl)) as [Hc Ha].
      destruct (length c =? 1).
      + simpl. rewrite IH by (intros; apply H; now right).
        now rewrite <- app_assoc.
      + rewrite (mapM_getitem_pick counts c Hc). simpl.
        rewrite (mapM_getitem_pick adj_list c Ha). simpl.
        rewrite fold_left_append_repeat.
        rewrite IH by (intros; apply H; now right).
        rewrite <- app_assoc. reflexivity. }
  apply G.
Qed.

(** *** The directional post-processor *)

Lemma get_best_member (cluster : pyset) (counts : dict nat) :
  cluster <> [] ->
  incl cluster (keys counts) ->
  exists b, get_best cluster counts = Ok b /\ In b cluster.
Proof.
  intros Hne Hcov. unfold get_best.
  destruct (length cluster =? 1).
  - destruct cluster as [|x l]; [congruence | ]. exists x. split; [reflexivity | now left].
  - destruct (sorted_by_count_perm counts cluster Hcov) as (nodes & -> & Hperm).
    simpl. destruct nodes as [|x nodes].
    + apply Permutation_nil in Hperm. congruence.
    + exists x. split; [reflexivity | ].
      eapply Permutation_in; [exact Hperm | now left].
Qed.

Lemma drop_In x s y : In y (drop x s) <-> In y s /\ y <> x.
Proof.
  unfold drop. rewrite filter_In, negb_true_iff. split.
  - intros [H1 H2]. split; [assumption | ]. intros ->.
    now rewrite String.eqb_refl in H2.
  - intros [H1 H2]. split; [assumption | ]. now apply String.eqb_neq.
Qed.

Lemma set_remove_ok s x : In x s -> set_remove s x = Ok (drop x s).
Proof.
  intros H. unfold set_remove. apply mem_In in H. now rewrite H.
Qed.

Lemma mem_drop_same x s : mem x (drop x s) = false.
Proof. apply mem_false. rewrite drop_In. tauto. Qed.

Lemma mem_drop_other x y s : y <> x -> mem y (drop x s) = mem y s.
Proof.
  intros Hn. destruct (mem y s) eqn:E.
  - apply mem_In. apply mem_In in E. apply drop_In. auto.
  - apply mem_false. apply mem_false in E. rewrite drop_In. tauto.
Qed.

Lemma index_set_first cs s p c :
  nth_error cs p = Some c ->
  set_eq c s = true ->
  exists j t, index_set cs s = Ok j /\ j <= p /\
              nth_error cs j = Some t /\ set_eq t s = true.
Proof.
  revert p. induction cs as [|c0 cs IH]; intros p Hp He.
  - destruct p; discriminate.
  - simpl. destruct (set_eq c0 s) eqn:E0.
    + exists 0, c0. repeat split; [lia | assumption].
    + destruct p as [|p]; simpl in Hp.
      * congruence.
      * destruct (IH p Hp He) as (j & t & -> & Hj & Ht & Hs).
        exists (S j), t. simpl. repeat split; [lia | assumption | assumption].
Qed.

Lemma nth_error_assign_other (cs : list pyset) j c p :
  p <> j -> nth_error (assign cs j c) p = nth_error cs p.
Proof.
  revert j p. induction cs as [|c0 cs IH]; intros j p Hn; simpl.
  - reflexivity.
  - destruct j as [|j]; destruct p as [|p]; simpl; try reflexivity.
    + congruence.
    + apply IH. congruence.
Qed.

Lemma In_assign cs j c x : In x (assign cs j c) -> x = c \/ In x cs.
Proof.
  revert j. induction cs as [|c0 cs IH]; intros j; simpl; [tauto | ].
  destruct j as [|j]; simpl.
  - intros [<-|H]; auto.
  - intros [<-|H]; [auto | ]. destruct (IH j H); auto.
Qed.

Lemma claims_assign_drop_same u (cs : list pyset) j (t : pyset) :
  nth_error cs j = Some t -> In u t ->
  S (claims u (assign cs j (drop u t))) = claims u cs.
Proof.
  unfold claims. revert j. induction cs as [|c0 cs IH]; intros j Hj Hu.
  - destruct j; discriminate.
  - destruct j as [|j]; simpl in *.
    + injection Hj as ->. rewrite mem_drop_same.
      apply mem_In in Hu. now rewrite Hu.
    + destruct (mem u c0); simpl; rewrite (IH j Hj Hu); reflexivity.
Qed.

Lemma claims_assign_drop_other u v (cs : list pyset) j (t : pyset) :
  v <> u -> nth_error cs j = Some t ->
  claims v (assign cs j (drop u t)) = claims v cs.
Proof.
  unfold claims. intros Hn. revert j. induction cs as [|c0 cs IH]; intros j Hj.
  - destruct j; discriminate.
  - destruct j as [|j]; simpl in *.
    + injection Hj as ->. rewrite mem_drop_other by assumption.
      destruct (mem v t); reflexivity.
    + destruct (mem v c0); simpl; rewrite (IH j Hj); reflexivity.
Qed.

Lemma remove_from_parent_spec u (cs : list pyset) p (c : pyset) :
  nth_error cs p = Some c -> In u c ->
  exists j t, j <= p /\ nth_error cs j = Some t /\ In u t /\
              remove_from_parent u cs p = Ok (assign cs j (drop u t)).
Proof.
  intros Hp Hu.
  destruct (index_set_first cs c p c Hp (set_eq_refl c))
    as (j & t & Hi & Hj & Ht & He).
  assert (Hut : In u t) by (apply (proj1 (set_eq_iff t c) He); assumption).
  exists j, t. repeat split; try assumption.
  unfold remove_from_parent, deref. rewrite Hp. simpl.
  rewrite Hi. simpl. rewrite Ht. simpl.
  rewrite set_remove_ok by assumption. reflexivity.
Qed.

Lemma all_in_assign_drop K u (cs : list pyset) j (t : pyset) :
  all_in K cs -> nth_error cs j = Some t -> all_in K (assign cs j (drop u t)).
Proof.
  intros HK Hj c Hc. apply In_assign in Hc. destruct Hc as [->|Hc].
  - intros x Hx. apply drop_In in Hx. destruct Hx as [Hx _].
    apply (HK t); [eapply nth_error_In; eassumption | assumption].
  - now apply HK.
Qed.

Lemma increasing_weaken lo lo' l : lo' <= lo -> increasing lo l -> increasing lo' l.
Proof.
  destruct l as [|p l]; simpl; [tauto | ]. intros H [H1 H2]. split; [lia | assumption].
Qed.

Lemma increasing_bound lo l x : increasing lo l -> In x l -> lo <= x.
Proof.
  revert lo. induction l as [|p l IH]; intros lo; simpl; [tauto | ].
  intros [H1 H2] [<-|Hx]; [assumption | ].
  specialize (IH (S p) H2 Hx). lia.
Qed.

Lemma positions_from_spec i u (cs : list pyset) :
  increasing i (positions_from i u cs) /\
  forall p, In p (positions_from i u cs) ->
            i <= p /\ exists c, nth_error cs (p - i) = Some c /\ In u c.
Proof.
  revert i. induction cs as [|c cs IH]; intros i; simpl.
  - split; [exact I | intros p []].
  - destruct (IH (S i)) as [Hinc Hpos].
    assert (Hrest : forall p, In p (positions_from (S i) u cs) ->
                      i <= p /\ exists c', nth_error (c :: cs) (p - i) = Some c' /\ In u c').
    { intros p Hp. destruct (Hpos p Hp) as (Hle & c' & Hn & Hu).
      split; [lia | ]. exists c'. split; [ | assumption].
      replace (p - i) with (S (p - S i)) by lia. exact Hn. }
    destruct (mem u c) eqn:E.
    + split; [simpl; split; [lia | assumption] | ].
      intros p [<-|Hp]; [ | now apply Hrest].
      split; [lia | ]. exists c. rewrite Nat.sub_diag. split; [reflexivity | ].
      now apply mem_In.
    + split; [now apply (increasing_weaken (S i)); [lia | ] | exact Hrest].
Qed.

Lemma mapM_success {A B} (f : A -> result B) (l : list A) :
  (forall x, In x l -> exists y, f x = Ok y) ->
  exists ys, mapM f l = Ok ys /\ length ys = length l.
Proof.
  induction l as [|x l IH]; simpl; intros H.
  - exists []. auto.
  - destruct (H x (or_introl eq_refl)) as (y & ->).
    destruct IH as (ys & -> & Hlen); [intros; apply H; now right | ].
    exists (y :: ys). simpl. auto.
Qed.

Lemma py_max_str_In (l : list string) :
  l <> [] -> exists best, py_max_str l = Ok best /\ In best l.
Proof.
  destruct l as [|x xs]; [congruence | intros _].
  eexists. split; [reflexivity | ].
  revert x. induction xs as [|y ys IH]; intros x; simpl; [now left | ].
  destruct (String.ltb x y).
  - destruct (IH y) as [<-|H]; auto.
  - destruct (IH x) as [<-|H]; auto.
Qed.

Lemma index_str_In (l : list string) (x : string) :
  In x l -> exists r, index_str l x = Ok r /\ r < length l.
Proof.
  induction l as [|y l IH]; simpl; [tauto | ].
  intros H. destruct (String.eqb_spec y x) as [->|Hn].
  - exists 0. split; [reflexivity | lia].
  - destruct H as [?|H]; [contradiction | ].
    destruct (IH H) as (r & -> & Hr). exists (S r). split; [reflexivity | lia].
Qed.

Lemma map_snd_combine {A B} (l : list A) (l' : list B) :
  length l = length l' -> map snd (combine l l') = l'.
Proof.
  revert l'. induction l as [|x l IH]; intros [|y l']; simpl; try discriminate.
  - reflexivity.
  - intros [= H]. now rewrite IH.
Qed.

Lemma count_others {B} a n (ps : list B) r :
  length ps = n ->
  length (filter (fun ip : nat * B => negb (fst ip =? r)) (combine (seq a n) ps))
  = if (a <=? r) && (r <? a + n) then n - 1 else n.
Proof.
  revert a ps. induction n as [|n IH]; intros a ps Hlen.
  - simpl. now destruct ((a <=? r) && (r <? a + 0)).
  - destruct ps as [|p ps]; [discriminate | ]. simpl in Hlen.
    injection Hlen as Hlen. specialize (IH (S a) ps Hlen).
    cbn [seq combine filter fst].
    destruct (Nat.eqb_spec a r) as [->|Hn]; cbn [negb length]; rewrite IH.
    + destruct (Nat.leb_spec (S r) r); [lia | ]. cbn [andb].
      destruct (Nat.leb_spec r r); [ | lia].
      destruct (Nat.ltb_spec r (r + S n)); [ | lia]. cbn [andb]. lia.
    + destruct (Nat.leb_spec (S a) r); destruct (Nat.leb_spec a r); try lia;
        cbn [andb];
        destruct (Nat.ltb_spec r (S a + n)); destruct (Nat.ltb_spec r (a + S n));
        try lia.
Qed.

(** The inner loop removes the barcode from one component that holds it at
    every turn but the one of [index_rep]. *)
Lemma resolve_loop u index_rep todo :
  forall lo (cs : list pyset),
    increasing lo (map snd todo) ->
    (forall ip, In ip todo -> exists c, nth_error cs (snd ip) = Some c /\ In u c) ->
    exists cs',
      foldM (fun components (ip : nat * nat) =>
               let (i, p) := ip in
               if i =? index_rep then Ok components
               else remove_from_parent u components p) todo cs = Ok cs' /\
      claims u cs' + length (filter (fun ip => negb (fst ip =? index_rep)) todo)
      = claims u cs /\
      (forall v, v <> u -> claims v cs' = claims v cs) /\
      (forall K, all_in K cs -> all_in K cs').
Proof.
  induction todo as [|[i p] todo IH]; intros lo cs Hinc Hin; simpl.
  - exists cs. repeat split; auto.
  - simpl in Hinc. destruct Hinc as [Hlo Hinc].
    destruct (i =? index_rep); simpl.
    + destruct (IH (S p) cs Hinc) as (cs' & Hf & Hc & Hv & HK).
      { intros ip Hip. apply Hin. now right. }
      exists cs'. auto.
    + destruct (Hin (i, p) (or_introl eq_refl)) as (c & Hp & Hu). simpl in Hp.
      destruct (remove_from_parent_spec u cs p c Hp Hu) as (j & t & Hj & Ht & Hut & ->).
      simpl.
      destruct (IH (S p) (assign cs j (drop u t)) Hinc) as (cs' & Hf & Hc & Hv & HK).
      { intros ip Hip. destruct (Hin ip (or_intror Hip)) as (c' & Hc' & Hu').
        exists c'. split; [ | assumption].
        rewrite nth_error_assign_other; [assumption | ].
        assert (S p <= snd ip).
        { apply (increasing_bound (S p) (map snd todo)); [assumption | ].
          now apply in_map. }
        lia. }
      exists cs'. split; [assumption | ]. repeat split.
      * rewrite <- (claims_assign_drop_same u cs j t Ht Hut). lia.
      * intros v Hn. rewrite (Hv v Hn). now apply claims_assign_drop_other.
      * intros K HKcs. apply HK. now apply all_in_assign_drop.
Qed.

Lemma post_process_directional_fold umis components adj_list counts :
  _post_process_components_directional_ umis components adj_list counts
  = foldM (directional_body counts) umis components.
Proof. reflexivity. Qed.

Lemma directional_body_spec counts (cs : list pyset) u :
  all_in (keys counts) cs ->
  exists cs',
    directional_body counts cs u = Ok cs' /\
    claims u cs' <= 1 /\
    (1 <= claims u cs -> 1 <= claims u cs') /\
    (forall v, v <> u -> claims v cs' = claims v cs) /\
    all_in (keys counts) cs'.
Proof.
  intros HK. unfold directional_body.
  destruct (positions_from_spec 0 u cs) as [Hinc Hpos].
  rewrite positions_from_length.
  destruct (Nat.ltb_spec 1 (claims u cs)) as [Hlt|Hge].
  2:{ exists cs. repeat split; auto. }
  destruct (mapM_success
              (fun p => cluster <- deref cs p ;; get_best cluster counts)
              (positions_from 0 u cs)) as (reps & -> & Hlen).
  { intros p Hp. destruct (Hpos p Hp) as (_ & c & Hn & Hu).
    rewrite Nat.sub_0_r in Hn. unfold deref. rewrite Hn. simpl.
    destruct (get_best_member c counts) as (b & Hb & _).
    - intros ->. destruct Hu.
    - apply HK. eapply nth_error_In; eassumption.
    - eauto. }
  rewrite positions_from_length in Hlen. simpl.
  destruct (py_max_str_In reps) as (best & -> & Hbest).
  { intros ->. simpl in Hlen. lia. }
  simpl. destruct (index_str_In reps best Hbest) as (r & -> & Hr). simpl.
  destruct (resolve_loop u r (combine (seq 0 (length reps)) (positions_from 0 u cs)) 0 cs)
    as (cs' & -> & Hc & Hv & HK').
  - rewrite map_snd_combine; [assumption | ].
    now rewrite length_seq, positions_from_length.
  - intros [i p] Hip. apply in_combine_r in Hip. simpl.
    destruct (Hpos p Hip) as (_ & c & Hn & Hu). rewrite Nat.sub_0_r in Hn. eauto.
  - rewrite count_others in Hc by now rewrite positions_from_length.
    assert (Hb : (0 <=? r) && (r <? 0 + length reps) = true).
    { apply andb_true_iff. split; [apply Nat.leb_le | apply Nat.ltb_lt]; lia. }
    rewrite Hb in Hc.
    exists cs'. split; [reflexivity | ].
    split; [lia | split; [lia | split; [exact Hv | now apply HK']]].
Qed.

(** Directional post-processing returns, and leaves every claimed barcode
    in exactly one component. *)
Lemma post_process_directional_spec umis (components : list pyset) adj_list counts :
  all_in (keys counts) components ->
  exists clusters,
    _post_process_components_directional_ umis components adj_list counts
    = Ok clusters /\
    (forall x, In x umis -> 1 <= claims x components -> claims x clusters = 1) /\
    (forall x, ~ In x umis -> claims x clusters = claims x components) /\
    all_in (keys counts) clusters.
Proof.
  intros HK. rewrite post_process_directional_fold.
  set (P := fun (pre : list umi) (cs : list pyset) =>
              all_in (keys counts) cs /\
              (forall x, 1 <= claims x components -> 1 <= claims x cs) /\
              (forall x, In x pre -> claims x cs <= 1) /\
              (forall x, ~ In x pre -> claims x cs = claims x components)).
  destruct (foldM_prefix_inv (directional_body counts) P umis components)
    as (clusters & Hf & HK' & Hge & Hle & Hun).
  - unfold P. repeat split; auto. intros x [].
  - intros pre u cs (HKcs & Hge & Hle & Hun) Hu.
    destruct (directional_body_spec counts cs u HKcs)
      as (cs' & -> & H1 & H2 & H3 & H4).
    exists cs'. split; [reflexivity | ]. unfold P. repeat split.
    + assumption.
    + intros x Hx. destruct (string_dec x u) as [->|Hn]; [auto | ].
      rewrite (H3 x Hn). auto.
    + intros x Hx. destruct (string_dec x u) as [->|Hn]; [assumption | ].
      rewrite (H3 x Hn). apply Hle. apply in_app_or in Hx.
      destruct Hx as [Hx|[Hx|[]]]; [assumption | congruence].
    + intros x Hx. rewrite H3.
      * apply Hun. intros Hp. apply Hx. apply in_or_app. now left.
      * intros ->. apply Hx. apply in_or_app. right. now left.
  - exists clusters. split; [assumption | ]. repeat split.
    + intros x Hx Hc. specialize (Hge x Hc). specialize (Hle x Hx). lia.
    + assumption.
    + assumption.
Qed.

(** *** The whole pipeline *)

Lemma components_in_keys test (bundle : dict (list R)) components :
  (forall c, In c components -> component_of (adj_graph test (keys bundle)) c) ->
  all_in (keys (counts_of bundle)) components /\ all_in (keys bundle) components.
Proof.
  intros Hcomp.
  assert (H : all_in (keys bundle) components).
  { intros c Hc x Hx. destruct (Hcomp c Hc) as (seed & Hs & _ & Hr).
    apply (adj_graph_keys test). eapply reach_keys.
    - apply adj_graph_closed.
    - exact Hs.
    - now apply Hr. }
  split; [ | exact H].
  intros c Hc x Hx. apply keys_counts_of. now apply (H c).
Qed.

(** X17: under the directional policy, for every bundle and threshold, the
    three stages return, and after post-processing every barcode of the
    bundle is in exactly one cluster. *)
Lemma directional_partition (bundle : dict (list R)) (threshold : Z) :
  exists adj_list components clusters,
    _get_adj_list_directional_ hash_order (keys bundle) (counts_of bundle) threshold
    = Ok adj_list /\
    get_connected_components hash_order (keys bundle) adj_list (counts_of bundle)
    = Ok components /\
    _post_process_components_directional_ (keys bundle) components adj_list
      (counts_of bundle) = Ok clusters /\
    (forall b, In b (keys bundle) -> claims b clusters = 1) /\
    all_in (keys bundle) clusters.
Proof.
  set (test := directional_edge (counts_of bundle) threshold).
  destruct (policy_graph_components test bundle)
    as (components & Hc & Hcover & Hcomp & _).
  destruct (components_in_keys test bundle components Hcomp) as [HK HKb].
  destruct (post_process_directional_spec (keys bundle) components
              (adj_graph test (keys bundle)) (counts_of bundle) HK)
    as (clusters & Hpp & Hone & _ & HK').
  exists (adj_graph test (keys bundle)), components, clusters.
  repeat split; try assumption.
  - apply get_adj_list_directional_eq. intros x Hx. now apply keys_counts_of.
  - intros b Hb. apply Hone; [assumption | ]. apply claims_pos. now apply Hcover.
  - intros c Hc' x Hx. apply keys_counts_of. now apply (HK' c).
Qed.

Lemma reduce_clusters_returns (bundle : dict (list R)) clusters counts :
  all_in (keys bundle) clusters ->
  all_in (keys counts) clusters ->
  exists reads, reduce_clusters bundle clusters counts = Ok reads.
Proof.
  intros Hb Hc. unfold reduce_clusters.
  match goal with |- exists _, foldM ?f _ _ = _ => set (step := f) end.
  destruct (foldM_prefix_inv step (fun _ _ => True) clusters []) as (reads & Hf & _);
    [exact I | | eauto].
  intros pre cluster reads _ Hin. unfold step.
  destruct (Nat.ltb_spec 1 (length cluster)) as [Hlt|_]; [ | eauto].
  destruct (get_best_member cluster counts) as (parent & -> & _).
  { intros ->. simpl in Hlt. lia. }
  { now apply Hc. }
  simpl.
  destruct (mapM_success
              (fun umi => rs <- getitem bundle umi ;;
                          Ok (map (fun read => (read, parent)) rs))
              (filter (fun umi => negb (String.eqb umi parent)) cluster))
    as (rows & -> & _).
  - intros x Hx. apply filter_In in Hx. destruct Hx as [Hx _].
    assert (Hk : lookup bundle x <> None) by (apply lookup_In_keys; now apply (Hb cluster)).
    unfold getitem. destruct (lookup bundle x); [simpl; eauto | congruence].
  - simpl. eauto.
Qed.

(** X19: with either policy the engine returns a reassignment list on every
    non-empty bundle of uniform barcode length, whatever [find_clusters]
    returns. *)
Lemma call_returns find_clusters cluster_method (bundle : dict (list R)) threshold :
  cluster_method = "directional" \/ cluster_method = "kmeans" ->
  bundle <> [] ->
  uniform_length bundle ->
  exists reads,
    __call__ hash_order (__init__ hash_order find_clusters cluster_method)
             bundle threshold = Ok reads.
Proof.
  intros Hm Hne Hu. rewrite call_uniform by assumption.
  destruct (policy_graph find_clusters cluster_method bundle threshold Hm)
    as (f & test & Hf & Hadj & Htest).
  destruct (policy_graph_components test bundle)
    as (components & Hc & _ & Hcomp & _).
  destruct (components_in_keys test bundle components Hcomp) as [HK HKb].
  rewrite Hf. simpl. rewrite Hadj. simpl. rewrite Hc. simpl.
  destruct Hm as [->| ->]; simpl.
  - destruct (post_process_directional_spec (keys bundle) components
                (adj_graph test (keys bundle)) (counts_of bundle) HK)
      as (clusters & -> & _ & _ & HK').
    simpl.
    destruct (reduce_clusters_returns bundle clusters (counts_of bundle))
      as (reads & ->).
    + intros c Hin x Hx. apply keys_counts_of. now apply (HK' c).
    + assumption.
    + simpl. eauto.
  - rewrite post_process_kmeans_repeats.
    2:{ intros c Hin. split; [now apply HK | ].
        intros x Hx. apply adj_graph_keys. now apply (HKb c). }
    simpl.
    match goal with
    | |- exists _, bind (reduce_clusters _ ?cl _) _ = _ => set (clusters := cl)
    end.
    assert (Hsub : forall c, In c clusters -> In c components).
    { intros c Hin. unfold clusters in Hin. apply in_flat_map in Hin.
      destruct Hin as (c0 & Hc0 & Hin).
      destruct (length c0 =? 1).
      - destruct Hin as [<-|[]]. assumption.
      - apply repeat_spec in Hin. now subst. }
    destruct (reduce_clusters_returns bundle clusters (counts_of bundle))
      as (reads & ->).
    + intros c Hin. apply HKb. now apply Hsub.
    + intros c Hin. apply HK. now apply Hsub.
    + simpl. eauto.
Qed.

(** X18: under the kmeans policy, when [find_clusters] returns one sub-cluster
    for whatever it is given, the three stages return and every barcode of
    the bundle is in exactly one cluster. *)
Lemma kmeans_partition_unsplit find_clusters (bundle : dict (list R)) (threshold : Z) :
  (forall adj_list counts k, length (find_clusters adj_list counts k) = 1) ->
  exists adj_list components,
    _get_adj_list_kmeans_ hash_order (keys bundle) (counts_of bundle) threshold
    = Ok adj_list /\
    get_connected_components hash_order (keys bundle) adj_list (counts_of bundle)
    = Ok components /\
    _post_process_components_kmeans_ hash_order find_clusters (keys bundle)
      components adj_list (counts_of bundle) = Ok components /\
    forall b, In b (keys bundle) -> claims b components = 1.
Proof.
  intros Hone. set (test := kmeans_edge threshold).
  destruct (policy_graph_components test bundle)
    as (components & Hc & Hcover & Hcomp & Hdisj).
  destruct (components_in_keys test bundle components Hcomp) as [HK HKb].
  exists (adj_graph test (keys bundle)), components.
  split; [reflexivity | split; [exact Hc | split]].
  - rewrite post_process_kmeans_repeats.
    + f_equal. clear Hc Hcover Hcomp Hdisj HK HKb.
      induction components as [|c cs IH]; simpl; [reflexivity | ].
      rewrite IH. unfold kmeans_subclusters. rewrite Hone.
      destruct (length c =? 1); reflexivity.
    + intros c Hin. split; [now apply HK | ].
      intros x Hx. apply adj_graph_keys. now apply (HKb c).
  - intros b Hb.
    assert (H1 : 1 <= claims b components) by (apply claims_pos; now apply Hcover).
    assert (H2 : claims b components <= 1)
      by (apply Hdisj; apply kmeans_graph_symmetric).
    lia.
Qed.

(** *** Which barcodes become seeds *)

Lemma Forall2_snoc {A B} (P : A -> B -> Prop) l l' x y :
  Forall2 P l l' -> P x y -> Forall2 P (l ++ [x]) (l' ++ [y]).
Proof.
  intros H Hxy. apply Forall2_app; [assumption | ]. constructor; [assumption | constructor].
Qed.

Lemma Forall2_In_l {A B} (P : A -> B -> Prop) l l' x :
  Forall2 P l l' -> In x l -> exists y, In y l' /\ P x y.
Proof.
  induction 1 as [|a b l l' Hab _ IH]; simpl; [tauto | ].
  intros [<-|Hx]; [eauto | ]. destruct (IH Hx) as (y & Hy & Hp). eauto.
Qed.

Lemma Forall2_In_r {A B} (P : A -> B -> Prop) l l' y :
  Forall2 P l l' -> In y l' -> exists x, In x l /\ P x y.
Proof.
  induction 1 as [|a b l l' Hab _ IH]; simpl; [tauto | ].
  intros [<-|Hy]; [eauto | ]. destruct (IH Hy) as (x & Hx & Hp). eauto.
Qed.

Lemma components_fold graph :
  closed_graph graph ->
  forall nodes found comps chosen,
    incl nodes (keys graph) ->
    Forall2 (component_from graph) chosen comps ->
    (forall x, In x found <-> exists c, In c comps /\ In x c) ->
    exists st seeds,
      foldM (fun (st : pyset * list pyset) node =>
               let (found, components) := st in
               if mem node found then Ok st
               else
                 component <- breadth_first_search hash_order node graph ;;
                 Ok (set_update hash_order found component,
                     components ++ [component]))
            nodes (found, comps) = Ok st /\
      picks graph nodes chosen seeds /\
      Forall2 (component_from graph) (chosen ++ seeds) (snd st).
Proof.
  intros Hclosed.
  induction nodes as [|n nodes IH]; intros found comps chosen Hincl Hcomps Hfound.
  - exists (found, comps), []. simpl. rewrite app_nil_r.
    repeat split; [constructor | assumption].
  - assert (Hreached : In n found <-> exists s, In s chosen /\ reach graph s n).
    { rewrite Hfound. split.
      - intros (c & Hc & Hn). destruct (Forall2_In_r _ _ _ _ Hcomps Hc) as (s & Hs & _ & Hr).
        exists s. split; [assumption | now apply Hr].
      - intros (s & Hs & Hr). destruct (Forall2_In_l _ _ _ _ Hcomps Hs) as (c & Hc & _ & Hm).
        exists c. split; [assumption | now apply Hm]. }
    simpl. destruct (mem n found) eqn:E.
    + apply mem_In in E. simpl.
      destruct (IH found comps chosen) as (st & seeds & Hf & Hp & Hall); try assumption.
      { intros x Hx. apply Hincl. now right. }
      exists st, seeds. repeat split; try assumption.
      apply picks_skip; [now apply Hreached | assumption].
    + apply mem_false in E.
      destruct (breadth_first_search_spec graph n Hclosed (Hincl n (or_introl eq_refl)))
        as (comp & -> & Hnd & Hreach).
      simpl.
      destruct (IH (set_update hash_order found comp) (comps ++ [comp]) (chosen ++ [n]))
        as (st & seeds & Hf & Hp & Hall).
      { intros x Hx. apply Hincl. now right. }
      { apply Forall2_snoc; [assumption | split; assumption]. }
      { intros x. rewrite set_update_In, Hfound. split.
        - intros [(c & Hc & Hx)|Hx].
          + exists c. split; [apply in_or_app; now left | assumption].
          + exists comp. split; [apply in_or_app; right; now left | assumption].
        - intros (c & Hc & Hx). apply in_app_or in Hc.
          destruct Hc as [Hc|[<-|[]]]; [left; eauto | now right]. }
      exists st, (n :: seeds). repeat split; try assumption.
      * apply picks_take; [ | assumption].
        intros s Hs Hr. apply E. apply Hreached. eauto.
      * now rewrite <- app_assoc in Hall.
Qed.

(** The nodes are taken in the stable descending-count order of the keys
    of the graph; a node becomes a seed exactly when no earlier seed
    reaches it; the components are what the seeds reach, in order. *)
Lemma get_connected_components_seeds umis graph counts :
  closed_graph graph ->
  incl (keys graph) (keys counts) ->
  exists nodes seeds components,
    sorted_by_count counts (keys graph) = Ok nodes /\
    get_connected_components hash_order umis graph counts = Ok components /\
    picks graph nodes [] seeds /\
    Forall2 (component_from graph) seeds components.
Proof.
  intros Hclosed Hcov. unfold get_connected_components.
  destruct (sorted_by_count_perm counts (keys graph) Hcov) as (nodes & Hs & Hperm).
  rewrite Hs. simpl.
  destruct (components_fold graph Hclosed nodes [] [] []) as (st & seeds & Hf & Hp & Hall).
  - intros x Hx. eapply Permutation_in; eassumption.
  - constructor.
  - intros x. split; [intros [] | intros (c & [] & _)].
  - rewrite Hf. simpl. exists nodes, seeds, (snd st). auto.
Qed.

(** *** Functions of [counts] use it through lookups only *)

Lemma mapM_ext {A B} (f g : A -> result B) (l : list A) :
  (forall x, f x = g x) -> mapM f l = mapM g l.
Proof.
  intros H. induction l as [|x l IH]; simpl; [reflexivity | ].
  now rewrite H, IH.
Qed.

Lemma foldM_ext {A S} (f g : S -> A -> result S) (l : list A) (s : S) :
  (forall s x, f s x = g s x) -> foldM f l s = foldM g l s.
Proof.
  intros H. revert s. induction l as [|x l IH]; intros s; simpl; [reflexivity | ].
  rewrite H. destruct (g s x); simpl; [apply IH | reflexivity].
Qed.

Lemma getitem_ext {V} (d d' : dict V) :
  (forall k, lookup d k = lookup d' k) -> forall k, getitem d k = getitem d' k.
Proof. intros H k. unfold getitem. now rewrite H. Qed.

Lemma sorted_by_count_ext counts counts' l :
  (forall k, lookup counts k = lookup counts' k) ->
  sorted_by_count counts l = sorted_by_count counts' l.
Proof.
  intros H. unfold sorted_by_count. f_equal.
  apply mapM_ext. intros x. now rewrite (getitem_ext counts counts' H).
Qed.

Lemma get_best_ext counts counts' cluster :
  (forall k, lookup counts k = lookup counts' k) ->
  get_best cluster counts = get_best cluster counts'.
Proof.
  intros H. unfold get_best. now rewrite (sorted_by_count_ext counts counts' _ H).
Qed.

Lemma reduce_clusters_ext (bundle : dict (list R)) clusters counts counts' :
  (forall k, lookup counts k = lookup counts' k) ->
  reduce_clusters bundle clusters counts = reduce_clusters bundle clusters counts'.
Proof.
  intros H. unfold reduce_clusters. apply foldM_ext. intros reads cluster.
  now rewrite (get_best_ext counts counts' cluster H).
Qed.

Lemma lookup_counts_of (bundle : dict (list R)) k :
  lookup (counts_of bundle) k
  = lookup (map (fun x => (x, reads_count bundle x)) (keys bundle)) k.
Proof. apply lookup_dict_of_items. Qed.

Lemma directional_edge_counts_of (bundle : dict (list R)) threshold b b2 :
  directional_edge (counts_of bundle) threshold b b2
  = ((Z.of_nat (hamming b b2) =? threshold)
     && (Z.of_nat (reads_count bundle b) >=? Z.of_nat (reads_count bundle b2) * 2 - 1))%Z.
Proof. unfold directional_edge. now rewrite !count_of_counts_of. Qed.

Lemma pair_set (c : pyset) (a b : umi) :
  a <> b -> NoDup c -> (forall x, In x c <-> x = a \/ x = b) ->
  c = [a; b] \/ c = [b; a].
Proof.
  intros Hab Hnd H.
  assert (Hlen : length c = 2).
  { apply Nat.le_antisymm.
    - apply (NoDup_incl_length (l' := [a; b])); [assumption | ].
      intros x Hx. apply H in Hx. simpl. intuition.
    - apply (NoDup_incl_length (l := [a; b])).
      + constructor; [simpl; intuition | constructor; [intros [] | constructor]].
      + intros x [<-|[<-|[]]]; apply H; auto. }
  destruct c as [|x [|y [|z c]]]; try discriminate.
  assert (Hx : x = a \/ x = b) by (apply H; now left).
  assert (Hy : y = a \/ y = b) by (apply H; right; now left).
  inversion Hnd as [|? ? Hn _]; subst.
  destruct Hx as [->| ->]; destruct Hy as [->| ->]; auto;
    exfalso; apply Hn; now left.
Qed.

Lemma picks_nil_inv graph chosen seeds : picks graph [] chosen seeds -> seeds = [].
Proof. intros H. inversion H. reflexivity. Qed.

Lemma picks_cons_inv graph n nodes chosen seeds :
  picks graph (n :: nodes) chosen seeds ->
  ((exists s, In s chosen /\ reach graph s n) /\ picks graph nodes chosen seeds) \/
  ((forall s, In s chosen -> ~ reach graph s n) /\
   exists seeds', seeds = n :: seeds' /\ picks graph nodes (chosen ++ [n]) seeds').
Proof.
  intros H. inversion H; subst; [left | right]; eauto.
Qed.

Lemma post_process_directional_ext umis components adj_list counts counts' :
  (forall k, lookup counts k = lookup counts' k) ->
  _post_process_components_directional_ umis components adj_list counts
  = _post_process_components_directional_ umis components adj_list counts'.
Proof.
  intros H. unfold _post_process_components_directional_.
  apply foldM_ext. intros cs u.
  destruct (1 <? length (positions_from 0 u cs)); [ | reflexivity].
  rewrite (mapM_ext _ (fun p => cluster <- deref cs p ;; get_best cluster counts'));
    [reflexivity | ].
  intros p. destruct (deref cs p); simpl; [apply get_best_ext; assumption | reflexivity].
Qed.

Lemma perm3 {A} (a b c : A) (l : list A) :
  Permutation l [a; b; c] ->
  l = [a; b; c] \/ l = [a; c; b] \/ l = [b; a; c] \/
  l = [b; c; a] \/ l = [c; a; b] \/ l = [c; b; a].
Proof.
  intros H.
  assert (Hlen := Permutation_length H). simpl in Hlen.
  destruct l as [|x [|y [|z [|w l]]]]; try discriminate.
  assert (Hx : In x [a; b; c]) by (eapply Permutation_in; [exact H | now left]).
  destruct Hx as [<-|[<-|[<-|[]]]].
  - apply Permutation_cons_inv in H. apply Permutation_length_2_inv in H.
    destruct H as [[= -> ->]|[= -> ->]]; auto.
  - assert (H' : Permutation [y; z] [a; c]).
    { apply (Permutation_cons_inv (a := b)). rewrite H. apply perm_swap. }
    apply Permutation_length_2_inv in H'.
    destruct H' as [[= -> ->]|[= -> ->]]; auto 6.
  - assert (H' : Permutation [y; z] [a; b]).
    { apply (Permutation_cons_inv (a := c)). rewrite H.
      transitivity [a; c; b]; [constructor; apply perm_swap | apply perm_swap]. }
    apply Permutation_length_2_inv in H'.
    destruct H' as [[= -> ->]|[= -> ->]]; auto 7.
Qed.

(** [__call__] with each policy, once the length check has passed. *)
Lemma call_directional find_clusters (bundle : dict (list R)) threshold :
  bundle <> [] ->
  uniform_length bundle ->
  __call__ hash_order (__init__ hash_order find_clusters "directional")
           bundle threshold
  = (clusters <- get_connected_components hash_order (keys bundle)
                   (adj_graph (directional_edge (counts_of bundle) threshold)
                              (keys bundle))
                   (counts_of bundle) ;;
     clusters <- _post_process_components_directional_ (keys bundle) clusters
                   (adj_graph (directional_edge (counts_of bundle) threshold)
                              (keys bundle))
                   (counts_of bundle) ;;
     reduce_clusters bundle clusters (counts_of bundle)).
Proof.
  intros Hne Hu. rewrite call_uniform by assumption. simpl.
  rewrite get_adj_list_directional_eq
    by (intros x Hx; now apply keys_counts_of).
  simpl. destruct (get_connected_components _ _ _ _) as [cs|e]; simpl; [ | reflexivity].
  destruct (_post_process_components_directional_ _ _ _ _) as [cs'|e]; simpl;
    [ | reflexivity].
  destruct (reduce_clusters _ _ _); reflexivity.
Qed.

Lemma call_kmeans find_clusters (bundle : dict (list R)) threshold :
  bundle <> [] ->
  uniform_length bundle ->
  __call__ hash_order (__init__ hash_order find_clusters "kmeans")
           bundle threshold
  = (clusters <- get_connected_components hash_order (keys bundle)
                   (adj_graph (kmeans_edge threshold) (keys bundle))
                   (counts_of bundle) ;;
     clusters <- _post_process_components_kmeans_ hash_order find_clusters
                   (keys bundle) clusters
                   (adj_graph (kmeans_edge threshold) (keys bundle))
                   (counts_of bundle) ;;
     reduce_clusters bundle clusters (counts_of bundle)).
Proof.
  intros Hne Hu. rewrite call_uniform by assumption. simpl.
  fold (adj_graph (kmeans_edge threshold) (keys bundle)).
  destruct (get_connected_components _ _ _ _) as [cs|e]; simpl; [ | reflexivity].
  destruct (_post_process_components_kmeans_ _ _ _ _ _ _) as [cs'|e]; simpl;
    [ | reflexivity].
  destruct (reduce_clusters _ _ _); reflexivity.
Qed.

(** * Further properties of the engine *)

(** ** The search on an arbitrary adjacency dict *)

Lemma bfs_loop_reachable graph s :
  forall fuel searched found queue,
    In s found -> NoDup found -> NoDup searched ->
    (forall x, In x found -> reach graph s x) ->
    (forall x, In x found -> In x searched \/ In x queue) ->
    (forall x y, In x searched -> edge graph x y -> In y found) ->
    (forall x, In x queue -> In x found /\ ~ In x searched) ->
    incl searched (keys graph) ->
    length graph < length searched + fuel ->
    (exists found',
        bfs_loop hash_order fuel graph searched found queue = Ok found' /\
        NoDup found' /\
        (forall x, In x found' <-> reach graph s x) /\
        (forall x, reach graph s x -> In x (keys graph)))
    \/ (exists k,
           bfs_loop hash_order fuel graph searched found queue = Raise (KeyError k) /\
           reach graph s k /\ ~ In k (keys graph)).
Proof.
  induction fuel as [|fuel IH];
    intros searched found queue Hsf Hndf Hnds Hsound Hfront Hdone Hq Hincl Hfuel.
  - assert (Hlen : length searched <= length (keys graph))
      by (apply NoDup_incl_length; assumption).
    unfold keys in Hlen. rewrite length_map in Hlen. lia.
  - destruct queue as [|node queue'].
    + left. simpl. exists found.
      assert (Hall : forall x, reach graph s x -> In x found).
      { intros x Hr. apply clos_rt_rtn1 in Hr.
        induction Hr as [|y z He _ IHr]; [assumption | ].
        destruct (Hfront y IHr) as [Hy|[]]. eapply Hdone; eassumption. }
      split; [reflexivity | split; [assumption | split; [split | ]]].
      * apply Hsound.
      * apply Hall.
      * intros x Hr. apply Hincl.
        destruct (Hfront x (Hall x Hr)) as [H|[]]. exact H.
    + destruct (Hq node (or_introl eq_refl)) as [Hnf Hns].
      destruct (lookup graph node) as [row|] eqn:Erow.
      * simpl. unfold getitem. rewrite Erow. simpl.
        apply IH.
        -- apply set_update_In. now left.
        -- now apply set_update_NoDup.
        -- now apply set_update_NoDup.
        -- intros x Hx. apply set_update_In in Hx. destruct Hx as [Hx|Hx]; [auto | ].
           eapply rt_trans; [apply Hsound, Hnf | ].
           apply rt_step. exists row. auto.
        -- intros x Hx.
           destruct (in_dec string_dec x (set_update hash_order searched [node]))
             as [Hi|Hi]; [now left | right].
           apply set_difference_update_In. split; [ | assumption].
           apply set_update_In. apply set_update_In in Hx.
           destruct Hx as [Hx|Hx]; [ | now right].
           destruct (Hfront x Hx) as [Hxs|Hxq]; [ | now left].
           exfalso. apply Hi. apply set_update_In. now left.
        -- intros x y Hx He. apply set_update_In.
           apply set_update_In in Hx. destruct Hx as [Hx|[<-|[]]].
           ++ left. eapply Hdone; eassumption.
           ++ right. destruct He as [row' [Hl Hy]]. congruence.
        -- intros x Hx. apply set_difference_update_In in Hx.
           destruct Hx as [Hx Hxs]. split; [ | assumption].
           apply set_update_In. apply set_update_In in Hx.
           destruct Hx as [Hx|Hx]; [ | now right].
           left. now apply Hq.
        -- intros x Hx. apply set_update_In in Hx.
           destruct Hx as [Hx|[<-|[]]]; [now apply Hincl | ].
           apply lookup_In_keys. congruence.
        -- rewrite set_update_single_length by assumption. lia.
      * right. exists node. simpl. unfold getitem. rewrite Erow. simpl.
        split; [reflexivity | split; [now apply Hsound | ]].
        intros Hk. apply lookup_In_keys in Hk. congruence.
Qed.

(** X1: on any adjacency dict and from any start node, the search either
    returns a duplicate-free set that holds exactly the barcodes reachable
    from the start node along directed edges, all of which are then keys
    of the dict, or it raises [KeyError] for a barcode that is reachable
    from the start node and is not a key of the dict.  It does nothing
    else: in particular the loop ends. *)
Theorem breadth_first_search_reachable node graph :
  (exists found,
      breadth_first_search hash_order node graph = Ok found /\
      NoDup found /\
      (forall x, In x found <-> reach graph node x) /\
      (forall x, reach graph node x -> In x (keys graph)))
  \/ (exists k,
         breadth_first_search hash_order node graph = Raise (KeyError k) /\
         reach graph node k /\ ~ In k (keys graph)).
Proof.
  unfold breadth_first_search.
  assert (Hinit : forall x, In x (set_update hash_order [] [node]) <-> x = node).
  { intros x. rewrite set_update_In. simpl. intuition. }
  apply bfs_loop_reachable.
  - now apply Hinit.
  - apply set_update_NoDup. constructor.
  - constructor.
  - intros x Hx. apply Hinit in Hx. subst. apply rt_refl.
  - intros x Hx. now right.
  - intros x y [].
  - intros x Hx. split; [assumption | intros []].
  - intros x [].
  - simpl. lia.
Qed.

(** ** The order in which the components are found *)

Lemma filter_map_comm {A B} (p : B -> bool) (g : A -> B) (l : list A) :
  filter p (map g l) = map g (filter (fun x => p (g x)) l).
Proof.
  induction l as [|x l IH]; simpl; [reflexivity | ].
  destruct (p (g x)); simpl; now rewrite IH.
Qed.

Lemma StronglySorted_map_in {A B} (P : A -> A -> Prop) (Q : B -> B -> Prop)
      (g : A -> B) (l : list A) :
  (forall a b, In a l -> In b l -> P a b -> Q (g a) (g b)) ->
  StronglySorted P l -> StronglySorted Q (map g l).
Proof.
  intros H Hs. induction Hs as [|a l Hs IH Hall]; simpl; constructor.
  - apply IH. intros x y Hx Hy. apply H; now right.
  - apply Forall_forall. intros y Hy. apply in_map_iff in Hy.
    destruct Hy as (b & <- & Hb). apply H; [now left | now right | ].
    rewrite Forall_forall in Hall. now apply Hall.
Qed.

(** [sorted(l, key=lambda x: counts[x], reverse=True)]: the same elements,
    by descending count, those of one count in the order they had. *)
Lemma sorted_by_count_order counts l :
  incl l (keys counts) ->
  exists nodes,
    sorted_by_count counts l = Ok nodes /\
    Permutation nodes l /\
    StronglySorted (fun a b => count_of counts b <= count_of counts a) nodes /\
    forall k, filter (fun x => count_of counts x =? k) nodes
              = filter (fun x => count_of counts x =? k) l.
Proof.
  intros Hcov. unfold sorted_by_count. rewrite mapM_decorate by assumption.
  simpl. eexists. split; [reflexivity | ].
  set (f := fun x => (x, count_of counts x)).
  assert (Hsnd : forall e, In e (sort_desc (map f l)) -> snd e = count_of counts (fst e)).
  { intros e He. apply (Permutation_in _ (sort_desc_perm _)) in He.
    apply in_map_iff in He. destruct He as (x & <- & _). reflexivity. }
  split; [ | split].
  - rewrite (Permutation_map fst (sort_desc_perm _)), map_map. simpl.
    now rewrite map_id.
  - apply StronglySorted_map_in
      with (P := fun a b : umi * nat => snd b <= snd a); [ | apply sort_desc_sorted].
    intros a b Ha Hb Hab. now rewrite <- (Hsnd a Ha), <- (Hsnd b Hb).
  - intros k. rewrite filter_map_comm.
    rewrite (filter_ext_in (fun e : umi * nat => count_of counts (fst e) =? k)
                           (fun e => snd e =? k)).
    2:{ intros e He. now rewrite (Hsnd e He). }
    rewrite sort_desc_stable, filter_map_comm, map_map. simpl.
    now rewrite map_id.
Qed.

(** X2: on a graph whose adjacency lists hold only its keys, all with a
    count, the component finder goes through the keys by descending count,
    keys of one count in the iteration order of the graph; a key starts a
    component exactly when no earlier start reaches it; and the components
    are, in that order, the duplicate-free sets of what the starts reach
    along directed edges. *)
Theorem connected_components_seed_order umis graph counts :
  closed_graph graph ->
  incl (keys graph) (keys counts) ->
  exists nodes seeds components,
    get_connected_components hash_order umis graph counts = Ok components /\
    Permutation nodes (keys graph) /\
    StronglySorted (fun a b => count_of counts b <= count_of counts a) nodes /\
    (forall k, filter (fun x => count_of counts x =? k) nodes
               = filter (fun x => count_of counts x =? k) (keys graph)) /\
    picks graph nodes [] seeds /\
    Forall2 (component_from graph) seeds components.
Proof.
  intros Hclosed Hcov.
  destruct (get_connected_components_seeds umis graph counts Hclosed Hcov)
    as (nodes & seeds & components & Hs & Hc & Hp & Hall).
  destruct (sorted_by_count_order counts (keys graph) Hcov)
    as (nodes' & Hs' & Hperm & Hsorted & Hstable).
  assert (nodes' = nodes) by congruence. subst nodes'.
  exists nodes, seeds, components. auto 10.
Qed.

Lemma mapM_raise_at {A B} (f : A -> result B) (pre : list A) (x : A) (post : list A) e :
  (forall y, In y pre -> exists z, f y = Ok z) ->
  f x = Raise e ->
  mapM f (pre ++ x :: post) = Raise e.
Proof.
  intros Hpre Hx. induction pre as [|y pre IH]; simpl.
  - now rewrite Hx.
  - destruct (Hpre y (or_introl eq_refl)) as (z & ->). simpl.
    rewrite IH by (intros; apply Hpre; now right). reflexivity.
Qed.

Lemma sorted_by_count_missing counts pre k post :
  incl pre (keys counts) ->
  ~ In k (keys counts) ->
  sorted_by_count counts (pre ++ k :: post) = Raise (KeyError k).
Proof.
  intros Hpre Hk. unfold sorted_by_count.
  rewrite (mapM_raise_at _ pre k post (KeyError k)); [reflexivity | | ].
  - intros y Hy. rewrite getitem_count_of by now apply Hpre. simpl. eauto.
  - unfold getitem. destruct (lookup counts k) eqn:E; [ | reflexivity].
    exfalso. apply Hk. apply lookup_In_keys. congruence.
Qed.

(** X3: the component finder reads the count of every key of the graph
    before it searches: when a key has no count it raises [KeyError] for
    the first such key in the iteration order of the graph, whatever the
    adjacency lists hold. *)
Theorem connected_components_missing_count umis graph counts pre k post :
  keys graph = pre ++ k :: post ->
  incl pre (keys counts) ->
  ~ In k (keys counts) ->
  get_connected_components hash_order umis graph counts = Raise (KeyError k).
Proof.
  intros Hkeys Hpre Hk. unfold get_connected_components.
  rewrite Hkeys, sorted_by_count_missing by assumption. reflexivity.
Qed.

(** ** The adjacency builders *)

(** X4: the kmeans builder returns for every list of barcodes, count dict
    and threshold, without reading the counts.  The keys of its dict are
    the barcodes; the list of [b] holds, in the order of [umis], the
    barcodes at Hamming distance [threshold] from [b]; adjacency is
    symmetric; and a barcode is adjacent to itself exactly at threshold
    0. *)
Theorem kmeans_adjacency umis counts threshold :
  exists adj_list,
    _get_adj_list_kmeans_ hash_order umis counts threshold = Ok adj_list /\
    (forall b, In b (keys adj_list) <-> In b umis) /\
    (forall b, In b umis ->
       getitem adj_list b
       = Ok (filter (fun b2 => (Z.of_nat (hamming b b2) =? threshold)%Z) umis)) /\
    (forall b b2, edge adj_list b b2 <->
                  In b umis /\ In b2 umis /\ Z.of_nat (hamming b b2) = threshold) /\
    symmetric_graph adj_list /\
    (forall b, In b umis -> (edge adj_list b b <-> threshold = 0%Z)).
Proof.
  exists (adj_graph (kmeans_edge threshold) umis).
  assert (He : forall b b2, edge (adj_graph (kmeans_edge threshold) umis) b b2 <->
                 In b umis /\ In b2 umis /\ Z.of_nat (hamming b b2) = threshold).
  { intros b b2. rewrite adj_graph_edge. unfold kmeans_edge.
    rewrite Z.eqb_eq. reflexivity. }
  split; [apply get_adj_list_kmeans_eq | ].
  split; [intros b; apply adj_graph_keys | ].
  split.
  { intros b Hb. apply getitem_Ok. now apply lookup_adj. }
  split; [exact He | ].
  split; [apply kmeans_graph_symmetric | ].
  intros b Hb. rewrite He, hamming_refl. simpl. intuition.
Qed.

Lemma mapM_cases {A B} (f : A -> result B) (l : list A) :
  (exists ys, mapM f l = Ok ys /\ forall x, In x l -> exists y, f x = Ok y)
  \/ (exists x e, In x l /\ f x = Raise e /\ mapM f l = Raise e).
Proof.
  induction l as [|a l IH]; simpl.
  - left. exists []. split; [reflexivity | intros x []].
  - destruct (f a) as [y|e] eqn:Ea; simpl.
    + destruct IH as [(ys & -> & Hall)|(x & e & Hx & Hfx & ->)]; simpl.
      * left. eexists. split; [reflexivity | ].
        intros x [<-|Hx]; [eauto | now apply Hall].
      * right. exists x, e. auto.
    + right. exists a, e. auto.
Qed.

Lemma filterM_cases {A} (f : A -> result bool) (l : list A) :
  (exists ys, filterM f l = Ok ys /\ forall x, In x l -> exists y, f x = Ok y)
  \/ (exists x e, In x l /\ f x = Raise e /\ filterM f l = Raise e).
Proof.
  induction l as [|a l IH]; simpl.
  - left. exists []. split; [reflexivity | intros x []].
  - destruct (f a) as [y|e] eqn:Ea; simpl.
    + destruct IH as [(ys & -> & Hall)|(x & e & Hx & Hfx & ->)]; simpl.
      * left. eexists. split; [reflexivity | ].
        intros x [<-|Hx]; [eauto | now apply Hall].
      * right. exists x, e. auto.
    + right. exists a, e. auto.
Qed.

(** X5: the directional builder reads counts only for pairs of barcodes
    at Hamming distance [threshold] (the count test comes second in the
    [and]).  It returns exactly when both barcodes of every such pair have
    a count; otherwise it raises [KeyError] for a barcode of such a pair
    that has none. *)
Theorem directional_adjacency_reads_counts umis counts threshold :
  ((forall b b2, In b umis -> In b2 umis ->
                 Z.of_nat (hamming b b2) = threshold ->
                 In b (keys counts) /\ In b2 (keys counts)) /\
   exists adj_list,
     _get_adj_list_directional_ hash_order umis counts threshold = Ok adj_list)
  \/ (exists b b2 k,
         In b umis /\ In b2 umis /\ Z.of_nat (hamming b b2) = threshold /\
         (k = b \/ k = b2) /\ ~ In k (keys counts) /\
         _get_adj_list_directional_ hash_order umis counts threshold
         = Raise (KeyError k)).
Proof.
  unfold _get_adj_list_directional_.
  set (test := fun umi umi2 =>
                 if (Z.of_nat (hamming umi umi2) =? threshold)%Z then
                   c <- getitem counts umi ;;
                   c2 <- getitem counts umi2 ;;
                   Ok (Z.of_nat c >=? Z.of_nat c2 * 2 - 1)%Z
                 else Ok false).
  match goal with |- context [mapM ?f umis] => set (row := f) end.
  assert (Hrow_eq : forall umi,
            row umi = (r <- filterM (test umi) umis ;; Ok (umi, r)))
    by reflexivity.
  assert (Htest_ok : forall b b2 y, test b b2 = Ok y ->
            Z.of_nat (hamming b b2) = threshold ->
            In b (keys counts) /\ In b2 (keys counts)).
  { intros b b2 y Ht Hh. unfold test in Ht.
    apply Z.eqb_eq in Hh. rewrite Hh in Ht. unfold getitem in Ht.
    destruct (lookup counts b) eqn:E1; [ | discriminate].
    destruct (lookup counts b2) eqn:E2; [ | discriminate].
    split; apply lookup_In_keys; congruence. }
  assert (Htest_raise : forall b b2 e, test b b2 = Raise e ->
            Z.of_nat (hamming b b2) = threshold /\
            exists k, (k = b \/ k = b2) /\ ~ In k (keys counts) /\ e = KeyError k).
  { intros b b2 e Ht. unfold test in Ht.
    destruct (Z.eqb_spec (Z.of_nat (hamming b b2)) threshold) as [Hh|Hh];
      [ | discriminate].
    split; [exact Hh | ]. unfold getitem in Ht.
    destruct (lookup counts b) eqn:E1.
    - destruct (lookup counts b2) eqn:E2; [discriminate | ].
      simpl in Ht. injection Ht as <-. exists b2. repeat split; [now right | ].
      intros Hk. apply lookup_In_keys in Hk. congruence.
    - simpl in Ht. injection Ht as <-. exists b. repeat split; [now left | ].
      intros Hk. apply lookup_In_keys in Hk. congruence. }
  destruct (mapM_cases row umis) as [(items & -> & Hall)|(b & e & Hb & Hrow & ->)].
  - left. simpl. split; [ | eauto].
    intros b b2 Hb Hb2 Hh. destruct (Hall b Hb) as (y & Hy). rewrite Hrow_eq in Hy.
    destruct (filterM_cases (test b) umis) as [(ys & _ & Hys)|(x & e & _ & _ & Hf)].
    + destruct (Hys b2 Hb2) as (t & Ht). eapply Htest_ok; eassumption.
    + rewrite Hf in Hy. discriminate.
  - right. simpl. rewrite Hrow_eq in Hrow.
    destruct (filterM_cases (test b) umis) as [(ys & Hf & _)|(b2 & e' & Hb2 & Ht & Hf)].
    + rewrite Hf in Hrow. discriminate.
    + rewrite Hf in Hrow. simpl in Hrow. injection Hrow as <-.
      destruct (Htest_raise b b2 e' Ht) as (Hh & k & Hk & Hnk & ->).
      exists b, b2, k. auto 10.
Qed.

(** ** The representative, at the edges *)

(** X6: [get_best] on an empty cluster raises [IndexError]; on a cluster
    of one barcode it returns that barcode without reading the counts; on
    a cluster of two or more it reads the count of every member, and
    raises [KeyError] for the first member, in iteration order, that has
    none. *)
Theorem get_best_edge_cases (counts : dict nat) :
  get_best [] counts = Raise IndexError /\
  (forall x, get_best [x] counts = Ok x) /\
  (forall pre k post,
      1 <= length (pre ++ post) ->
      incl pre (keys counts) ->
      ~ In k (keys counts) ->
      get_best (pre ++ k :: post) counts = Raise (KeyError k)).
Proof.
  split; [reflexivity | split; [reflexivity | ]].
  intros pre k post Hlen Hpre Hk. unfold get_best.
  destruct (Nat.eqb_spec (length (pre ++ k :: post)) 1) as [H1|_].
  - rewrite length_app in H1. simpl in H1. rewrite length_app in Hlen. lia.
  - rewrite sorted_by_count_missing by assumption. reflexivity.
Qed.

(** ** What the directional post-processor removes *)

Lemma Forall2_same {A} (P : A -> A -> Prop) (l : list A) :
  (forall a, P a a) -> Forall2 P l l.
Proof. intros H. induction l; constructor; auto. Qed.

Lemma Forall2_compose {A B C} (P : A -> B -> Prop) (Q : B -> C -> Prop)
      (S : A -> C -> Prop) l1 l2 l3 :
  (forall a b c, P a b -> Q b c -> S a c) ->
  Forall2 P l1 l2 -> Forall2 Q l2 l3 -> Forall2 S l1 l3.
Proof.
  intros H H12. revert l3. induction H12 as [|a b l1 l2 Hab _ IH]; intros l3 H23.
  - inversion H23. constructor.
  - inversion H23 as [|? c ? l3' Hbc H23']; subst.
    constructor; [eapply H; eassumption | now apply IH].
Qed.

Lemma drop_drop u c : drop u (drop u c) = drop u c.
Proof.
  unfold drop. induction c as [|x c IH]; simpl; [reflexivity | ].
  destruct (String.eqb x u) eqn:E; simpl; [assumption | ].
  rewrite E. simpl. now rewrite IH.
Qed.

Lemma difference_nil c : set_difference_update c [] = c.
Proof.
  unfold set_difference_update. induction c as [|x c IH]; simpl; [reflexivity | ].
  f_equal. exact IH.
Qed.

Lemma drop_difference u c removed :
  drop u (set_difference_update c removed)
  = set_difference_update c (removed ++ [u]).
Proof.
  unfold drop, set_difference_update, mem.
  induction c as [|x c IH]; simpl; [reflexivity | ].
  rewrite existsb_app. simpl. rewrite orb_false_r.
  destruct (existsb (String.eqb x) removed); simpl; [assumption | ].
  destruct (String.eqb x u); simpl; [assumption | now rewrite IH].
Qed.

Lemma trim1_trans u c'' c' c : trim1 u c'' c' -> trim1 u c' c -> trim1 u c'' c.
Proof.
  unfold trim1. intros [->| ->] [->| ->]; auto. right. apply drop_drop.
Qed.

Lemma assign_drop_trims u (cs : list pyset) j t :
  nth_error cs j = Some t ->
  Forall2 (trim1 u) (assign cs j (drop u t)) cs.
Proof.
  revert j. induction cs as [|c cs IH]; intros j Hj.
  - destruct j; discriminate.
  - destruct j as [|j]; simpl in *.
    + injection Hj as ->. constructor; [now right | ].
      apply Forall2_same. now left.
    + constructor; [now left | now apply IH].
Qed.

Lemma remove_from_parent_trims u cs p cs' :
  remove_from_parent u cs p = Ok cs' -> Forall2 (trim1 u) cs' cs.
Proof.
  unfold remove_from_parent, deref.
  destruct (nth_error cs p) as [c|]; simpl; [ | discriminate].
  destruct (index_set cs c) as [j|]; simpl; [ | discriminate].
  destruct (nth_error cs j) as [t|] eqn:Ej; simpl; [ | discriminate].
  unfold set_remove. destruct (mem u t); simpl; [ | discriminate].
  intros [= <-]. now apply assign_drop_trims.
Qed.

Lemma resolve_loop_trims u index_rep todo :
  forall cs cs',
    foldM (fun components (ip : nat * nat) =>
             let (i, p) := ip in
             if i =? index_rep then Ok components
             else remove_from_parent u components p) todo cs = Ok cs' ->
    Forall2 (trim1 u) cs' cs.
Proof.
  induction todo as [|[i p] todo IH]; intros cs cs'; simpl.
  - intros [= <-]. apply Forall2_same. now left.
  - destruct (i =? index_rep); simpl; [apply IH | ].
    destruct (remove_from_parent u cs p) as [cs1|] eqn:E; simpl; [ | discriminate].
    intros H. apply (Forall2_compose (trim1 u) (trim1 u) (trim1 u) cs' cs1 cs).
    + intros a b c. apply trim1_trans.
    + now apply IH.
    + eapply remove_from_parent_trims. exact E.
Qed.

Lemma directional_body_trims counts cs u cs' :
  directional_body counts cs u = Ok cs' ->
  cs' = cs \/ (1 < claims u cs /\ Forall2 (trim1 u) cs' cs).
Proof.
  unfold directional_body. rewrite positions_from_length.
  destruct (Nat.ltb_spec 1 (claims u cs)) as [Hlt|_]; [ | intros [= <-]; now left].
  destruct (mapM _ (positions_from 0 u cs)) as [reps|]; simpl; [ | discriminate].
  destruct (py_max_str reps) as [best|]; simpl; [ | discriminate].
  destruct (index_str reps best) as [r|]; simpl; [ | discriminate].
  intros H. right. split; [assumption | ]. eapply resolve_loop_trims. exact H.
Qed.

(** Directional post-processing returns; it changes a component only by
    removing barcodes that several components held; and it leaves every
    barcode that some component held in exactly one cluster. *)
Lemma post_process_directional_full umis (components : list pyset) adj_list counts :
  all_in (keys counts) components ->
  exists clusters,
    _post_process_components_directional_ umis components adj_list counts
    = Ok clusters /\
    Forall2 (trimmed umis components) clusters components /\
    (forall x, claims x clusters <= claims x components) /\
    (forall x, In x umis -> 1 <= claims x components -> claims x clusters = 1) /\
    (forall x, ~ In x umis -> claims x clusters = claims x components) /\
    all_in (keys counts) clusters.
Proof.
  intros HK.
  destruct (post_process_directional_spec umis components adj_list counts HK)
    as (clusters & Hpp & Hone & Hout & HK').
  rewrite post_process_directional_fold in Hpp.
  set (P := fun (pre : list umi) (cs : list pyset) =>
              all_in (keys counts) cs /\
              (forall x, claims x cs <= claims x components) /\
              Forall2 (trimmed umis components) cs components).
  destruct (foldM_prefix_inv (directional_body counts) P umis components)
    as (clusters' & Hf & _ & Hle & Htrim).
  - unfold P. repeat split; auto.
    apply Forall2_same. intros c. exists []. split; [ | intros x []].
    symmetry. apply difference_nil.
  - intros pre u cs (HKcs & Hle & Htrim) Hu.
    destruct (directional_body_spec counts cs u HKcs)
      as (cs' & Hb & H1 & _ & H3 & H4).
    exists cs'. split; [exact Hb | ].
    destruct (directional_body_trims counts cs u cs' Hb) as [->|[Hlt Ht]];
      [unfold P; auto | ].
    unfold P. repeat split; [assumption | | ].
    + intros x. destruct (string_dec x u) as [->|Hn].
      * specialize (Hle u). lia.
      * rewrite (H3 x Hn). apply Hle.
    + apply (Forall2_compose (trim1 u) (trimmed umis components)
                             (trimmed umis components) cs' cs components);
        [ | assumption | assumption].
      intros a b c [->| ->] Hbc; [assumption | ].
      destruct Hbc as (removed & -> & Hrem).
      exists (removed ++ [u]). split; [apply drop_difference | ].
      intros x Hx. apply in_app_or in Hx. destruct Hx as [Hx|[<-|[]]]; [auto | ].
      split; [assumption | ]. specialize (Hle u). lia.
  - rewrite post_process_directional_fold.
    assert (clusters' = clusters) by congruence. subst clusters'.
    exists clusters. auto 10.
Qed.

(** X7: the directional post-processor, on components whose barcodes all
    have a count, returns as many clusters as there were components.  Each
    cluster is its component without some barcodes, in the same order,
    and every removed barcode is a barcode of [umis] that more than one
    component held.  Afterwards every barcode of [umis] that some
    component held is in exactly one cluster, and barcodes outside [umis]
    are where they were. *)
Theorem post_process_directional_resolves umis (components : list pyset)
        adj_list counts :
  all_in (keys counts) components ->
  exists clusters,
    _post_process_components_directional_ umis components adj_list counts
    = Ok clusters /\
    Forall2 (trimmed umis components) clusters components /\
    (forall x, In x umis -> 1 <= claims x components -> claims x clusters = 1) /\
    (forall x, ~ In x umis -> claims x clusters = claims x components).
Proof.
  intros HK.
  destruct (post_process_directional_full umis components adj_list counts HK)
    as (clusters & Hpp & Htrim & _ & Hone & Hout & _).
  exists clusters. auto.
Qed.

(** X8: when no barcode of [umis] is in more than one component, the
    directional post-processor returns the components as they are; it
    reads neither the counts nor the adjacency dict, so it does so even
    where counts are missing. *)
Theorem post_process_directional_disjoint umis components adj_list counts :
  (forall x, In x umis -> claims x components <= 1) ->
  _post_process_components_directional_ umis components adj_list counts
  = Ok components.
Proof.
  unfold _post_process_components_directional_.
  induction umis as [|u umis IH]; intros H; simpl; [reflexivity | ].
  rewrite positions_from_length.
  destruct (Nat.ltb_spec 1 (claims u components)) as [Hlt|_].
  - specialize (H u (or_introl eq_refl)). lia.
  - simpl. apply IH. intros x Hx. apply H. now right.
Qed.

(** X9: the directional post-processor is idempotent: run on its own
    output, with any counts and adjacency dict, it returns that output
    unchanged. *)
Theorem post_process_directional_idempotent umis (components : list pyset)
        adj_list counts adj_list' counts' clusters :
  all_in (keys counts) components ->
  _post_process_components_directional_ umis components adj_list counts
  = Ok clusters ->
  _post_process_components_directional_ umis clusters adj_list' counts'
  = Ok clusters.
Proof.
  intros HK Hpp.
  destruct (post_process_directional_full umis components adj_list counts HK)
    as (clusters' & Hpp' & _ & Hle & Hone & _).
  assert (clusters' = clusters) by congruence. subst clusters'.
  apply post_process_directional_unclaimed. intros x Hx.
  destruct (Nat.eq_dec (claims x components) 0) as [Hz|Hnz].
  - specialize (Hle x). lia.
  - rewrite (Hone x Hx); lia.
Qed.

(** ** What the reduction emits *)

Lemma get_best_max (cluster : pyset) (counts : dict nat) :
  cluster <> [] ->
  incl cluster (keys counts) ->
  exists b, get_best cluster counts = Ok b /\ In b cluster /\
            forall m, In m cluster -> count_of counts m <= count_of counts b.
Proof.
  intros Hne Hcov. unfold get_best.
  destruct (Nat.eqb_spec (length cluster) 1) as [H1|H1].
  - destruct cluster as [|x [|y l]]; try discriminate.
    exists x. split; [reflexivity | split; [now left | ]].
    intros m [<-|[]]. lia.
  - unfold sorted_by_count. rewrite mapM_decorate by assumption. simpl.
    set (f := fun x => (x, count_of counts x)).
    destruct (sort_desc_head (map f cluster))
      as (pre & b & post & rest & Hl & Hs & Hpre & Hpost).
    { destruct cluster; [congruence | discriminate]. }
    rewrite Hs. simpl.
    apply map_eq_app in Hl. destruct Hl as (pre0 & tl0 & -> & <- & Htl).
    apply map_eq_cons in Htl. destruct Htl as (b0 & post0 & -> & <- & <-).
    exists b0. simpl. split; [reflexivity | split].
    + apply in_or_app. right. now left.
    + intros m Hm. apply in_app_or in Hm. destruct Hm as [Hm|[<-|Hm]].
      * apply Nat.lt_le_incl. apply (Hpre (f m)). now apply in_map.
      * lia.
      * apply (Hpost (f m)). now apply in_map.
Qed.

Lemma best_of_get_best counts c b : get_best c counts = Ok b -> best_of counts c = b.
Proof. unfold best_of. now intros ->. Qed.

Lemma reassign_app (bundle : dict (list R)) m1 m2 :
  reassign bundle (m1 ++ m2) = reassign bundle m1 ++ reassign bundle m2.
Proof. apply flat_map_app. Qed.

Lemma reassign_to (bundle : dict (list R)) (p : umi) (us : list umi) :
  reassign bundle (map (fun u => (u, p)) us)
  = concat (map (fun u => map (fun read => (read, p)) (reads_of bundle u)) us).
Proof.
  unfold reassign. rewrite flat_map_concat_map, map_map. reflexivity.
Qed.

Lemma getitem_reads_of (bundle : dict (list R)) u :
  In u (keys bundle) -> getitem bundle u = Ok (reads_of bundle u).
Proof.
  intros H. apply lookup_In_keys in H. unfold getitem, reads_of.
  destruct (lookup bundle u); congruence.
Qed.

(** The reduction emits the reassignments of [moves_of], cluster by
    cluster. *)
Lemma reduce_clusters_moves (bundle : dict (list R)) clusters counts :
  all_in (keys bundle) clusters ->
  all_in (keys counts) clusters ->
  reduce_clusters bundle clusters counts
  = Ok (reassign bundle (moves_of counts clusters)).
Proof.
  intros Hb Hc. unfold reduce_clusters.
  match goal with |- foldM ?f _ _ = _ => set (step := f) end.
  assert (G : forall acc, foldM step clusters acc
                          = Ok (acc ++ reassign bundle (moves_of counts clusters))).
  { induction clusters as [|c cs IH]; intros acc.
    - simpl. now rewrite app_nil_r.
    - assert (Hb' : all_in (keys bundle) cs) by (intros x Hx; apply Hb; now right).
      assert (Hc' : all_in (keys counts) cs) by (intros x Hx; apply Hc; now right).
      specialize (IH Hb' Hc').
      change (moves_of counts (c :: cs))
        with ((if 1 <? length c
               then map (fun u => (u, best_of counts c)) (drop (best_of counts c) c)
               else []) ++ moves_of counts cs).
      rewrite reassign_app. simpl. unfold step at 1.
      destruct (Nat.ltb_spec 1 (length c)) as [Hlt|_].
      + destruct (get_best_member c counts) as (b & Hbest & _).
        { intros ->. simpl in Hlt. lia. }
        { apply Hc. now left. }
        rewrite Hbest, (best_of_get_best counts c b Hbest). simpl.
        rewrite (mapM_total _ (fun u => map (fun read => (read, b)) (reads_of bundle u))).
        2:{ intros u Hu. apply filter_In in Hu. destruct Hu as [Hu _].
            rewrite getitem_reads_of; [reflexivity | ].
            apply (Hb c); [now left | assumption]. }
        simpl. rewrite IH, reassign_to, <- app_assoc. reflexivity.
      + simpl. apply IH. }
  apply G.
Qed.

Lemma In_moves_of counts clusters u p :
  In (u, p) (moves_of counts clusters) <->
  exists c, In c clusters /\ 1 < length c /\ best_of counts c = p /\
            In u c /\ u <> p.
Proof.
  unfold moves_of. rewrite in_flat_map. split.
  - intros (c & Hc & Hin). exists c.
    destruct (Nat.ltb_spec 1 (length c)) as [Hlt|_]; [ | destruct Hin].
    apply in_map_iff in Hin. destruct Hin as (u' & [= -> <-] & Hu).
    apply drop_In in Hu. tauto.
  - intros (c & Hc & Hlt & <- & Hu & Hn). exists c. split; [assumption | ].
    apply Nat.ltb_lt in Hlt. rewrite Hlt. apply in_map_iff.
    exists u. split; [reflexivity | ]. apply drop_In. auto.
Qed.

(** X10: on clusters whose barcodes all are keys of the bundle and have a
    count, the reduction returns, and what it returns is the
    reassignment of a list of moves: a barcode [u] is moved to [p]
    exactly when some cluster of more than one barcode holds [u], has
    [p] for representative, and [u] is not [p]; the move pairs every read
    the bundle files under [u] with [p].  Clusters of one barcode emit
    nothing. *)
Theorem reduce_clusters_pairs (bundle : dict (list R)) clusters counts :
  all_in (keys bundle) clusters ->
  all_in (keys counts) clusters ->
  exists moves,
    reduce_clusters bundle clusters counts = Ok (reassign bundle moves) /\
    forall u p,
      In (u, p) moves <->
      exists c, In c clusters /\ 1 < length c /\ get_best c counts = Ok p /\
                In u c /\ u <> p.
Proof.
  intros Hb Hc. exists (moves_of counts clusters).
  split; [now apply reduce_clusters_moves | ].
  intros u p. rewrite In_moves_of.
  assert (Hbest : forall c, In c clusters -> 1 < length c ->
                    (best_of counts c = p <-> get_best c counts = Ok p)).
  { intros c Hin Hlt. destruct (get_best_member c counts) as (b & Hbc & _).
    - intros ->. simpl in Hlt. lia.
    - now apply Hc.
    - rewrite (best_of_get_best counts c b Hbc), Hbc. split; congruence. }
  split; intros (c & Hin & Hlt & Hp & Hu & Hn); exists c;
    (split; [assumption | split; [assumption | split; [ | auto]]]);
    now apply (Hbest c Hin Hlt).
Qed.

(** ** The whole call *)

Lemma disjoint_same_cluster (clusters : list pyset) c c' x :
  (forall y, claims y clusters <= 1) ->
  In c clusters -> In c' clusters -> In x c -> In x c' -> c = c'.
Proof.
  induction clusters as [|a rest IH]; intros Hd Hc Hc' Hx Hx'; [destruct Hc | ].
  assert (Hrest : forall y, In y a -> forall d, In d rest -> ~ In y d).
  { intros y Hy. apply claims_zero. specialize (Hd y).
    change (a :: rest) with ([a] ++ rest) in Hd. rewrite claims_app in Hd.
    unfold claims at 1 in Hd. simpl in Hd. apply mem_In in Hy. rewrite Hy in Hd.
    simpl in Hd. lia. }
  destruct Hc as [->|Hc]; destruct Hc' as [->|Hc'].
  - reflexivity.
  - exfalso. exact (Hrest x Hx c' Hc' Hx').
  - exfalso. exact (Hrest x Hx' c Hc Hx).
  - apply IH; try assumption. intros y. specialize (Hd y).
    change (a :: rest) with ([a] ++ rest) in Hd. rewrite claims_app in Hd. lia.
Qed.

Lemma map_fst_moves counts c cs :
  map fst (moves_of counts (c :: cs))
  = (if 1 <? length c then drop (best_of counts c) c else [])
    ++ map fst (moves_of counts cs).
Proof.
  change (moves_of counts (c :: cs))
    with ((if 1 <? length c
           then map (fun u => (u, best_of counts c)) (drop (best_of counts c) c)
           else []) ++ moves_of counts cs).
  rewrite map_app. f_equal. destruct (1 <? length c); [ | reflexivity].
  rewrite map_map. simpl. apply map_id.
Qed.

Lemma In_fst_moves counts clusters u :
  In u (map fst (moves_of counts clusters)) ->
  exists c, In c clusters /\ 1 < length c /\ In u c /\ u <> best_of counts c.
Proof.
  intros H. apply in_map_iff in H. destruct H as ([u' p] & <- & Hin).
  apply In_moves_of in Hin. destruct Hin as (c & Hc & Hlt & <- & Hu & Hn).
  exists c. auto.
Qed.

Lemma moves_of_NoDup counts (clusters : list pyset) :
  (forall y, claims y clusters <= 1) ->
  (forall c, In c clusters -> NoDup c) ->
  NoDup (map fst (moves_of counts clusters)).
Proof.
  induction clusters as [|a rest IH]; intros Hd Hnd; [constructor | ].
  rewrite map_fst_moves.
  assert (Hd' : forall y, claims y rest <= 1).
  { intros y. specialize (Hd y).
    change (a :: rest) with ([a] ++ rest) in Hd. rewrite claims_app in Hd. lia. }
  apply NoDup_app.
  - destruct (1 <? length a); [ | constructor].
    apply NoDup_filter. apply Hnd. now left.
  - apply IH; [assumption | ]. intros c Hc. apply Hnd. now right.
  - intros u Hu Hu'.
    assert (Hua : In u a).
    { destruct (1 <? length a); [ | destruct Hu]. apply drop_In in Hu. tauto. }
    apply In_fst_moves in Hu'. destruct Hu' as (c & Hc & _ & Huc & _).
    specialize (Hd u). change (a :: rest) with ([a] ++ rest) in Hd.
    rewrite claims_app in Hd. unfold claims at 1 in Hd. simpl in Hd.
    apply mem_In in Hua. rewrite Hua in Hd. simpl in Hd.
    assert (1 <= claims u rest) by (apply claims_pos; eauto). lia.
Qed.

(** On clusters that are duplicate-free and pairwise disjoint, each inside
    what one barcode reaches, no barcode is moved twice, a barcode is moved
    to a barcode of its own cluster with at least its count, and no parent
    is itself moved. *)
Lemma moves_of_sound counts graph (clusters : list pyset) :
  (forall y, claims y clusters <= 1) ->
  (forall c, In c clusters ->
             NoDup c /\ incl c (keys counts) /\
             exists s, forall x, In x c -> reach graph s x) ->
  NoDup (map fst (moves_of counts clusters)) /\
  forall u p, In (u, p) (moves_of counts clusters) ->
    (exists c, In c clusters /\ In u c /\ In p c) /\
    u <> p /\
    count_of counts u <= count_of counts p /\
    ~ In p (map fst (moves_of counts clusters)) /\
    exists s, reach graph s u /\ reach graph s p.
Proof.
  intros Hd Hcl. split.
  - apply moves_of_NoDup; [assumption | ]. intros c Hc. now apply Hcl.
  - intros u p Hin. apply In_moves_of in Hin.
    destruct Hin as (c & Hc & Hlt & Hp & Hu & Hn).
    destruct (Hcl c Hc) as (Hnd & Hcov & s & Hs).
    destruct (get_best_max c counts) as (b & Hb & Hbc & Hmax); [ | assumption | ].
    { intros ->. destruct Hu. }
    rewrite (best_of_get_best counts c b Hb) in Hp. subst b.
    split; [exists c; auto | ].
    split; [assumption | ].
    split; [now apply Hmax | ].
    split; [ | exists s; auto].
    intros Hmoved. apply In_fst_moves in Hmoved.
    destruct Hmoved as (c' & Hc' & _ & Hpc' & Hnb).
    assert (c = c') by (eapply disjoint_same_cluster; eassumption). subst c'.
    apply Hnb. symmetry. now apply best_of_get_best.
Qed.

(** X11: under the directional policy, on every non-empty bundle of
    uniform barcode length and at every threshold, the engine returns the
    reassignment of a list of moves in which no barcode is moved twice.
    A barcode is moved to another barcode of the bundle that has at least
    as many reads and is not itself moved, and both are reachable from one
    barcode in the directional graph; every read of a moved barcode is
    paired with the parent, and no other read is in the list. *)
Theorem call_directional_moves find_clusters (bundle : dict (list R)) threshold :
  bundle <> [] ->
  uniform_length bundle ->
  exists moves,
    __call__ hash_order (__init__ hash_order find_clusters "directional")
             bundle threshold = Ok (reassign bundle moves) /\
    NoDup (map fst moves) /\
    forall u p, In (u, p) moves ->
      In u (keys bundle) /\ In p (keys bundle) /\ u <> p /\
      reads_count bundle u <= reads_count bundle p /\
      ~ In p (map fst moves) /\
      exists s, reach (directional_graph bundle threshold) s u /\
                reach (directional_graph bundle threshold) s p.
Proof.
  intros Hne Hu. rewrite call_directional by assumption.
  fold (directional_graph bundle threshold).
  set (graph := directional_graph bundle threshold).
  destruct (policy_graph_components
              (directional_edge (counts_of bundle) threshold) bundle)
    as (components & Hc & Hcover & Hcomp & _).
  fold (directional_graph bundle threshold) in Hc, Hcomp. fold graph in Hc, Hcomp.
  destruct (components_in_keys _ bundle components Hcomp) as [HK HKb].
  destruct (post_process_directional_full (keys bundle) components graph
              (counts_of bundle) HK)
    as (clusters & Hpp & Htrim & _ & Hone & _ & HK').
  rewrite Hc. simpl. rewrite Hpp. simpl.
  assert (HKb' : all_in (keys bundle) clusters).
  { intros c Hin x Hx. apply keys_counts_of. now apply (HK' c). }
  rewrite reduce_clusters_moves by assumption.
  exists (moves_of (counts_of bundle) clusters). split; [reflexivity | ].
  assert (Hd : forall y, claims y clusters <= 1).
  { intros y. destruct (in_dec string_dec y (keys bundle)) as [Hy|Hy].
    - rewrite Hone; [lia | assumption | ]. apply claims_pos. now apply Hcover.
    - assert (Hz : claims y clusters = 0); [ | lia].
      apply claims_zero. intros c Hin Hyc. apply Hy. now apply (HKb' c). }
  destruct (moves_of_sound (counts_of bundle) graph clusters Hd) as [Hnd Hmoves].
  { intros c Hin.
    destruct (Forall2_In_l _ _ _ _ Htrim Hin) as (comp & Hcin & removed & -> & _).
    destruct (Hcomp comp Hcin) as (s & _ & Hndc & Hr).
    split; [now apply NoDup_filter | ].
    split; [now apply HK' | ].
    exists s. intros x Hx. apply set_difference_update_In in Hx. now apply Hr. }
  split; [assumption | ].
  intros u p Hin.
  destruct (Hmoves u p Hin) as ((c & Hcin & Huc & Hpc) & Hn & Hle & Hnm & Hs).
  rewrite !count_of_counts_of in Hle.
  split; [now apply (HKb' c) | ].
  split; [now apply (HKb' c) | auto].
Qed.

Lemma isolated_reach test (umis : list umi) a b :
  (forall x y, In x umis -> In y umis -> test x y = true -> y = x) ->
  reach (adj_graph test umis) a b -> b = a.
Proof.
  intros Hiso Hr. induction Hr as [x y He| |x y z _ IH1 _ IH2].
  - apply adj_graph_edge in He. destruct He as (Hx & Hy & Ht). now apply Hiso.
  - reflexivity.
  - congruence.
Qed.

(** Under either policy the engine returns the empty list when no two
    distinct barcodes of the bundle are at Hamming distance [threshold]. *)
Lemma call_far_apart find_clusters cluster_method
      (bundle : dict (list R)) (threshold : Z) :
  cluster_method = "directional" \/ cluster_method = "kmeans" ->
  bundle <> [] ->
  uniform_length bundle ->
  (forall a b, In a (keys bundle) -> In b (keys bundle) -> a <> b ->
               Z.of_nat (hamming a b) <> threshold) ->
  __call__ hash_order (__init__ hash_order find_clusters cluster_method)
           bundle threshold = Ok [].
Proof.
  intros Hm Hne Hu Hfar.
  destruct (policy_graph find_clusters cluster_method bundle threshold Hm)
    as (f & test & Hf & Hadj & Htest).
  assert (Hiso : forall x y, In x (keys bundle) -> In y (keys bundle) ->
                             test x y = true -> y = x).
  { intros x y Hx Hy Ht. destruct (string_dec y x) as [E|E]; [exact E | exfalso].
    apply (Hfar x y Hx Hy); [congruence | ].
    destruct Htest as [[-> _]|[-> _]].
    - unfold directional_edge in Ht. apply andb_true_iff in Ht.
      destruct Ht as [Ht _]. now apply Z.eqb_eq in Ht.
    - unfold kmeans_edge in Ht. now apply Z.eqb_eq in Ht. }
  destruct (policy_graph_components test bundle)
    as (components & Hc & _ & Hcomp & Hdisj).
  assert (Hsingle : forall c, In c components -> length c = 1).
  { intros c Hin. destruct (Hcomp c Hin) as (seed & _ & Hnd & Hr).
    rewrite (singleton_set c seed Hnd); [reflexivity | ].
    intros x. rewrite Hr. split.
    - now apply isolated_reach.
    - intros ->. apply rt_refl. }
  assert (Hsym : symmetric_graph (adj_graph test (keys bundle))).
  { intros a b He. pose proof He as He'. apply adj_graph_edge in He'.
    destruct He' as (Ha & Hb & Ht). rewrite (Hiso a b Ha Hb Ht) in He.
    rewrite (Hiso a b Ha Hb Ht). exact He. }
  rewrite call_uniform by assumption. rewrite Hf. simpl.
  rewrite Hadj. simpl. rewrite Hc. simpl.
  assert (Hred : reduce_clusters bundle components (counts_of bundle) = Ok []).
  { apply reduce_clusters_singletons. intros c Hin.
    rewrite (Hsingle c Hin). lia. }
  destruct Hm as [->| ->]; simpl.
  - rewrite post_process_directional_unclaimed by (intros; now apply Hdisj).
    simpl. now rewrite Hred.
  - rewrite post_process_kmeans_singletons by assumption.
    simpl. now rewrite Hred.
Qed.

(** X12: under either policy, on a non-empty bundle of uniform barcode
    length, when no two distinct barcodes of the bundle are at Hamming
    distance [threshold], the adjacency dict links no two distinct
    barcodes and the engine returns the empty reassignment list. *)
Theorem call_isolated_barcodes find_clusters cluster_method
        (bundle : dict (list R)) (threshold : Z) :
  cluster_method = "directional" \/ cluster_method = "kmeans" ->
  bundle <> [] ->
  uniform_length bundle ->
  (forall a b, In a (keys bundle) -> In b (keys bundle) -> a <> b ->
               Z.of_nat (hamming a b) <> threshold) ->
  (exists f adj_list,
      get_adj_list (__init__ hash_order find_clusters cluster_method) = Some f /\
      f (keys bundle) (counts_of bundle) threshold = Ok adj_list /\
      forall b b2, edge adj_list b b2 -> b2 = b) /\
  __call__ hash_order (__init__ hash_order find_clusters cluster_method)
           bundle threshold = Ok [].
Proof.
  intros Hm Hne Hu Hfar. split; [ | now apply call_far_apart].
  destruct (policy_graph find_clusters cluster_method bundle threshold Hm)
    as (f & test & Hf & Hadj & Htest).
  exists f, (adj_graph test (keys bundle)).
  split; [exact Hf | split; [exact Hadj | ]].
  intros b b2 He. apply adj_graph_edge in He. destruct He as (Hb & Hb2 & Ht).
  destruct (string_dec b2 b) as [E|E]; [exact E | exfalso].
  apply (Hfar b b2 Hb Hb2); [congruence | ].
  destruct Htest as [[-> _]|[-> _]].
  - unfold directional_edge in Ht. apply andb_true_iff in Ht.
    destruct Ht as [Ht _]. now apply Z.eqb_eq in Ht.
  - unfold kmeans_edge in Ht. now apply Z.eqb_eq in Ht.
Qed.

Lemma hamming_le_length (a b : string) : hamming a b <= String.length a.
Proof.
  revert b. induction a as [|x a IH]; intros b; simpl; [lia | ].
  destruct b as [|y b]; [lia | ].
  specialize (IH b). destruct (Ascii.eqb x y); lia.
Qed.

(** X13: a threshold out of range is not an error: under either policy,
    on a non-empty bundle of uniform barcode length, a negative threshold
    or a threshold above the barcode length gives the empty reassignment
    list. *)
Theorem call_threshold_out_of_range find_clusters cluster_method
        (bundle : dict (list R)) (threshold : Z) :
  cluster_method = "directional" \/ cluster_method = "kmeans" ->
  bundle <> [] ->
  uniform_length bundle ->
  (threshold < 0)%Z
  \/ (exists b, In b (keys bundle) /\ (Z.of_nat (String.length b) < threshold)%Z) ->
  __call__ hash_order (__init__ hash_order find_clusters cluster_method)
           bundle threshold = Ok [].
Proof.
  intros Hm Hne Hu Hout. apply call_far_apart; try assumption.
  intros a b Ha Hb _. destruct Hout as [Hneg|(b0 & Hb0 & Hbig)]; [lia | ].
  pose proof (hamming_le_length a b) as Hle.
  rewrite (Hu a b0 Ha Hb0) in Hle. lia.
Qed.

(** ** The kmeans policy *)

Lemma post_process_kmeans_unsplit find_clusters umis components adj_list counts :
  (forall adj counts k, length (find_clusters adj counts k) = 1) ->
  (forall c, In c components -> incl c (keys counts) /\ incl c (keys adj_list)) ->
  _post_process_components_kmeans_ hash_order find_clusters
    umis components adj_list counts = Ok components.
Proof.
  intros Hone Hin. rewrite post_process_kmeans_repeats by assumption.
  f_equal. clear Hin. induction components as [|c cs IH]; simpl; [reflexivity | ].
  rewrite IH. unfold kmeans_subclusters. rewrite Hone.
  destruct (length c =? 1); reflexivity.
Qed.

(** X14: whatever [find_clusters] returns, the kmeans post-processor
    never splits: every cluster it returns is one of the components it was
    given, whole.  A component of one barcode is always returned; a
    component of several barcodes is returned exactly when [find_clusters]
    returns at least one sub-cluster for it. *)
Theorem post_process_kmeans_never_splits find_clusters umis components
        adj_list counts :
  (forall c, In c components -> incl c (keys counts) /\ incl c (keys adj_list)) ->
  exists clusters,
    _post_process_components_kmeans_ hash_order find_clusters
      umis components adj_list counts = Ok clusters /\
    (forall c, In c clusters -> In c components) /\
    (forall c, In c components -> length c = 1 -> In c clusters) /\
    (forall c, In c components -> length c <> 1 ->
               (In c clusters <->
                kmeans_subclusters find_clusters adj_list counts c <> [])).
Proof.
  intros Hin. rewrite post_process_kmeans_repeats by assumption.
  eexists. split; [reflexivity | ].
  set (g := fun c : pyset =>
              if length c =? 1 then [c]
              else repeat c (length (kmeans_subclusters find_clusters
                                       adj_list counts c))).
  assert (Hg : forall c c', In c' (g c) -> c' = c).
  { intros c c'. unfold g. destruct (length c =? 1).
    - intros [<-|[]]. reflexivity.
    - apply repeat_spec. }
  split; [ | split].
  - intros c Hc. apply in_flat_map in Hc. destruct Hc as (c0 & Hc0 & Hc).
    now rewrite (Hg c0 c Hc).
  - intros c Hc H1. apply in_flat_map. exists c. split; [assumption | ].
    unfold g. apply Nat.eqb_eq in H1. rewrite H1. now left.
  - intros c Hc H1. apply Nat.eqb_neq in H1. rewrite in_flat_map. split.
    + intros (c0 & Hc0 & Hcg). pose proof (Hg c0 c Hcg) as E. subst c0.
      unfold g in Hcg. rewrite H1 in Hcg. intros Hnil. rewrite Hnil in Hcg.
      destruct Hcg.
    + intros Hne. exists c. split; [assumption | ]. unfold g. rewrite H1.
      destruct (kmeans_subclusters find_clusters adj_list counts c);
        [congruence | now left].
Qed.

(** X15: under the kmeans policy with a [find_clusters] that returns one
    sub-cluster for whatever it is given, on every non-empty bundle of
    uniform barcode length the engine returns the reassignment of a list
    of moves in which no barcode is moved twice.  A barcode is moved to
    another barcode of the bundle that has at least as many reads, is not
    itself moved, and is linked to it by a chain of barcodes at Hamming
    distance [threshold]. *)
Theorem call_kmeans_unsplit_moves find_clusters (bundle : dict (list R)) threshold :
  (forall adj counts k, length (find_clusters adj counts k) = 1) ->
  bundle <> [] ->
  uniform_length bundle ->
  exists moves,
    __call__ hash_order (__init__ hash_order find_clusters "kmeans")
             bundle threshold = Ok (reassign bundle moves) /\
    NoDup (map fst moves) /\
    forall u p, In (u, p) moves ->
      In u (keys bundle) /\ In p (keys bundle) /\ u <> p /\
      reads_count bundle u <= reads_count bundle p /\
      ~ In p (map fst moves) /\
      reach (kmeans_graph bundle threshold) p u.
Proof.
  intros Hone Hne Hu. rewrite call_kmeans by assumption.
  fold (kmeans_graph bundle threshold).
  set (graph := kmeans_graph bundle threshold).
  destruct (policy_graph_components (kmeans_edge threshold) bundle)
    as (components & Hc & Hcover & Hcomp & Hdisj).
  fold (kmeans_graph bundle threshold) in Hc, Hcomp, Hdisj.
  fold graph in Hc, Hcomp, Hdisj.
  assert (Hsym : symmetric_graph graph) by apply kmeans_graph_symmetric.
  destruct (components_in_keys _ bundle components Hcomp) as [HK HKb].
  rewrite Hc. simpl.
  rewrite post_process_kmeans_unsplit; [ | assumption | ].
  2:{ intros c Hin. split; [now apply HK | ].
      intros x Hx. apply adj_graph_keys. now apply (HKb c). }
  simpl. rewrite reduce_clusters_moves by assumption.
  exists (moves_of (counts_of bundle) components). split; [reflexivity | ].
  destruct (moves_of_sound (counts_of bundle) graph components (Hdisj Hsym))
    as [Hnd Hmoves].
  { intros c Hin. destruct (Hcomp c Hin) as (s & _ & Hndc & Hr).
    split; [assumption | split; [now apply HK | ]].
    exists s. intros x Hx. now apply Hr. }
  split; [assumption | ].
  intros u p Hin.
  destruct (Hmoves u p Hin) as ((c & Hcin & Huc & Hpc) & Hn & Hle & Hnm & s & Hsu & Hsp).
  rewrite !count_of_counts_of in Hle.
  split; [now apply (HKb c) | ].
  split; [now apply (HKb c) | ].
  split; [assumption | split; [assumption | split; [assumption | ]]].
  eapply rt_trans; [ | exact Hsu]. now apply reach_sym.
Qed.

(** ** Counts along the directional graph *)

Lemma directional_edge_descends counts threshold a b :
  directional_edge counts threshold a b = true ->
  count_of counts b <= count_of counts a.
Proof.
  unfold directional_edge. intros H. apply andb_true_iff in H.
  destruct H as [_ H]. apply Z.geb_le in H. lia.
Qed.

(** X16: in the adjacency dict of the directional policy the read count
    never grows along an edge, hence along a path; so every component is
    what one barcode of the bundle reaches, and that barcode has the
    greatest read count of the component. *)
Theorem directional_seed_dominates (bundle : dict (list R)) (threshold : Z) :
  exists adj_list components,
    _get_adj_list_directional_ hash_order (keys bundle) (counts_of bundle) threshold
    = Ok adj_list /\
    get_connected_components hash_order (keys bundle) adj_list (counts_of bundle)
    = Ok components /\
    (forall a b, reach adj_list a b ->
                 reads_count bundle b <= reads_count bundle a) /\
    (forall c, In c components ->
               exists seed,
                 In seed (keys bundle) /\
                 (forall x, In x c <-> reach adj_list seed x) /\
                 (forall x, In x c ->
                            reads_count bundle x <= reads_count bundle seed)).
Proof.
  set (test := directional_edge (counts_of bundle) threshold).
  destruct (policy_graph_components test bundle)
    as (components & Hc & _ & Hcomp & _).
  exists (adj_graph test (keys bundle)), components.
  assert (Hdesc : forall a b, reach (adj_graph test (keys bundle)) a b ->
                              reads_count bundle b <= reads_count bundle a).
  { intros a b Hr. induction Hr as [x y He| |x y z _ IH1 _ IH2].
    - apply adj_graph_edge in He. destruct He as (_ & _ & Ht).
      apply directional_edge_descends in Ht.
      now rewrite !count_of_counts_of in Ht.
    - apply Nat.le_refl.
    - eapply Nat.le_trans; eassumption. }
  split.
  { apply get_adj_list_directional_eq. intros x Hx. now apply keys_counts_of. }
  split; [exact Hc | split; [exact Hdesc | ]].
  intros c Hin. destruct (Hcomp c Hin) as (seed & Hs & _ & Hr).
  exists seed. split; [now apply (adj_graph_keys test) | split; [exact Hr | ]].
  intros x Hx. apply Hdesc. now apply Hr.
Qed.

End Properties.

(** * Runs on given bundles *)

(** The facts about a bundle [b] that the runs below start from: its
    counts, looked up in any listing order, and the edges of its graph. *)
Ltac bundle_counts hash_order Hperm b :=
  assert (Hext : forall k,
             lookup (counts_of hash_order b) k
             = lookup (map (fun x => (x, reads_count b x)) (keys b)) k)
    by (intros k; apply lookup_counts_of; exact Hperm);
  assert (Hcov : incl (keys b) (keys (counts_of hash_order b)))
    by (intros x Hx; apply keys_counts_of; assumption).

Ltac directional_edges hash_order Hperm b :=
  assert (Hedge : forall x y,
             edge (adj_graph hash_order
                     (directional_edge (counts_of hash_order b) 1) (keys b)) x y <->
             In x (keys b) /\ In y (keys b) /\
             ((Z.of_nat (hamming x y) =? 1)
              && (Z.of_nat (reads_count b x)
                  >=? Z.of_nat (reads_count b y) * 2 - 1))%Z = true)
    by (intros x y; rewrite adj_graph_edge by exact Hperm;
        now rewrite directional_edge_counts_of).

(** The nodes, once [Hnodes] gives them as the sorted keys of a graph on
    three barcodes, whatever the order of the keys. *)
Ltac sorted_nodes3 hash_order Hperm Hext Hnodes :=
  rewrite (sorted_by_count_ext _ _ _ Hext) in Hnodes;
  unfold adj_graph in Hnodes;
  rewrite keys_dict_of_items, keys_map_key in Hnodes by exact Hperm;
  match type of Hnodes with
  | context [hash_order ?l] =>
      let H := fresh "H" in
      destruct (perm3 _ _ _ _ (Hperm l)) as [H|[H|[H|[H|[H|H]]]]];
      rewrite H in Hnodes; vm_compute in Hnodes; congruence
  end.


(** The components of a graph, from [get_connected_components_seeds]. *)
Ltac components_of hash_order Hperm Hcov umis graph counts :=
  destruct (get_connected_components_seeds hash_order Hperm umis graph counts)
    as (nodes & seeds & comps & Hnodes & Hgcc & Hpicks & Hcomps);
  [ apply adj_graph_closed; exact Hperm
  | intros x Hx; apply Hcov; apply adj_graph_keys in Hx; [exact Hx | exact Hperm]
  | ].

(** C7: with the directional policy and threshold 1, the bundle
    {AAAA: 10 reads, AAAT: 1 read, TTTT: 8 reads} yields exactly one
    reassignment, AAAT's single read to AAAA; no read of AAAA or TTTT is
    reassigned.  This holds for every iteration order of the hashed
    containers and of the bundle. *)
Theorem directional_example {R} (hash_order : list umi -> list umi) find_clusters
        (reads_a reads_t : list R) (read : R) (bundle : dict (list R)) :
  (forall l, Permutation (hash_order l) l) ->
  length reads_a = 10 ->
  length reads_t = 8 ->
  Permutation bundle [("AAAA", reads_a); ("AAAT", [read]); ("TTTT", reads_t)] ->
  __call__ hash_order (__init__ hash_order find_clusters "directional") bundle 1%Z
  = Ok [(read, "AAAA")].
Proof.
  intros Hperm Ha Ht Hb.
  do 11 (destruct reads_a as [|? reads_a]; try discriminate Ha).
  do 9 (destruct reads_t as [|? reads_t]; try discriminate Ht).
  clear Ha Ht. apply perm3 in Hb.
  destruct Hb as [->|[->|[->|[->|[->| ->]]]]].
  all: rewrite call_directional;
    [ | exact Hperm | discriminate
      | intros u1 u2 H1 H2; simpl in H1, H2;
        destruct H1 as [<-|[<-|[<-|[]]]]; destruct H2 as [<-|[<-|[<-|[]]]];
        reflexivity ].
  all: match goal with
       | |- context [get_connected_components _ (keys ?b) ?g ?c] =>
           bundle_counts hash_order Hperm b;
           directional_edges hash_order Hperm b;
           assert (HinK : forall x, In x (keys b) ->
                                    x = "AAAA" \/ x = "AAAT" \/ x = "TTTT")
             by (intros x Hx; simpl in Hx; intuition);
           assert (E1 : forall x, edge g "AAAA" x -> x = "AAAT")
             by (intros x Hx; apply Hedge in Hx; destruct Hx as (_ & Hx & Ht);
                 destruct (HinK x Hx) as [->|[->| ->]];
                 [discriminate Ht | reflexivity | discriminate Ht]);
           assert (E2 : forall x, ~ edge g "AAAT" x)
             by (intros x Hx; apply Hedge in Hx; destruct Hx as (_ & Hx & Ht);
                 destruct (HinK x Hx) as [->|[->| ->]]; discriminate Ht);
           assert (E3 : forall x, ~ edge g "TTTT" x)
             by (intros x Hx; apply Hedge in Hx; destruct Hx as (_ & Hx & Ht);
                 destruct (HinK x Hx) as [->|[->| ->]]; discriminate Ht);
           assert (R1 : forall x, reach g "AAAA" x <-> x = "AAAA" \/ x = "AAAT")
             by (intros x; split;
                 [ intros Hr; apply clos_rt_rtn1 in Hr;
                   induction Hr as [|y z He _ IH]; [now left | ];
                   destruct IH as [->| ->]; [right; now apply E1 | now apply E2 in He]
                 | intros [->| ->]; [apply rt_refl | ];
                   apply rt_step; apply Hedge; simpl; intuition ]);
           assert (R3 : forall x, reach g "TTTT" x <-> x = "TTTT")
             by (intros x; split;
                 [ intros Hr; apply clos_rt_rtn1 in Hr;
                   induction Hr as [|y z He _ IH]; [reflexivity | ];
                   subst y; now apply E3 in He
                 | intros ->; apply rt_refl ]);
           components_of hash_order Hperm Hcov (keys b) g c
       end.
  all: rewrite Hgcc; cbn [bind].
  all: assert (Hn : nodes = ["AAAA"; "TTTT"; "AAAT"])
         by sorted_nodes3 hash_order Hperm Hext Hnodes.
  all: subst nodes.
  all: assert (Hseeds : seeds = ["AAAA"; "TTTT"])
         by (apply picks_cons_inv in Hpicks;
             destruct Hpicks as [[(s & [] & _) _]|(_ & seeds1 & -> & Hp2)];
             apply picks_cons_inv in Hp2;
             destruct Hp2 as [[(s & Hs & Hr) _]|(_ & seeds2 & -> & Hp3)];
             [ destruct Hs as [<-|[]]; apply R1 in Hr; destruct Hr; discriminate | ];
             apply picks_cons_inv in Hp3;
             destruct Hp3 as [[_ Hp4]|(Hno & _)];
             [ apply picks_nil_inv in Hp4; now subst
             | exfalso; apply (Hno "AAAA"); [now left | apply R1; now right] ]).
  all: subst seeds.
  all: inversion Hcomps as [|? c1 ? l1 [Hnd1 Hc1] Hrest]; subst.
  all: inversion Hrest as [|? c2 ? l2 [Hnd2 Hc2] Hnil]; subst.
  all: inversion Hnil; subst; clear Hcomps Hrest Hnil.
  all: assert (Hc2' : c2 = ["TTTT"])
         by (apply singleton_set; [assumption | ]; intros x; now rewrite Hc2, R3).
  all: subst c2.
  all: assert (Hc1' : c1 = ["AAAA"; "AAAT"] \/ c1 = ["AAAT"; "AAAA"])
         by (apply pair_set; [discriminate | assumption | ];
             intros x; now rewrite Hc1, R1).
  all: rewrite post_process_directional_unclaimed
         by (intros x Hx; apply HinK in Hx;
             destruct Hc1' as [->| ->]; destruct Hx as [->|[->| ->]];
             vm_compute; lia).
  all: cbn [bind].
  all: rewrite (reduce_clusters_ext _ _ _ _ Hext).
  all: destruct Hc1' as [->| ->]; vm_compute; reflexivity.
Qed.

(** C1, where the code departs from it: AT has 5 reads, TA has 3, and AA,
    with a single read, is one edit from both.  AA is claimed by the
    component of AT and by the component of TA, whose representatives are
    AT and TA.  The claim keeps AA with AT, the representative of higher
    count; the code compares the representatives as strings, removes AA from
    AT's component and keeps it with TA, so AA's read is reassigned to TA.
    This holds for every iteration order of the hashed containers and of
    the bundle. *)
Theorem directional_multi_claim_follows_barcode_order {R}
        (hash_order : list umi -> list umi) find_clusters
        (reads_at reads_ta : list R) (read : R) (bundle : dict (list R)) :
  (forall l, Permutation (hash_order l) l) ->
  length reads_at = 5 ->
  length reads_ta = 3 ->
  Permutation bundle [("AT", reads_at); ("TA", reads_ta); ("AA", [read])] ->
  exists adj_list c1 c2,
    _get_adj_list_directional_ hash_order (keys bundle)
      (counts_of hash_order bundle) 1%Z = Ok adj_list /\
    get_connected_components hash_order (keys bundle) adj_list
      (counts_of hash_order bundle) = Ok [c1; c2] /\
    Permutation c1 ["AT"; "AA"] /\
    Permutation c2 ["TA"; "AA"] /\
    get_best c1 (counts_of hash_order bundle) = Ok "AT" /\
    get_best c2 (counts_of hash_order bundle) = Ok "TA" /\
    count_of (counts_of hash_order bundle) "AT" = 5 /\
    count_of (counts_of hash_order bundle) "TA" = 3 /\
    _post_process_components_directional_ (keys bundle) [c1; c2] adj_list
      (counts_of hash_order bundle) = Ok [["AT"]; c2] /\
    __call__ hash_order (__init__ hash_order find_clusters "directional") bundle 1%Z
    = Ok [(read, "TA")].
Proof.
  intros Hperm Ha Ht Hb.
  do 6 (destruct reads_at as [|? reads_at]; try discriminate Ha).
  do 4 (destruct reads_ta as [|? reads_ta]; try discriminate Ht).
  clear Ha Ht. apply perm3 in Hb.
  destruct Hb as [->|[->|[->|[->|[->| ->]]]]].
  all: match goal with
       | |- context [__call__ _ _ ?b _] =>
           pose (g := adj_graph hash_order
                        (directional_edge (counts_of hash_order b) 1%Z) (keys b));
           bundle_counts hash_order Hperm b;
           directional_edges hash_order Hperm b;
           fold g in Hedge;
           assert (Hu : uniform_length b)
             by (intros u1 u2 H1 H2; simpl in H1, H2;
                 destruct H1 as [<-|[<-|[<-|[]]]]; destruct H2 as [<-|[<-|[<-|[]]]];
                 reflexivity);
           assert (HinK : forall x, In x (keys b) -> x = "AT" \/ x = "TA" \/ x = "AA")
             by (intros x Hx; simpl in Hx; intuition);
           assert (E1 : forall x, edge g "AT" x -> x = "AA")
             by (intros x Hx; apply Hedge in Hx; destruct Hx as (_ & Hx & Ht);
                 destruct (HinK x Hx) as [->|[->| ->]];
                 [discriminate Ht | discriminate Ht | reflexivity]);
           assert (E2 : forall x, edge g "TA" x -> x = "AA")
             by (intros x Hx; apply Hedge in Hx; destruct Hx as (_ & Hx & Ht);
                 destruct (HinK x Hx) as [->|[->| ->]];
                 [discriminate Ht | discriminate Ht | reflexivity]);
           assert (E3 : forall x, ~ edge g "AA" x)
             by (intros x Hx; apply Hedge in Hx; destruct Hx as (_ & Hx & Ht);
                 destruct (HinK x Hx) as [->|[->| ->]]; discriminate Ht);
           assert (R1 : forall x, reach g "AT" x <-> x = "AT" \/ x = "AA")
             by (intros x; split;
                 [ intros Hr; apply clos_rt_rtn1 in Hr;
                   induction Hr as [|y z He _ IH]; [now left | ];
                   destruct IH as [->| ->]; [right; now apply E1 | now apply E3 in He]
                 | intros [->| ->]; [apply rt_refl | ];
                   apply rt_step; apply Hedge; simpl; intuition ]);
           assert (R2 : forall x, reach g "TA" x <-> x = "TA" \/ x = "AA")
             by (intros x; split;
                 [ intros Hr; apply clos_rt_rtn1 in Hr;
                   induction Hr as [|y z He _ IH]; [now left | ];
                   destruct IH as [->| ->]; [right; now apply E2 | now apply E3 in He]
                 | intros [->| ->]; [apply rt_refl | ];
                   apply rt_step; apply Hedge; simpl; intuition ]);
           components_of hash_order Hperm Hcov (keys b) g (counts_of hash_order b)
       end.
  all: assert (Hn : nodes = ["AT"; "TA"; "AA"])
         by (unfold g in Hnodes; sorted_nodes3 hash_order Hperm Hext Hnodes).
  all: subst nodes.
  all: assert (Hseeds : seeds = ["AT"; "TA"])
         by (apply picks_cons_inv in Hpicks;
             destruct Hpicks as [[(s & [] & _) _]|(_ & seeds1 & -> & Hp2)];
             apply picks_cons_inv in Hp2;
             destruct Hp2 as [[(s & Hs & Hr) _]|(_ & seeds2 & -> & Hp3)];
             [ destruct Hs as [<-|[]]; apply R1 in Hr; destruct Hr; discriminate | ];
             apply picks_cons_inv in Hp3;
             destruct Hp3 as [[_ Hp4]|(Hno & _)];
             [ apply picks_nil_inv in Hp4; now subst
             | exfalso; apply (Hno "AT"); [now left | apply R1; now right] ]).
  all: subst seeds.
  all: inversion Hcomps as [|? c1 ? l1 [Hnd1 Hc1] Hrest]; subst.
  all: inversion Hrest as [|? c2 ? l2 [Hnd2 Hc2] Hnil]; subst.
  all: inversion Hnil; subst; clear Hcomps Hrest Hnil Hpicks Hnodes.
  all: assert (Hc1' : c1 = ["AT"; "AA"] \/ c1 = ["AA"; "AT"])
         by (apply pair_set; [discriminate | assumption | ];
             intros x; now rewrite Hc1, R1).
  all: assert (Hc2' : c2 = ["TA"; "AA"] \/ c2 = ["AA"; "TA"])
         by (apply pair_set; [discriminate | assumption | ];
             intros x; now rewrite Hc2, R2).
  all: clear Hc1 Hc2 Hnd1 Hnd2 R1 R2 E1 E2 E3 Hedge.
  all: exists g, c1, c2.
  all: split; [apply get_adj_list_directional_eq; exact Hcov | ].
  all: split; [exact Hgcc | ].
  all: split; [destruct Hc1' as [->| ->]; [reflexivity | apply perm_swap] | ].
  all: split; [destruct Hc2' as [->| ->]; [reflexivity | apply perm_swap] | ].
  all: split; [rewrite (get_best_ext _ _ _ Hext);
               destruct Hc1' as [->| ->]; vm_compute; reflexivity | ].
  all: split; [rewrite (get_best_ext _ _ _ Hext);
               destruct Hc2' as [->| ->]; vm_compute; reflexivity | ].
  all: split; [rewrite count_of_counts_of by exact Hperm; reflexivity | ].
  all: split; [rewrite count_of_counts_of by exact Hperm; reflexivity | ].
  all: match goal with
       | |- context [__call__ _ _ ?b _] =>
           assert (Hpp : _post_process_components_directional_ (keys b) [c1; c2] g
                           (counts_of hash_order b) = Ok [["AT"]; c2])
             by (rewrite (post_process_directional_ext _ _ _ _ _ Hext);
                 destruct Hc1' as [->| ->]; destruct Hc2' as [->| ->];
                 vm_compute; reflexivity)
       end.
  all: split; [exact Hpp | ].
  all: rewrite call_directional by (exact Hperm || discriminate || exact Hu).
  all: fold g; rewrite Hgcc; cbn [bind]; rewrite Hpp; cbn [bind].
  all: rewrite (reduce_clusters_ext _ _ _ _ Hext).
  all: destruct Hc2' as [->| ->]; vm_compute; reflexivity.
Qed.


(** * Runs in insertion order *)

Lemma insertion_order_perm (l : list umi) : Permutation (insertion_order l) l.
Proof. apply Permutation_refl. Qed.

(** C4, the part that fails: under the directional policy the components of
    the bundle {AT: 5, TA: 3, AA: 1} at threshold 1 are {AT, AA} and
    {TA, AA}, which share AA. *)
Lemma directional_components_overlap :
  let bundle := two_parents_bundle in
  let counts := counts_of insertion_order bundle in
  exists adj_list,
    _get_adj_list_directional_ insertion_order (keys bundle) counts 1%Z = Ok adj_list /\
    get_connected_components insertion_order (keys bundle) adj_list counts
    = Ok [["AT"; "AA"]; ["TA"; "AA"]] /\
    claims "AA" [["AT"; "AA"]; ["TA"; "AA"]] = 2.
Proof.
  eexists. split; [vm_compute; reflexivity | ].
  split; vm_compute; reflexivity.
Qed.

(** C5, the part that fails: at threshold 0 a barcode with a single read is
    in its own adjacency list. *)
Lemma directional_self_adjacent_at_threshold_zero :
  let bundle : dict (list nat) := [("ACGT", [0])] in
  exists adj_list,
    _get_adj_list_directional_ insertion_order (keys bundle)
      (counts_of insertion_order bundle) 0%Z = Ok adj_list /\
    getitem adj_list "ACGT" = Ok ["ACGT"].
Proof. eexists. split; vm_compute; reflexivity. Qed.

(** C8, the part that fails: at threshold 0 the empty bundle does not give
    the empty reassignment list, and neither does a bundle of mixed
    lengths. *)
Lemma threshold_zero_bad_bundles :
  __call__ insertion_order directional_engine (@nil (umi * list nat)) 0%Z
  = Raise (ValueError "max() arg is an empty sequence") /\
  __call__ insertion_order directional_engine [("A", [0]); ("AA", [1])] 0%Z
  = Raise (AssertionError 1 2).
Proof. split; reflexivity. Qed.

(** C10, the part that fails: an engine constructed with an unknown method
    fails on the empty bundle and on a bundle of mixed lengths at the
    length check, not with the missing-attribute error. *)
Lemma unbound_policy_fails_at_length_check :
  let self := __init__ insertion_order one_cluster "adjacency" in
  get_adj_list self = None /\
  __call__ insertion_order self (@nil (umi * list nat)) 1%Z
  = Raise (ValueError "max() arg is an empty sequence") /\
  __call__ insertion_order self [("A", [0]); ("AA", [1])] 1%Z
  = Raise (AssertionError 1 2).
Proof. repeat split. Qed.

(** * The theorems at concrete inputs *)

Lemma directional_adjacency_witness :
  (forall l, Permutation (insertion_order l) l) /\
  exists adj_list,
    _get_adj_list_directional_ insertion_order (keys example_bundle)
      (counts_of insertion_order example_bundle) 1%Z = Ok adj_list /\
    forall b, In b (keys example_bundle) ->
      exists row,
        getitem adj_list b = Ok row /\
        (forall b2, In b2 row <->
                    In b2 (keys example_bundle) /\
                    Z.of_nat (hamming b b2) = 1%Z /\
                    (Z.of_nat (reads_count example_bundle b)
                     >= 2 * Z.of_nat (reads_count example_bundle b2) - 1)%Z) /\
        (1%Z <> 0%Z -> ~ In b row) /\
        (1%Z = 0%Z -> (In b row <-> reads_count example_bundle b <= 1)).
Proof.
  split; [exact insertion_order_perm | ].
  apply (directional_adjacency insertion_order insertion_order_perm example_bundle 1%Z).
Defined.

Lemma call_length_precondition_witness :
  (exists lo hi,
      __call__ insertion_order directional_engine [("ACG", [0]); ("ACGTT", [1; 2])] 1%Z
      = Raise (AssertionError lo hi) /\
      is_min lo [3; 5] /\ is_max hi [3; 5]) /\
  (uniform_length example_bundle /\
   forall lo hi,
     __call__ insertion_order directional_engine example_bundle 1%Z
     <> Raise (AssertionError lo hi)).
Proof.
  split.
  - apply (proj1 (call_length_precondition insertion_order
                    [("ACG", [0]); ("ACGTT", [1; 2])])
                 directional_engine 1%Z "ACG" "ACGTT").
    + simpl. auto.
    + simpl. auto.
    + simpl. lia.
  - assert (Hu : uniform_length example_bundle).
    { intros u1 u2 H1 H2. simpl in H1, H2.
      destruct H1 as [<-|[<-|[<-|[]]]]; destruct H2 as [<-|[<-|[<-|[]]]];
        reflexivity. }
    split; [exact Hu | ].
    apply (proj2 (call_length_precondition insertion_order example_bundle) Hu
                 one_cluster "directional" 1%Z).
Defined.

Lemma unbound_policy_call_witness :
  "adjacency" <> "directional" /\
  "adjacency" <> "kmeans" /\
  get_adj_list (__init__ insertion_order one_cluster "adjacency") = None /\
  post_process_components (__init__ insertion_order one_cluster "adjacency") = None /\
  (exists e,
      __call__ insertion_order (__init__ insertion_order one_cluster "adjacency")
               example_bundle 1%Z = Raise e) /\
  (example_bundle <> [] -> uniform_length example_bundle ->
   __call__ insertion_order (__init__ insertion_order one_cluster "adjacency")
            example_bundle 1%Z = Raise (AttributeError "get_adj_list")).
Proof.
  split; [discriminate | split; [discriminate | ]].
  apply (unbound_policy_call insertion_order one_cluster "adjacency"
                             example_bundle 1%Z); discriminate.
Defined.

Lemma connected_components_cover_witness :
  (forall l, Permutation (insertion_order l) l) /\
  ("kmeans" = "directional" \/ "kmeans" = "kmeans") /\
  exists f adj_list components,
    get_adj_list (__init__ insertion_order one_cluster "kmeans") = Some f /\
    f (keys example_bundle) (counts_of insertion_order example_bundle) 1%Z
    = Ok adj_list /\
    get_connected_components insertion_order (keys example_bundle) adj_list
      (counts_of insertion_order example_bundle) = Ok components /\
    (forall b, In b (keys example_bundle) -> exists c, In c components /\ In b c) /\
    (forall c, In c components ->
               exists seed, In seed (keys example_bundle) /\
                            forall x, In x c <-> reach adj_list seed x) /\
    ("kmeans" = "kmeans" -> forall x, claims x components <= 1).
Proof.
  split; [exact insertion_order_perm | split; [now right | ]].
  apply (connected_components_cover insertion_order insertion_order_perm
           one_cluster "kmeans" example_bundle 1%Z).
  now right.
Defined.

Lemma threshold_zero_no_reassignment_witness :
  (forall l, Permutation (insertion_order l) l) /\
  ("directional" = "directional" \/ "directional" = "kmeans") /\
  example_bundle <> [] /\
  uniform_length example_bundle /\
  (exists f adj_list,
      get_adj_list (__init__ insertion_order one_cluster "directional") = Some f /\
      f (keys example_bundle) (counts_of insertion_order example_bundle) 0%Z
      = Ok adj_list /\
      forall b b2, edge adj_list b b2 -> b2 = b) /\
  __call__ insertion_order (__init__ insertion_order one_cluster "directional")
           example_bundle 0%Z = Ok [].
Proof.
  assert (Hu : uniform_length example_bundle).
  { intros u1 u2 H1 H2. simpl in H1, H2.
    destruct H1 as [<-|[<-|[<-|[]]]]; destruct H2 as [<-|[<-|[<-|[]]]];
      reflexivity. }
  split; [exact insertion_order_perm | ].
  split; [now left | ].
  split; [discriminate | ].
  split; [exact Hu | ].
  apply (threshold_zero_no_reassignment insertion_order insertion_order_perm
           one_cluster "directional" example_bundle).
  - now left.
  - discriminate.
  - exact Hu.
Defined.

Lemma directional_example_witness :
  (forall l, Permutation (insertion_order l) l) /\
  length (seq 0 10) = 10 /\
  length (seq 11 8) = 8 /\
  Permutation example_bundle [("AAAA", seq 0 10); ("AAAT", [10]); ("TTTT", seq 11 8)] /\
  __call__ insertion_order directional_engine example_bundle 1%Z = Ok [(10, "AAAA")].
Proof.
  split; [exact insertion_order_perm | ].
  split; [reflexivity | split; [reflexivity | split; [apply Permutation_refl | ]]].
  apply (directional_example insertion_order one_cluster (seq 0 10) (seq 11 8) 10
                             example_bundle).
  - exact insertion_order_perm.
  - reflexivity.
  - reflexivity.
  - apply Permutation_refl.
Defined.

Lemma directional_multi_claim_follows_barcode_order_witness :
  (forall l, Permutation (insertion_order l) l) /\
  length (seq 0 5) = 5 /\
  length (seq 5 3) = 3 /\
  Permutation two_parents_bundle [("AT", seq 0 5); ("TA", seq 5 3); ("AA", [8])] /\
  exists adj_list c1 c2,
    _get_adj_list_directional_ insertion_order (keys two_parents_bundle)
      (counts_of insertion_order two_parents_bundle) 1%Z = Ok adj_list /\
    get_connected_components insertion_order (keys two_parents_bundle) adj_list
      (counts_of insertion_order two_parents_bundle) = Ok [c1; c2] /\
    Permutation c1 ["AT"; "AA"] /\
    Permutation c2 ["TA"; "AA"] /\
    get_best c1 (counts_of insertion_order two_parents_bundle) = Ok "AT" /\
    get_best c2 (counts_of insertion_order two_parents_bundle) = Ok "TA" /\
    count_of (counts_of insertion_order two_parents_bundle) "AT" = 5 /\
    count_of (counts_of insertion_order two_parents_bundle) "TA" = 3 /\
    _post_process_components_directional_ (keys two_parents_bundle) [c1; c2] adj_list
      (counts_of insertion_order two_parents_bundle) = Ok [["AT"]; c2] /\
    __call__ insertion_order directional_engine two_parents_bundle 1%Z
    = Ok [(8, "TA")].
Proof.
  split; [exact insertion_order_perm | ].
  split; [reflexivity | split; [reflexivity | split; [apply Permutation_refl | ]]].
  apply (directional_multi_claim_follows_barcode_order insertion_order one_cluster
           (seq 0 5) (seq 5 3) 8 two_parents_bundle).
  - exact insertion_order_perm.
  - reflexivity.
  - reflexivity.
  - apply Permutation_refl.
Defined.


(** * The further properties at concrete inputs *)

Lemma breadth_first_search_reachable_witness :
  let graph : dict (list umi) := [("AAAA", ["AAAT"]); ("AAAT", []); ("TTTT", [])] in
  (forall l, Permutation (insertion_order l) l) /\
  ((exists found,
       breadth_first_search insertion_order "AAAA" graph = Ok found /\
       NoDup found /\
       (forall x, In x found <-> reach graph "AAAA" x) /\
       (forall x, reach graph "AAAA" x -> In x (keys graph)))
   \/ (exists k,
          breadth_first_search insertion_order "AAAA" graph = Raise (KeyError k) /\
          reach graph "AAAA" k /\ ~ In k (keys graph))).
Proof.
  split; [exact insertion_order_perm | ].
  apply (breadth_first_search_reachable insertion_order insertion_order_perm).
Defined.

Lemma connected_components_seed_order_witness :
  let graph : dict (list umi) := [("AAAA", ["AAAT"]); ("AAAT", []); ("TTTT", [])] in
  let counts : dict nat := [("AAAA", 10); ("AAAT", 1); ("TTTT", 8)] in
  (forall l, Permutation (insertion_order l) l) /\
  closed_graph graph /\
  incl (keys graph) (keys counts) /\
  exists nodes seeds components,
    get_connected_components insertion_order (keys graph) graph counts
    = Ok components /\
    Permutation nodes (keys graph) /\
    StronglySorted (fun a b => count_of counts b <= count_of counts a) nodes /\
    (forall k, filter (fun x => count_of counts x =? k) nodes
               = filter (fun x => count_of counts x =? k) (keys graph)) /\
    picks graph nodes [] seeds /\
    Forall2 (component_from graph) seeds components.
Proof.
  intros graph counts.
  assert (Hclosed : closed_graph graph).
  { intros a row b Hl Hin. unfold graph in Hl. cbn [lookup] in Hl.
    destruct (String.eqb "AAAA" a).
    - injection Hl as <-. destruct Hin as [<-|[]]. simpl. auto.
    - destruct (String.eqb "AAAT" a).
      + injection Hl as <-. destruct Hin.
      + destruct (String.eqb "TTTT" a); [ | discriminate].
        injection Hl as <-. destruct Hin. }
  assert (Hcov : incl (keys graph) (keys counts)) by (intros x Hx; exact Hx).
  split; [exact insertion_order_perm | ].
  split; [exact Hclosed | split; [exact Hcov | ]].
  apply (connected_components_seed_order insertion_order insertion_order_perm
           (keys graph) graph counts Hclosed Hcov).
Defined.

Lemma connected_components_missing_count_witness :
  let graph : dict (list umi) := [("AAAA", ["AAAT"]); ("AAAT", ["AAAA"])] in
  let counts : dict nat := [("AAAA", 3)] in
  keys graph = ["AAAA"] ++ "AAAT" :: [] /\
  incl ["AAAA"] (keys counts) /\
  ~ In "AAAT" (keys counts) /\
  get_connected_components insertion_order (keys graph) graph counts
  = Raise (KeyError "AAAT").
Proof.
  intros graph counts.
  assert (Hpre : incl ["AAAA"] (keys counts)) by (intros x Hx; exact Hx).
  assert (Hk : ~ In "AAAT" (keys counts)).
  { simpl. intros [H|[]]. discriminate. }
  split; [reflexivity | split; [exact Hpre | split; [exact Hk | ]]].
  apply (connected_components_missing_count insertion_order (keys graph) graph counts
           ["AAAA"] "AAAT" []); [reflexivity | exact Hpre | exact Hk].
Defined.

Lemma kmeans_adjacency_witness :
  let umis := ["AAAA"; "AAAT"; "TTTT"] in
  let counts : dict nat := [] in
  (forall l, Permutation (insertion_order l) l) /\
  exists adj_list,
    _get_adj_list_kmeans_ insertion_order umis counts 1%Z = Ok adj_list /\
    (forall b, In b (keys adj_list) <-> In b umis) /\
    (forall b, In b umis ->
       getitem adj_list b
       = Ok (filter (fun b2 => (Z.of_nat (hamming b b2) =? 1)%Z) umis)) /\
    (forall b b2, edge adj_list b b2 <->
                  In b umis /\ In b2 umis /\ Z.of_nat (hamming b b2) = 1%Z) /\
    symmetric_graph adj_list /\
    (forall b, In b umis -> (edge adj_list b b <-> 1%Z = 0%Z)).
Proof.
  split; [exact insertion_order_perm | ].
  apply (kmeans_adjacency insertion_order insertion_order_perm).
Defined.

Lemma get_best_edge_cases_witness :
  let counts : dict nat := [("AAAA", 3)] in
  1 <= length (["AAAA"] ++ ["TTTT"]) /\
  incl ["AAAA"] (keys counts) /\
  ~ In "AAAT" (keys counts) /\
  get_best (["AAAA"] ++ "AAAT" :: ["TTTT"]) counts = Raise (KeyError "AAAT").
Proof.
  intros counts.
  assert (Hlen : 1 <= length (["AAAA"] ++ ["TTTT"])) by (simpl; lia).
  assert (Hpre : incl ["AAAA"] (keys counts)) by (intros x Hx; exact Hx).
  assert (Hk : ~ In "AAAT" (keys counts)).
  { simpl. intros [H|[]]. discriminate. }
  split; [exact Hlen | split; [exact Hpre | split; [exact Hk | ]]].
  apply (proj2 (proj2 (get_best_edge_cases counts)) ["AAAA"] "AAAT" ["TTTT"]
               Hlen Hpre Hk).
Defined.

Lemma post_process_directional_resolves_witness :
  let umis := ["AT"; "TA"; "AA"] in
  let components := [["AT"; "AA"]; ["TA"; "AA"]] in
  let adj_list : dict (list umi) := [("AT", ["AA"]); ("TA", ["AA"]); ("AA", [])] in
  let counts : dict nat := [("AT", 5); ("TA", 3); ("AA", 1)] in
  all_in (keys counts) components /\
  exists clusters,
    _post_process_components_directional_ umis components adj_list counts
    = Ok clusters /\
    Forall2 (trimmed umis components) clusters components /\
    (forall x, In x umis -> 1 <= claims x components -> claims x clusters = 1) /\
    (forall x, ~ In x umis -> claims x clusters = claims x components).
Proof.
  intros umis components adj_list counts.
  assert (HK : all_in (keys counts) components).
  { intros c Hc x Hx. simpl in Hc.
    destruct Hc as [<-|[<-|[]]]; destruct Hx as [<-|[<-|[]]]; simpl; auto. }
  split; [exact HK | ].
  apply (post_process_directional_resolves umis components adj_list counts HK).
Defined.

Lemma post_process_directional_disjoint_witness :
  let umis := ["AAAA"; "AAAT"; "TTTT"] in
  let components := [["AAAA"; "AAAT"]; ["TTTT"]] in
  (forall x, In x umis -> claims x components <= 1) /\
  _post_process_components_directional_ umis components [] [] = Ok components.
Proof.
  intros umis components.
  assert (H : forall x, In x umis -> claims x components <= 1).
  { intros x Hx. simpl in Hx.
    destruct Hx as [<-|[<-|[<-|[]]]]; vm_compute; lia. }
  split; [exact H | ].
  apply (post_process_directional_disjoint umis components [] [] H).
Defined.

Lemma post_process_directional_idempotent_witness :
  let umis := ["AT"; "TA"; "AA"] in
  let components := [["AT"; "AA"]; ["TA"; "AA"]] in
  let adj_list : dict (list umi) := [("AT", ["AA"]); ("TA", ["AA"]); ("AA", [])] in
  let counts : dict nat := [("AT", 5); ("TA", 3); ("AA", 1)] in
  all_in (keys counts) components /\
  _post_process_components_directional_ umis components adj_list counts
  = Ok [["AT"]; ["TA"; "AA"]] /\
  _post_process_components_directional_ umis [["AT"]; ["TA"; "AA"]] [] []
  = Ok [["AT"]; ["TA"; "AA"]].
Proof.
  intros umis components adj_list counts.
  assert (HK : all_in (keys counts) components).
  { intros c Hc x Hx. simpl in Hc.
    destruct Hc as [<-|[<-|[]]]; destruct Hx as [<-|[<-|[]]]; simpl; auto. }
  assert (Hpp : _post_process_components_directional_ umis components adj_list counts
                = Ok [["AT"]; ["TA"; "AA"]]) by reflexivity.
  split; [exact HK | split; [exact Hpp | ]].
  apply (post_process_directional_idempotent umis components adj_list counts [] []
           [["AT"]; ["TA"; "AA"]] HK Hpp).
Defined.

Lemma reduce_clusters_pairs_witness :
  let clusters := [["AAAA"; "AAAT"]; ["TTTT"]] in
  let counts : dict nat := [("AAAA", 10); ("AAAT", 1); ("TTTT", 8)] in
  all_in (keys example_bundle) clusters /\
  all_in (keys counts) clusters /\
  exists moves,
    reduce_clusters example_bundle clusters counts
    = Ok (reassign example_bundle moves) /\
    forall u p,
      In (u, p) moves <->
      exists c, In c clusters /\ 1 < length c /\ get_best c counts = Ok p /\
                In u c /\ u <> p.
Proof.
  intros clusters counts.
  assert (Hb : all_in (keys example_bundle) clusters).
  { intros c Hc x Hx. simpl in Hc.
    destruct Hc as [<-|[<-|[]]].
    - destruct Hx as [<-|[<-|[]]]; simpl; auto.
    - destruct Hx as [<-|[]]; simpl; auto. }
  assert (Hc : all_in (keys counts) clusters) by exact Hb.
  split; [exact Hb | split; [exact Hc | ]].
  apply (reduce_clusters_pairs example_bundle clusters counts Hb Hc).
Defined.

Lemma call_directional_moves_witness :
  (forall l, Permutation (insertion_order l) l) /\
  example_bundle <> [] /\
  uniform_length example_bundle /\
  exists moves,
    __call__ insertion_order (__init__ insertion_order one_cluster "directional")
             example_bundle 1%Z = Ok (reassign example_bundle moves) /\
    NoDup (map fst moves) /\
    forall u p, In (u, p) moves ->
      In u (keys example_bundle) /\ In p (keys example_bundle) /\ u <> p /\
      reads_count example_bundle u <= reads_count example_bundle p /\
      ~ In p (map fst moves) /\
      exists s, reach (directional_graph insertion_order example_bundle 1%Z) s u /\
                reach (directional_graph insertion_order example_bundle 1%Z) s p.
Proof.
  assert (Hne : example_bundle <> []) by discriminate.
  assert (Hu : uniform_length example_bundle).
  { intros u1 u2 H1 H2. simpl in H1, H2.
    destruct H1 as [<-|[<-|[<-|[]]]]; destruct H2 as [<-|[<-|[<-|[]]]];
      reflexivity. }
  split; [exact insertion_order_perm | ].
  split; [exact Hne | split; [exact Hu | ]].
  apply (call_directional_moves insertion_order insertion_order_perm one_cluster
           example_bundle 1%Z Hne Hu).
Defined.

Lemma call_isolated_barcodes_witness :
  (forall l, Permutation (insertion_order l) l) /\
  ("kmeans" = "directional" \/ "kmeans" = "kmeans") /\
  example_bundle <> [] /\
  uniform_length example_bundle /\
  (forall a b, In a (keys example_bundle) -> In b (keys example_bundle) -> a <> b ->
               Z.of_nat (hamming a b) <> 2%Z) /\
  (exists f adj_list,
      get_adj_list (__init__ insertion_order split_first "kmeans") = Some f /\
      f (keys example_bundle) (counts_of insertion_order example_bundle) 2%Z
      = Ok adj_list /\
      forall b b2, edge adj_list b b2 -> b2 = b) /\
  __call__ insertion_order (__init__ insertion_order split_first "kmeans")
           example_bundle 2%Z = Ok [].
Proof.
  assert (Hm : "kmeans" = "directional" \/ "kmeans" = "kmeans") by now right.
  assert (Hne : example_bundle <> []) by discriminate.
  assert (Hu : uniform_length example_bundle).
  { intros u1 u2 H1 H2. simpl in H1, H2.
    destruct H1 as [<-|[<-|[<-|[]]]]; destruct H2 as [<-|[<-|[<-|[]]]];
      reflexivity. }
  assert (Hfar : forall a b, In a (keys example_bundle) -> In b (keys example_bundle) ->
                             a <> b -> Z.of_nat (hamming a b) <> 2%Z).
  { intros a b Ha Hb Hn. simpl in Ha, Hb.
    destruct Ha as [<-|[<-|[<-|[]]]]; destruct Hb as [<-|[<-|[<-|[]]]];
      try congruence; vm_compute; discriminate. }
  split; [exact insertion_order_perm | ].
  split; [exact Hm | split; [exact Hne | split; [exact Hu | split; [exact Hfar | ]]]].
  apply (call_isolated_barcodes insertion_order insertion_order_perm split_first
           "kmeans" example_bundle 2%Z Hm Hne Hu Hfar).
Defined.

Lemma post_process_kmeans_never_splits_witness :
  let umis := ["AAAA"; "AAAT"; "TTTT"] in
  let components := [["AAAA"; "AAAT"]; ["TTTT"]] in
  let adj_list : dict (list umi) :=
    [("AAAA", ["AAAT"]); ("AAAT", ["AAAA"]); ("TTTT", [])] in
  let counts : dict nat := [("AAAA", 10); ("AAAT", 1); ("TTTT", 8)] in
  (forall c, In c components -> incl c (keys counts) /\ incl c (keys adj_list)) /\
  exists clusters,
    _post_process_components_kmeans_ insertion_order split_first
      umis components adj_list counts = Ok clusters /\
    (forall c, In c clusters -> In c components) /\
    (forall c, In c components -> length c = 1 -> In c clusters) /\
    (forall c, In c components -> length c <> 1 ->
               (In c clusters <->
                kmeans_subclusters insertion_order split_first adj_list counts c <> [])).
Proof.
  intros umis components adj_list counts.
  assert (Hin : forall c, In c components ->
                          incl c (keys counts) /\ incl c (keys adj_list)).
  { intros c Hc. simpl in Hc.
    destruct Hc as [<-|[<-|[]]]; split; intros x Hx.
    - destruct Hx as [<-|[<-|[]]]; simpl; auto.
    - destruct Hx as [<-|[<-|[]]]; simpl; auto.
    - destruct Hx as [<-|[]]; simpl; auto.
    - destruct Hx as [<-|[]]; simpl; auto. }
  split; [exact Hin | ].
  apply (post_process_kmeans_never_splits insertion_order split_first
           umis components adj_list counts Hin).
Defined.

Lemma call_kmeans_unsplit_moves_witness :
  (forall l, Permutation (insertion_order l) l) /\
  (forall adj counts k, length (one_cluster adj counts k) = 1) /\
  example_bundle <> [] /\
  uniform_length example_bundle /\
  exists moves,
    __call__ insertion_order (__init__ insertion_order one_cluster "kmeans")
             example_bundle 1%Z = Ok (reassign example_bundle moves) /\
    NoDup (map fst moves) /\
    forall u p, In (u, p) moves ->
      In u (keys example_bundle) /\ In p (keys example_bundle) /\ u <> p /\
      reads_count example_bundle u <= reads_count example_bundle p /\
      ~ In p (map fst moves) /\
      reach (kmeans_graph insertion_order example_bundle 1%Z) p u.
Proof.
  assert (Hone : forall adj counts k, length (one_cluster adj counts k) = 1)
    by reflexivity.
  assert (Hne : example_bundle <> []) by discriminate.
  assert (Hu : uniform_length example_bundle).
  { intros u1 u2 H1 H2. simpl in H1, H2.
    destruct H1 as [<-|[<-|[<-|[]]]]; destruct H2 as [<-|[<-|[<-|[]]]];
      reflexivity. }
  split; [exact insertion_order_perm | ].
  split; [exact Hone | split; [exact Hne | split; [exact Hu | ]]].
  apply (call_kmeans_unsplit_moves insertion_order insertion_order_perm one_cluster
           example_bundle 1%Z Hone Hne Hu).
Defined.

Lemma directional_seed_dominates_witness :
  (forall l, Permutation (insertion_order l) l) /\
  exists adj_list components,
    _get_adj_list_directional_ insertion_order (keys two_parents_bundle)
      (counts_of insertion_order two_parents_bundle) 1%Z = Ok adj_list /\
    get_connected_components insertion_order (keys two_parents_bundle) adj_list
      (counts_of insertion_order two_parents_bundle) = Ok components /\
    (forall a b, reach adj_list a b ->
                 reads_count two_parents_bundle b <= reads_count two_parents_bundle a) /\
    (forall c, In c components ->
               exists seed,
                 In seed (keys two_parents_bundle) /\
                 (forall x, In x c <-> reach adj_list seed x) /\
                 (forall x, In x c ->
                            reads_count two_parents_bundle x
                            <= reads_count two_parents_bundle seed)).
Proof.
  split; [exact insertion_order_perm | ].
  apply (directional_seed_dominates insertion_order insertion_order_perm
           two_parents_bundle 1%Z).
Defined.

Lemma directional_partition_witness :
  (forall l, Permutation (insertion_order l) l) /\
  exists adj_list components clusters,
    _get_adj_list_directional_ insertion_order (keys two_parents_bundle)
      (counts_of insertion_order two_parents_bundle) 1%Z = Ok adj_list /\
    get_connected_components insertion_order (keys two_parents_bundle) adj_list
      (counts_of insertion_order two_parents_bundle) = Ok components /\
    _post_process_components_directional_ (keys two_parents_bundle) components adj_list
      (counts_of insertion_order two_parents_bundle) = Ok clusters /\
    (forall b, In b (keys two_parents_bundle) -> claims b clusters = 1) /\
    all_in (keys two_parents_bundle) clusters.
Proof.
  split; [exact insertion_order_perm | ].
  apply (directional_partition insertion_order insertion_order_perm
           two_parents_bundle 1%Z).
Defined.

Lemma kmeans_partition_unsplit_witness :
  (forall l, Permutation (insertion_order l) l) /\
  (forall adj_list counts k, length (one_cluster adj_list counts k) = 1) /\
  exists adj_list components,
    _get_adj_list_kmeans_ insertion_order (keys example_bundle)
      (counts_of insertion_order example_bundle) 1%Z = Ok adj_list /\
    get_connected_components insertion_order (keys example_bundle) adj_list
      (counts_of insertion_order example_bundle) = Ok components /\
    _post_process_components_kmeans_ insertion_order one_cluster (keys example_bundle)
      components adj_list (counts_of insertion_order example_bundle) = Ok components /\
    forall b, In b (keys example_bundle) -> claims b components = 1.
Proof.
  assert (Hone : forall adj_list counts k, length (one_cluster adj_list counts k) = 1)
    by reflexivity.
  split; [exact insertion_order_perm | split; [exact Hone | ]].
  apply (kmeans_partition_unsplit insertion_order insertion_order_perm one_cluster
           example_bundle 1%Z Hone).
Defined.

Lemma call_returns_witness :
  (forall l, Permutation (insertion_order l) l) /\
  ("kmeans" = "directional" \/ "kmeans" = "kmeans") /\
  example_bundle <> [] /\
  uniform_length example_bundle /\
  exists reads,
    __call__ insertion_order (__init__ insertion_order split_first "kmeans")
             example_bundle 1%Z = Ok reads.
Proof.
  assert (Hm : "kmeans" = "directional" \/ "kmeans" = "kmeans") by now right.
  assert (Hne : example_bundle <> []) by discriminate.
  assert (Hu : uniform_length example_bundle).
  { intros u1 u2 H1 H2. simpl in H1, H2.
    destruct H1 as [<-|[<-|[<-|[]]]]; destruct H2 as [<-|[<-|[<-|[]]]];
      reflexivity. }
  split; [exact insertion_order_perm | ].
  split; [exact Hm | split; [exact Hne | split; [exact Hu | ]]].
  apply (call_returns insertion_order insertion_order_perm split_first "kmeans"
           example_bundle 1%Z Hm Hne Hu).
Defined.

Lemma call_threshold_out_of_range_witness :
  (forall l, Permutation (insertion_order l) l) /\
  ("directional" = "directional" \/ "directional" = "kmeans") /\
  example_bundle <> [] /\
  uniform_length example_bundle /\
  ((5 < 0)%Z
   \/ (exists b, In b (keys example_bundle) /\ (Z.of_nat (String.length b) < 5)%Z)) /\
  __call__ insertion_order (__init__ insertion_order one_cluster "directional")
           example_bundle 5%Z = Ok [].
Proof.
  assert (Hm : "directional" = "directional" \/ "directional" = "kmeans") by now left.
  assert (Hne : example_bundle <> []) by discriminate.
  assert (Hu : uniform_length example_bundle).
  { intros u1 u2 H1 H2. simpl in H1, H2.
    destruct H1 as [<-|[<-|[<-|[]]]]; destruct H2 as [<-|[<-|[<-|[]]]];
      reflexivity. }
  assert (Hout : (5 < 0)%Z
                 \/ (exists b, In b (keys example_bundle) /\
                               (Z.of_nat (String.length b) < 5)%Z)).
  { right. exists "AAAA". split; [simpl; auto | simpl; lia]. }
  split; [exact insertion_order_perm | ].
  split; [exact Hm | split; [exact Hne | split; [exact Hu | split; [exact Hout | ]]]].
  apply (call_threshold_out_of_range insertion_order insertion_order_perm one_cluster
           "directional" example_bundle 5%Z Hm Hne Hu Hout).
Defined.
